(** * Terrain analysis engine of the Geovisor viewer (src/lib/geo-math.ts)

    A shallow embedding of the DEM sampler, the profile extractor and the
    volume engine, together with the geodesic helpers they rest on.

    JavaScript numbers are IEEE 754 binary64 values, so they are modelled by
    Rocq's primitive floats: [+], [-], [*], [/], [sqrt], [abs] and the
    comparisons are the very operations the engine executes, NaN, signed
    zeros and infinities included.  [Math.sin], [Math.cos] and [Math.atan2]
    are implementation-approximated in ECMAScript; they are a parameter of
    the development (record [MathLib]).

    The order properties of [+], [*] and [/] are derived from their IEEE 754
    specification ([SpecFloat]); the real numbers serve to say which number
    a float denotes. *)

From Stdlib Require Import Reals Lra ZArith List Sorted Lia Bool Floats.
From Stdlib Require String.
Import ListNotations.

Set Warnings "-inexact-float".
Local Open Scope float_scope.

(** ** The fragment of ECMAScript the module relies on *)

Module JS.

(** The values that flow through the engine where a number is expected:
    a number, [null], or [undefined] (an out-of-range typed-array read). *)
Inductive value : Type :=
| Undefined
| Null
| Num (x : float).

(** [a === b] on these values. Numbers compare with IEEE equality, so
    [NaN === NaN] is false and [0 === -0] is true. *)
Definition strict_eq (a b : value) : bool :=
  match a, b with
  | Undefined, Undefined => true
  | Null, Null => true
  | Num x, Num y => x =? y
  | _, _ => false
  end.

(** [v !== null] *)
Definition not_null (v : value) : bool := negb (strict_eq v Null).

(** [ToNumber], applied by every arithmetic operator. *)
Definition ToNumber (v : value) : float :=
  match v with
  | Undefined => nan
  | Null => 0
  | Num x => x
  end.

(** [a > b] and [a >= b] are IEEE comparisons with swapped operands. *)
Definition gtb (a b : float) : bool := b <? a.
Definition geb (a b : float) : bool := b <=? a.

(** Non-negative integers below 2^63 convert exactly through [of_uint63]
    when they are below 2^53. *)
Definition of_Z (z : Z) : float :=
  if (z <? 0)%Z then - of_uint63 (Uint63.of_Z (- z)) else of_uint63 (Uint63.of_Z z).

(** The integer an integral finite float denotes, if it is one. *)
Definition to_Z (x : float) : option Z :=
  match Prim2SF x with
  | S754_zero _ => Some 0%Z
  | S754_finite s m e =>
      let z := if (0 <=? e)%Z then Some (Z.shiftl (Zpos m) e)
               else if (Z.land (Zpos m) (Z.ones (- e)) =? 0)%Z
                    then Some (Z.shiftr (Zpos m) (- e)) else None in
      if s then option_map Z.opp z else z
  | _ => None
  end.

(** The greatest integer not above a finite float (0 for the others). *)
Definition floorZ (x : float) : Z :=
  match Prim2SF x with
  | S754_finite s m e =>
      let v := if s then Zneg m else Zpos m in
      if (0 <=? e)%Z then Z.shiftl v e else Z.shiftr v (- e)
  | _ => 0%Z
  end.

Definition ceilZ (x : float) : Z := (- floorZ (- x))%Z.

(** [Math.floor]: NaN, zeros and infinities are returned unchanged, a
    float with a non-negative exponent is already integral, and otherwise
    the value is rounded toward minus infinity (a positive fraction below
    one gives [+0]). *)
Definition Math_floor (x : float) : float :=
  match Prim2SF x with
  | S754_finite s m e => if (0 <=? e)%Z then x else of_Z (floorZ x)
  | _ => x
  end.

(** [Math.ceil x] is [-Math.floor(-x)], signed zero included. *)
Definition Math_ceil (x : float) : float := - Math_floor (- x).

Definition Math_abs (x : float) : float := abs x.
Definition Math_sqrt (x : float) : float := sqrt x.
Definition Math_PI : float := 0x1.921fb54442d18p+1.

Definition is_neg_zero (x : float) : bool :=
  match Prim2SF x with S754_zero true => true | _ => false end.

(** Binary [Math.max] / [Math.min]: NaN is contagious and [-0 < +0]. *)
Definition Math_max (a b : float) : float :=
  if is_nan a || is_nan b then nan
  else if a <? b then b
  else if b <? a then a
  else if is_neg_zero a then b else a.

Definition Math_min (a b : float) : float :=
  if is_nan a || is_nan b then nan
  else if a <? b then a
  else if b <? a then b
  else if is_neg_zero a then a else b.

(** [Math.min(...xs)]: the fold starts from [+Infinity]. *)
Definition Math_min_list (xs : list float) : float :=
  fold_left Math_min xs infinity.

(** [a[i]] on a [Float32Array]: the element when [i] is an integer index
    in range, [undefined] otherwise (NaN, fractions, out of bounds). *)
Definition typed_get (a : list float) (i : float) : value :=
  match to_Z i with
  | Some z =>
      if (z <? 0)%Z then Undefined
      else match nth_error a (Z.to_nat z) with
           | Some x => Num x
           | None => Undefined
           end
  | None => Undefined
  end.

(** An integral number: not NaN, and flooring leaves it unchanged. *)
Definition integral (x : float) : Prop :=
  is_nan x = false /\ Math_floor x = x.

(** Not a negative number: zero of either sign, positive, or NaN. *)
Definition nonneg (x : float) : Prop := (x <? 0) = false.

(** A finite number other than zero. *)
Definition usable (x : float) : bool := is_finite x && negb (x =? 0).

(** A number that is neither NaN nor negative. *)
Definition ordinary (x : float) : Prop := (0 <=? x) = true.

(** [a <= b] holds. *)
Definition leq (a b : float) : Prop := (a <=? b) = true.

(** Outcome of a computation that contains counting loops. *)
Inductive run (A : Type) : Type :=
| Returns (a : A)
| Diverges.
Arguments Returns {A} a.
Arguments Diverges {A}.

(** The values a counter driven by [k++] takes: float additions of 1. *)
Fixpoint counters (k : float) (n : nat) : list float :=
  match n with
  | O => []
  | S n' => k :: counters (k + 1) n'
  end.

Fixpoint takeWhile {A : Type} (f : A -> bool) (l : list A) : list A :=
  match l with
  | [] => []
  | a :: l' => if f a then a :: takeWhile f l' else []
  end.

(** A counter stops advancing at 2^53 (2^53 + 1 rounds back to 2^53), so
    a counting loop whose bound lies beyond that never exits.  Below it,
    the number of integers that can pass the guard bounds the trip
    count. *)
Definition two53 : float := 9007199254740992.

Definition trips_lt (bound : float) : option nat :=
  if 0 <? bound then
    if two53 <? bound then None else Some (Z.to_nat (ceilZ bound))
  else Some O.

Definition trips_le (bound : float) : option nat :=
  if 1 <=? bound then
    if two53 <=? bound then None else Some (Z.to_nat (floorZ bound))
  else Some O.

(** The counter values of [for (k = 0; k < bound; k++)]: the counter is
    stepped while the guard holds; [None] when the loop never exits. *)
Definition for_lt (bound : float) : option (list float) :=
  option_map (fun n => takeWhile (fun k => k <? bound) (counters 0 n)) (trips_lt bound).

(** The counter values of [for (k = 1; k <= bound; k++)]. *)
Definition for_le (bound : float) : option (list float) :=
  option_map (fun n => takeWhile (fun k => k <=? bound) (counters 1 n)) (trips_le bound).

End JS.
Export JS.

(** ** Decoded binary64 values and the real numbers they denote *)

Module Rounding.

Local Open Scope R_scope.

(** Signs and classes of a decoded float. *)
Definition sf_neg (x : spec_float) : bool :=
  match x with S754_infinity true | S754_finite true _ _ => true | _ => false end.

Definition sf_pos (x : spec_float) : bool :=
  match x with S754_infinity false | S754_finite false _ _ => true | _ => false end.

Definition sf_finite (x : spec_float) : bool :=
  match x with S754_zero _ | S754_finite _ _ _ => true | _ => false end.

Definition sf_is_zero (x : spec_float) : bool :=
  match x with S754_zero _ => true | _ => false end.

(** Powers of two, as real numbers. *)
Definition bpow (e : Z) : R := powerRZ 2 e.

(** [x] lies in the unit interval that starts at [m], at the place [l] says. *)
Definition located (m : Z) (l : location) (x : R) : Prop :=
  match l with
  | loc_Exact => x = IZR m
  | loc_Inexact Lt => IZR m < x < IZR m + / 2
  | loc_Inexact Eq => x = IZR m + / 2
  | loc_Inexact Gt => IZR m + / 2 < x < IZR m + 1
  end.

(** A shift record locates [x]: its mantissa gives the unit interval, its
    round and sticky bits the place inside it. *)
Definition rec_ok (r : shr_record) (x : R) : Prop :=
  (0 <= shr_m r)%Z /\ located (shr_m r) (loc_of_shr_record r) x.

(** The exponent of the subnormal numbers. *)
Definition emin : Z := -1074.

(** The float that carries mantissa [r] at exponent [e]. *)
Definition pack (r e : Z) : spec_float :=
  match r with
  | Zpos p =>
      if (Zpos p <? 2 ^ 53)%Z then
        if (e <=? 971)%Z then S754_finite false p e else S754_infinity false
      else
        if (e + 1 <=? 971)%Z then S754_finite false 4503599627370496 (e + 1)
        else S754_infinity false
  | _ => S754_zero false
  end.

(** Ordinary values: zeros, positive finite numbers in canonical form, and
    [+Infinity]. *)
Definition sf_ord (x : spec_float) : bool :=
  match x with
  | S754_zero _ => true
  | S754_infinity s => negb s
  | S754_finite s m e => negb s && SpecFloat.bounded prec emax m e
  | S754_nan => false
  end.

(** Ordinary values other than [+Infinity]. *)
Definition sf_fin (x : spec_float) : bool :=
  match x with
  | S754_zero _ => true
  | S754_finite s m e => negb s && SpecFloat.bounded prec emax m e
  | _ => false
  end.

(** The real number an ordinary finite value denotes. *)
Definition SF2R (x : spec_float) : R :=
  match x with
  | S754_finite _ m e => IZR (Zpos m) * bpow e
  | _ => 0
  end.

(** A positive finite float whose value is the integer [z]. *)
Definition whole_sf (x : spec_float) (z : Z) : Prop :=
  exists m e, x = S754_finite false m e /\ IZR (Zpos m) * bpow e = IZR z.

(** The float [x] is the positive whole number [z]. *)
Definition whole (x : float) (z : Z) : Prop := whole_sf (Prim2SF x) z.

End Rounding.
Export Rounding.

(** ** Data model (src/types/index.ts and the GeoJSON types) *)

(** A GeoJSON position [[longitude, latitude]]. *)
Definition Position : Type := (float * float)%type.

(** A GeoJSON bounding box [[minX, minY, maxX, maxY]]. *)
Record BBox : Type := mkBBox { b0 : float; b1 : float; b2 : float; b3 : float }.

Record DemData : Type := mkDem {
  values : list float;            (* Float32Array, row-major *)
  width : float;
  height : float;
  bbox : BBox;
  wgs84Bbox : BBox;
  noDataValue : value;            (* number | null, or absent *)
  projConverter : option (Position -> Position)
}.

(** [Feature<LineString>]: the coordinates of the line. *)
Record LineFeature : Type := mkLine { line_coordinates : list Position }.

(** [Feature<Polygon>]: the outer ring [geometry.coordinates[0]] and the
    optional [bbox] member of the feature. *)
Record PolygonFeature : Type := mkPolygon {
  outer_ring : list Position;
  polygon_bbox : option BBox
}.

Inductive VolumeCalcMethod : Type :=
| lowestPoint
| averagePerimeter
| bestFit
| fixedElevationMethod.

Record VolumeOptions : Type := mkOptions {
  method : VolumeCalcMethod;
  fixedElevation : option float;
  gridSize : option float
}.

(** The object held by [basePlane]: [{ elevation }] or [{ a, b, c }]. *)
Inductive BasePlane : Type :=
| Flat (elevation : float)
| Tilted (a b c : float).

Record VolumeResult : Type := mkVolume {
  cut : float;
  fill : float;
  net : float;
  basePlane : BasePlane;
  result_method : VolumeCalcMethod
}.

Record ProfileSample : Type := mkSample { distance : float; elevation : value }.

(** [a.push(x)] *)
Definition push {A : Type} (l : list A) (x : A) : list A := l ++ [x].

(** The pairs [(a[i], a[i+1])] for [i] from 0 to [a.length - 2]. *)
Fixpoint consecutive {A : Type} (l : list A) : list (A * A) :=
  match l with
  | a :: (b :: _) as rest => (a, b) :: consecutive rest
  | _ => []
  end.

(** ** DEM sampler *)

Definition getElevationFromDem (lon lat : float) (dem : DemData) : value :=
  let wb := wgs84Bbox dem in
  if (lon <? b0 wb) || gtb lon (b2 wb) || (lat <? b1 wb) || gtb lat (b3 wb) then Null
  else
    let projCoords :=
      match projConverter dem with
      | Some conv => conv (lon, lat)
      | None => (lon, lat)
      end in
    let '(projX, projY) := projCoords in
    let '(mkBBox minX minY maxX maxY) := bbox dem in
    if (projX <? minX) || gtb projX maxX || (projY <? minY) || gtb projY maxY then Null
    else
      let xPercent := (projX - minX) / (maxX - minX) in
      let yPercent := (maxY - projY) / (maxY - minY) in
      let px := Math_floor (xPercent * width dem) in
      let py := Math_floor (yPercent * height dem) in
      if (px <? 0) || geb px (width dem) || (py <? 0) || geb py (height dem) then Null
      else
        let index := py * width dem + px in
        let elevation := typed_get (values dem) index in
        if strict_eq elevation (noDataValue dem) then Null
        else elevation.

(** The raster cell a query resolves to: the index the sampler reads when
    the query survives the two bounding-box tests and the index test. *)
Definition resolvedIndex (lon lat : float) (dem : DemData) : option float :=
  let wb := wgs84Bbox dem in
  if (lon <? b0 wb) || gtb lon (b2 wb) || (lat <? b1 wb) || gtb lat (b3 wb) then None
  else
    let '(projX, projY) :=
      match projConverter dem with
      | Some conv => conv (lon, lat)
      | None => (lon, lat)
      end in
    let '(mkBBox minX minY maxX maxY) := bbox dem in
    if (projX <? minX) || gtb projX maxX || (projY <? minY) || gtb projY maxY then None
    else
      let px := Math_floor ((projX - minX) / (maxX - minX) * width dem) in
      let py := Math_floor ((maxY - projY) / (maxY - minY) * height dem) in
      if (px <? 0) || geb px (width dem) || (py <? 0) || geb py (height dem) then None
      else Some (py * width dem + px).

(** The projected coordinates of a query, and the two bounding-box tests. *)
Definition projected (lon lat : float) (dem : DemData) : Position :=
  match projConverter dem with
  | Some conv => conv (lon, lat)
  | None => (lon, lat)
  end.

Definition insideWgs84Bbox (lon lat : float) (dem : DemData) : bool :=
  let wb := wgs84Bbox dem in
  negb ((lon <? b0 wb) || gtb lon (b2 wb) || (lat <? b1 wb) || gtb lat (b3 wb)).

Definition insideBbox (p : Position) (dem : DemData) : bool :=
  let '(mkBBox minX minY maxX maxY) := bbox dem in
  negb ((fst p <? minX) || gtb (fst p) maxX || (snd p <? minY) || gtb (snd p) maxY).

(** A ring vertex or sample point whose elevation the DEM resolves. *)
Definition resolvable (dem : DemData) (c : Position) : bool :=
  not_null (getElevationFromDem (fst c) (snd c) dem).

(** ** Host mathematics

    ECMAScript leaves the results of [Math.sin], [Math.cos] and
    [Math.atan2] to the implementation, up to a few mandated values. *)

Class MathLib : Type := {
  Math_sin : float -> float;
  Math_cos : float -> float;
  Math_atan2 : float -> float -> float
}.

(** [Math.atan2(y, x)] is negative only below the x-axis: for negative
    [y], or for [y = -0] with [x] negative or [-0] (ECMAScript 21.3.2.8). *)
Definition atan2_sign_law (M : MathLib) : Prop :=
  forall y x,
    (Math_atan2 y x <? 0) = true ->
    (y <? 0) = true
    \/ (is_neg_zero y = true /\ ((x <? 0) = true \/ is_neg_zero x = true)).

(** [Math.sin] is an odd function (true of the fdlibm-style
    implementations, which reduce the argument by its magnitude). *)
Definition sin_odd_law (M : MathLib) : Prop :=
  forall x, Math_sin (- x) = - Math_sin x.

Section Engine.

Context {M : MathLib}.

(** *** GeodesicMath *)

Definition haversineDistance (coords1 coords2 : Position) : float :=
  let R := 6371 in
  let dLat := ((snd coords2 - snd coords1) * Math_PI) / 180 in
  let dLon := ((fst coords2 - fst coords1) * Math_PI) / 180 in
  let lat1 := (snd coords1 * Math_PI) / 180 in
  let lat2 := (snd coords2 * Math_PI) / 180 in
  let a :=
    Math_sin (dLat / 2) * Math_sin (dLat / 2) +
    Math_sin (dLon / 2) * Math_sin (dLon / 2) * Math_cos lat1 * Math_cos lat2 in
  let c := 2 * Math_atan2 (Math_sqrt a) (Math_sqrt (1 - a)) in
  R * c.

(** The two summands of [a] in [haversineDistance]. *)
Definition latTerm (coords1 coords2 : Position) : float :=
  let dLat := ((snd coords2 - snd coords1) * Math_PI) / 180 in
  Math_sin (dLat / 2) * Math_sin (dLat / 2).

Definition lonTerm (coords1 coords2 : Position) : float :=
  let dLon := ((fst coords2 - fst coords1) * Math_PI) / 180 in
  let lat1 := (snd coords1 * Math_PI) / 180 in
  let lat2 := (snd coords2 * Math_PI) / 180 in
  Math_sin (dLon / 2) * Math_sin (dLon / 2) * Math_cos lat1 * Math_cos lat2.

Definition calculateLineDistance (coordinates : list Position) : float :=
  fold_left (fun totalDistance seg => totalDistance + haversineDistance (fst seg) (snd seg))
            (consecutive coordinates) 0.

(** The wrap-around pairs [(a[i], a[(i+1) % a.length])]. *)
Definition ringEdges {A : Type} (coordinates : list A) : list (A * A) :=
  match coordinates with
  | [] => []
  | first :: _ => consecutive (coordinates ++ [first])
  end.

Definition calculatePolygonArea (coordinates : list Position) : float :=
  if (length coordinates <? 3)%nat then 0
  else
    let R2 := 6371e3 * 6371e3 in
    let area :=
      fold_left
        (fun area edge =>
           let '(p1, p2) := edge in
           let p1_rad := (fst p1 * Math_PI / 180, snd p1 * Math_PI / 180) in
           let p2_rad := (fst p2 * Math_PI / 180, snd p2 * Math_PI / 180) in
           area + (fst p2_rad - fst p1_rad)
                  * (2 + Math_sin (snd p1_rad) + Math_sin (snd p2_rad)))
        (ringEdges coordinates) 0 in
    Math_abs (area * R2 / 2.0).

(** *** ProfileExtractor *)

(** One pass of the inner loop body at counter value [j]. *)
Definition sampleSegment (dem : DemData) (startPoint endPoint : Position)
           (segmentDist accumulatedDist numSegmentSamples : float)
           (profile : list ProfileSample) (j : float) : list ProfileSample :=
  let t := j / numSegmentSamples in
  let lon := fst startPoint + (fst endPoint - fst startPoint) * t in
  let lat := snd startPoint + (snd endPoint - snd startPoint) * t in
  let sampleDist := accumulatedDist + segmentDist * t in
  let elev := getElevationFromDem lon lat dem in
  if not_null elev then push profile (mkSample (sampleDist * 1000) elev)
  else profile.

(** The outer loop over the segments, threading [accumulatedDist] and
    [profile]. *)
Fixpoint walkSegments (dem : DemData) (samples totalDistanceKm : float)
         (segs : list (Position * Position)) (accumulatedDist : float)
         (profile : list ProfileSample) : run (list ProfileSample) :=
  match segs with
  | [] => Returns profile
  | (startPoint, endPoint) :: rest =>
      let segmentDist := haversineDistance startPoint endPoint in
      let numSegmentSamples :=
        Math_max 2 (Math_ceil (samples * (segmentDist / totalDistanceKm))) in
      match for_le numSegmentSamples with
      | None => Diverges
      | Some js =>
          let profile' :=
            fold_left (sampleSegment dem startPoint endPoint segmentDist
                                     accumulatedDist numSegmentSamples)
                      js profile in
          walkSegments dem samples totalDistanceKm rest
                       (accumulatedDist + segmentDist) profile'
      end
  end.

(** Everything [getProfileFromDem] pushes onto [profile] when the line
    is not degenerate. *)
Definition collectProfile (coords : list Position) (dem : DemData) (samples : float)
  : run (list ProfileSample) :=
  match coords with
  | [] => Returns []
  | first :: _ =>
      let totalDistanceKm := calculateLineDistance coords in
      let startElev := getElevationFromDem (fst first) (snd first) dem in
      let profile := if not_null startElev then [mkSample 0 startElev] else [] in
      walkSegments dem samples totalDistanceKm (consecutive coords) 0 profile
  end.

Definition getProfileFromDem (line : LineFeature) (dem : DemData) (samples : float)
  : run (option (list ProfileSample)) :=
  let coords := line_coordinates line in
  let totalDistanceKm := calculateLineDistance coords in
  if totalDistanceKm =? 0 then Returns None
  else
    match collectProfile coords dem samples with
    | Diverges => Diverges
    | Returns profile =>
        Returns (if (1 <? length profile)%nat then Some profile else None)
    end.

(** The number of samples allotted to a segment. *)
Definition segmentSamples (samples totalDistanceKm : float)
           (seg : Position * Position) : float :=
  Math_max 2 (Math_ceil (samples * (haversineDistance (fst seg) (snd seg)
                                    / totalDistanceKm))).

(** No segment of the line is allotted 2^53 samples or more, the point
    beyond which the sample counter stops advancing. *)
Definition budgeted (coords : list Position) (samples : float) : Prop :=
  Forall (fun seg =>
            (two53 <=? segmentSamples samples (calculateLineDistance coords) seg) = false)
         (consecutive coords).

(** A sample that carries an elevation. *)
Definition validSample (s : ProfileSample) : Prop := not_null (elevation s) = true.

(** The default sample budget, [samples = 100]. *)
Definition defaultSamples : float := 100.

(** No sample is nearer than the one before it. *)
Fixpoint nondecreasing (l : list ProfileSample) : bool :=
  match l with
  | s :: rest =>
      match rest with
      | s' :: _ => (distance s <=? distance s') && nondecreasing rest
      | [] => true
      end
  | [] => true
  end.

(** Every distance in the profile is an ordinary number at most [hi]. *)
Definition bounded_by (hi : float) (profile : list ProfileSample) : Prop :=
  Forall (fun s => ordinary (distance s) /\ (distance s <=? hi) = true) profile.

(** The distance recorded at counter value [j] of a segment. *)
Definition sampleDistance (accumulatedDist segmentDist numSegmentSamples j : float) : float :=
  (accumulatedDist + segmentDist * (j / numSegmentSamples)) * 1000.

(** A segment whose length came out as a finite number. *)
Definition measurable (seg : Position * Position) : Prop :=
  is_finite (haversineDistance (fst seg) (snd seg)) = true.

(** The point sampled by the last pass over a segment, where [t] is 1. *)
Definition endSample (seg : Position * Position) : Position :=
  (fst (fst seg) + (fst (snd seg) - fst (fst seg)) * 1,
   snd (fst seg) + (snd (snd seg) - snd (fst seg)) * 1).

(** *** VolumeEngine *)

Definition polygonEdges (vs : list Position) : list (Position * Position) :=
  match vs with
  | [] => []
  | _ => combine vs (last vs (0, 0) :: vs)
  end.

(** Even-odd ray casting; each edge is [(vs[i], vs[j])] with [j] the
    index visited just before [i] (the last one for [i = 0]). *)
Definition isPointInPolygon (point : Position) (vs : list Position) : bool :=
  let x := fst point in
  let y := snd point in
  fold_left
    (fun inside edge =>
       let '((xi, yi), (xj, yj)) := edge in
       let intersect :=
         negb (Bool.eqb (gtb yi y) (gtb yj y))
         && (x <? (xj - xi) * (y - yi) / (yj - yi) + xi) in
       if intersect then negb inside else inside)
    (polygonEdges vs) false.

Record Mat3 : Type := mkMat3 {
  A00 : float; A01 : float; A02 : float;
  A10 : float; A11 : float; A12 : float;
  A20 : float; A21 : float; A22 : float
}.

Definition solve3x3 (A : Mat3) (b : float * float * float)
  : option (float * float * float) :=
  let '(mkMat3 a00 a01 a02 a10 a11 a12 a20 a21 a22) := A in
  let '(r0, r1, r2) := b in
  let detA := a00 * (a11 * a22 - a21 * a12)
              - a01 * (a10 * a22 - a12 * a20)
              + a02 * (a10 * a21 - a11 * a20) in
  if Math_abs detA <? 1e-9 then None
  else
    let invDetA := 1.0 / detA in
    let adj00 := a11 * a22 - a21 * a12 in
    let adj01 := - (a01 * a22 - a02 * a21) in
    let adj02 := a01 * a12 - a02 * a11 in
    let adj10 := - (a10 * a22 - a12 * a20) in
    let adj11 := a00 * a22 - a02 * a20 in
    let adj12 := - (a00 * a12 - a10 * a02) in
    let adj20 := a10 * a21 - a20 * a11 in
    let adj21 := - (a00 * a21 - a20 * a01) in
    let adj22 := a00 * a11 - a10 * a01 in
    Some (invDetA * (adj00 * r0 + adj01 * r1 + adj02 * r2),
          invDetA * (adj10 * r0 + adj11 * r1 + adj12 * r2),
          invDetA * (adj20 * r0 + adj21 * r1 + adj22 * r2)).

(** Computations that query the DEM: a writer that logs, in order, the
    coordinates of every call to [getElevationFromDem]. *)
Definition Sampling (A : Type) : Type := (list Position * A)%type.

Definition ret {A : Type} (a : A) : Sampling A := ([], a).

Definition bind {A B : Type} (m : Sampling A) (f : A -> Sampling B) : Sampling B :=
  let '(log1, a) := m in
  let '(log2, b) := f a in
  (log1 ++ log2, b).

Definition sampleDem (lon lat : float) (dem : DemData) : Sampling value :=
  ([(lon, lat)], getElevationFromDem lon lat dem).

Fixpoint mapS {A B : Type} (f : A -> Sampling B) (l : list A) : Sampling (list B) :=
  match l with
  | [] => ret []
  | a :: l' => bind (f a) (fun b => bind (mapS f l') (fun bs => ret (b :: bs)))
  end.

Fixpoint foldS {A S : Type} (f : S -> A -> Sampling S) (l : list A) (s : S) : Sampling S :=
  match l with
  | [] => ret s
  | a :: l' => bind (f s a) (fun s' => foldS f l' s')
  end.

Record PerimeterPoint : Type := mkPerimeter {
  wgs : Position;
  proj : Position;
  pelevation : value
}.

Definition samplePerimeter (dem : DemData) (coord : Position) : Sampling PerimeterPoint :=
  let proj :=
    match projConverter dem with
    | Some conv => conv coord
    | None => coord
    end in
  bind (sampleDem (fst coord) (snd coord) dem)
       (fun elevation => ret (mkPerimeter coord proj elevation)).

(** [polyCoordsWgs.map(...).filter(p => p.elevation !== null)] *)
Definition perimeterPoints (polyCoordsWgs : list Position) (dem : DemData)
  : Sampling (list PerimeterPoint) :=
  bind (mapS (samplePerimeter dem) polyCoordsWgs)
       (fun pts => ret (filter (fun p => not_null (pelevation p)) pts)).

Record Sums : Type := mkSums {
  sumX : float; sumY : float; sumZ : float; sumXY : float;
  sumX2 : float; sumY2 : float; sumXZ : float; sumYZ : float
}.

Definition accumulateSums (s : Sums) (p : PerimeterPoint) : Sums :=
  let '(x, y) := proj p in
  let z := ToNumber (pelevation p) in
  mkSums (sumX s + x) (sumY s + y) (sumZ s + z)
         (sumXY s + x * y) (sumX2 s + x * x) (sumY2 s + y * y)
         (sumXZ s + x * z) (sumYZ s + y * z).

(** The [if / else if] chain that assigns [basePlane]; [None] is the
    initial [null] left in place. *)
Definition fitBasePlane (method : VolumeCalcMethod) (fixedElevation : option float)
           (pts : list PerimeterPoint) : option BasePlane :=
  match method with
  | lowestPoint =>
      let minElev := Math_min_list (map (fun p => ToNumber (pelevation p)) pts) in
      Some (Flat minElev)
  | averagePerimeter =>
      let avgElev :=
        fold_left (fun sum p => sum + ToNumber (pelevation p)) pts 0
        / of_Z (Z.of_nat (length pts)) in
      Some (Flat avgElev)
  | fixedElevationMethod =>
      match fixedElevation with
      | Some e => Some (Flat e)
      | None => None
      end
  | bestFit =>
      let n := of_Z (Z.of_nat (length pts)) in
      let s := fold_left accumulateSums pts (mkSums 0 0 0 0 0 0 0 0) in
      let A := mkMat3 (sumX2 s) (sumXY s) (sumX s)
                      (sumXY s) (sumY2 s) (sumY s)
                      (sumX s) (sumY s) n in
      let b := (sumXZ s, sumYZ s, sumZ s) in
      match solve3x3 A b with
      | Some (pa, pb, pc) => Some (Tilted pa pb pc)
      | None => None
      end
  end.

(** The geometry of the sampling lattice, derived once from the
    bounding box. *)
Record Lattice : Type := mkLattice {
  minLon : float; minLat : float;
  lonStep : float; latStep : float;
  bboxMinProjX : float; bboxMinProjY : float;
  projXStep : float; projYStep : float;
  cellArea : float
}.

Definition lattice (polygon : PolygonFeature) (dem : DemData) (gridSize : float)
  : Lattice :=
  let '(mkBBox minLon minLat maxLon maxLat) :=
    match polygon_bbox polygon with
    | Some b => b
    | None => mkBBox infinity infinity neg_infinity neg_infinity
    end in
  let '(bboxMinProjX, bboxMinProjY) :=
    match projConverter dem with
    | Some conv => conv (minLon, minLat)
    | None => (minLon, minLat)
    end in
  let '(bboxMaxProjX, bboxMaxProjY) :=
    match projConverter dem with
    | Some conv => conv (maxLon, maxLat)
    | None => (maxLon, maxLat)
    end in
  let lonStep := (maxLon - minLon) / gridSize in
  let latStep := (maxLat - minLat) / gridSize in
  let projXStep := (bboxMaxProjX - bboxMinProjX) / gridSize in
  let projYStep := (bboxMaxProjY - bboxMinProjY) / gridSize in
  let centerLat := minLat + (maxLat - minLat) / 2 in
  let cellWidthMeters :=
    haversineDistance (minLon, centerLat) (minLon + lonStep, centerLat) * 1000 in
  let cellHeightMeters :=
    haversineDistance (minLon, minLat) (minLon, minLat + latStep) * 1000 in
  let cellArea := cellWidthMeters * cellHeightMeters in
  mkLattice minLon minLat lonStep latStep bboxMinProjX bboxMinProjY
            projXStep projYStep cellArea.

(** The body of the inner loop at cell [(i, j)], acting on
    [(cutVolume, fillVolume)]. *)
Definition gridCell (polyCoordsWgs : list Position) (dem : DemData)
           (basePlane : BasePlane) (g : Lattice) (i : float)
           (vol : float * float) (j : float) : Sampling (float * float) :=
  let '(cutVolume, fillVolume) := vol in
  let lon := minLon g + lonStep g * (i + 0.5) in
  let lat := minLat g + latStep g * (j + 0.5) in
  if isPointInPolygon (lon, lat) polyCoordsWgs then
    bind (sampleDem lon lat dem)
         (fun demElevation =>
            if not_null demElevation then
              let projX := bboxMinProjX g + projXStep g * (i + 0.5) in
              let projY := bboxMinProjY g + projYStep g * (j + 0.5) in
              let baseElevation :=
                match basePlane with
                | Flat elevation => elevation
                | Tilted a b c => a * projX + b * projY + c
                end in
              let delta := ToNumber demElevation - baseElevation in
              if gtb delta 0 then ret (cutVolume, fillVolume + delta * cellArea g)
              else ret (cutVolume + (- delta) * cellArea g, fillVolume)
            else ret vol)
  else ret vol.

Definition gridRow (polyCoordsWgs : list Position) (dem : DemData)
           (basePlane : BasePlane) (g : Lattice) (js : list float)
           (vol : float * float) (i : float) : Sampling (float * float) :=
  foldS (gridCell polyCoordsWgs dem basePlane g i) js vol.

Definition integrateGrid (polyCoordsWgs : list Position) (dem : DemData)
           (basePlane : BasePlane) (g : Lattice) (ks : list float)
  : Sampling (float * float) :=
  foldS (gridRow polyCoordsWgs dem basePlane g ks) ks (0, 0).

Definition getVolumeFromDem (polygon : PolygonFeature) (dem : DemData)
           (options : VolumeOptions) : Sampling (run (option VolumeResult)) :=
  let gridSize := match gridSize options with Some g => g | None => 50 end in
  let polyCoordsWgs := outer_ring polygon in
  bind (perimeterPoints polyCoordsWgs dem)
       (fun pts =>
          if (length pts <? 3)%nat then ret (Returns None)
          else
            match fitBasePlane (method options) (fixedElevation options) pts with
            | None => ret (Returns None)
            | Some basePlane =>
                let g := lattice polygon dem gridSize in
                match for_lt gridSize with
                | None => ret Diverges
                | Some ks =>
                    bind (integrateGrid polyCoordsWgs dem basePlane g ks)
                         (fun vol =>
                            let '(cutVolume, fillVolume) := vol in
                            ret (Returns (Some
                                   (mkVolume cutVolume fillVolume
                                             (fillVolume - cutVolume)
                                             basePlane (method options)))))
                end
            end).

(** What the caller receives, and the DEM queries made on the way. *)
Definition volumeResult (polygon : PolygonFeature) (dem : DemData)
           (options : VolumeOptions) : run (option VolumeResult) :=
  snd (getVolumeFromDem polygon dem options).

Definition volumeQueries (polygon : PolygonFeature) (dem : DemData)
           (options : VolumeOptions) : list Position :=
  fst (getVolumeFromDem polygon dem options).

(** Neither accumulator is negative. *)
Definition volumes_nonneg (vol : float * float) : Prop :=
  nonneg (fst vol) /\ nonneg (snd vol).

End Engine.

(** ** The profile extractor as the specification words it

    The samples [extractProfile] attempts, written out as a list: the
    start vertex, then for each segment one sample per fraction. The
    profile is what the sampler answers at them, without the samples that
    do not resolve. *)

Section ProfileSpec.

Context {M : MathLib}.

(** The sample fractions [t] of a segment that is allotted [n] samples:
    [j / n] for [j] from 1 to [n]. *)
Definition fractions (n : float) : list float :=
  map (fun j => of_Z (Z.of_nat j) / n) (seq 1 (Z.to_nat (floorZ n))).

(** The point of a segment at fraction [t], by linear interpolation of
    longitude and latitude. *)
Definition interpolate (seg : Position * Position) (t : float) : Position :=
  (fst (fst seg) + (fst (snd seg) - fst (fst seg)) * t,
   snd (fst seg) + (snd (snd seg) - snd (fst seg)) * t).

(** The samples attempted along the segments, in path order: for each
    one its distance in metres and its point. *)
Fixpoint segmentAttempts (samples totalLength : float)
         (segs : list (Position * Position)) (accumulated : float)
  : list (float * Position) :=
  match segs with
  | [] => []
  | seg :: rest =>
      let segmentLength := haversineDistance (fst seg) (snd seg) in
      map (fun t => ((accumulated + segmentLength * t) * 1000, interpolate seg t))
          (fractions (segmentSamples samples totalLength seg))
      ++ segmentAttempts samples totalLength rest (accumulated + segmentLength)
  end.

(** Every sample attempted on a line: the start vertex at distance 0,
    then the samples of the segments. *)
Definition attempts (coords : list Position) (samples : float) : list (float * Position) :=
  match coords with
  | [] => []
  | first :: _ =>
      (0, first)
      :: segmentAttempts samples (calculateLineDistance coords) (consecutive coords) 0
  end.

(** What the sampler answers at the attempted samples. *)
Definition answers (dem : DemData) (l : list (float * Position)) : list ProfileSample :=
  map (fun a => mkSample (fst a) (getElevationFromDem (fst (snd a)) (snd (snd a)) dem)) l.

(** The valid samples: the attempts whose elevation resolves. *)
Definition validSamples (coords : list Position) (dem : DemData) (samples : float)
  : list ProfileSample :=
  filter (fun s => not_null (elevation s)) (answers dem (attempts coords samples)).

(** [extractProfile] as the specification words it. *)
Definition extractProfile (line : LineFeature) (dem : DemData) (samples : float)
  : option (list ProfileSample) :=
  let coords := line_coordinates line in
  if calculateLineDistance coords =? 0 then None
  else
    let valid := validSamples coords dem samples in
    if (length valid <? 2)%nat then None else Some valid.

End ProfileSpec.

(** ** The geodesic helpers in exact arithmetic

    [haversineDistance] and [calculatePolygonArea] once more, the same
    expressions evaluated over the real numbers, with the mathematical
    sine, cosine and square root: what the two functions compute when no
    operation rounds. *)

Module Exact.

Local Open Scope R_scope.

Section Functions.

(** [Math.atan2] as a function on the reals. *)
Variable atan2 : R -> R -> R.

Definition haversineDistance (coords1 coords2 : R * R) : R :=
  let R := 6371 in
  let dLat := ((snd coords2 - snd coords1) * PI) / 180 in
  let dLon := ((fst coords2 - fst coords1) * PI) / 180 in
  let lat1 := (snd coords1 * PI) / 180 in
  let lat2 := (snd coords2 * PI) / 180 in
  let a :=
    sin (dLat / 2) * sin (dLat / 2) +
    sin (dLon / 2) * sin (dLon / 2) * cos lat1 * cos lat2 in
  let c := 2 * atan2 (R_sqrt.sqrt a) (R_sqrt.sqrt (1 - a)) in
  R * c.

End Functions.

Definition calculatePolygonArea (coordinates : list (R * R)) : R :=
  if (length coordinates <? 3)%nat then 0
  else
    let R2 := 6371e3 * 6371e3 in
    let area :=
      fold_left
        (fun area edge =>
           let '(p1, p2) := edge in
           let p1_rad := (fst p1 * PI / 180, snd p1 * PI / 180) in
           let p2_rad := (fst p2 * PI / 180, snd p2 * PI / 180) in
           area + (fst p2_rad - fst p1_rad)
                  * (2 + sin (snd p1_rad) + sin (snd p2_rad)))
        (ringEdges coordinates) 0 in
    Rabs (area * R2 / 2.0).

(** What one edge adds to the sum. *)
Definition edgeTerm (edge : (R * R) * (R * R)) : R :=
  let '(p1, p2) := edge in
  (fst p2 * PI / 180 - fst p1 * PI / 180)
  * (2 + sin (snd p1 * PI / 180) + sin (snd p2 * PI / 180)).

(** The sum along a list of edges. *)
Definition pathSum (edges : list ((R * R) * (R * R))) (start : R) : R :=
  fold_left (fun area edge => area + edgeTerm edge) edges start.

End Exact.

(** ** A reference host library

    A conforming [MathLib]: argument reduction and truncated power series,
    accurate to a few units in the last place, with the values ECMAScript
    mandates at zeros, infinities and NaN.  It is used to run the engine
    on concrete inputs. *)

Module RefMath.

Definition pi : float := Math_PI.
Definition halfPi : float := pi / 2.
Definition twoPi : float := 2 * pi.

(** [1 - r2/d1 * (1 - r2/d2 * (...))] *)
Definition nested (ds : list float) (r2 : float) : float :=
  fold_right (fun d acc => 1 - r2 / d * acc) 1 ds.

Definition sinDen : list float :=
  [6; 20; 42; 72; 110; 156; 210; 272; 342; 420; 506; 600].
Definition cosDen : list float :=
  [2; 12; 30; 56; 90; 132; 182; 240; 306; 380; 462; 552].

(** Reduction of a finite argument to the interval from [-pi] to [pi]. *)
Definition reduce (x : float) : float :=
  x - Math_floor (x / twoPi + 0.5) * twoPi.

Definition sinCore (r : float) : float := r * nested sinDen (r * r).
Definition cosCore (r : float) : float := nested cosDen (r * r).

Definition sinNonneg (x : float) : float :=
  let r := reduce x in
  if halfPi <? r then sinCore (pi - r)
  else if r <? - halfPi then - sinCore (pi + r)
  else sinCore r.

Definition sin (x : float) : float :=
  if is_nan x || is_infinity x then nan
  else if x =? 0 then x
  else if x <? 0 then - sinNonneg (- x) else sinNonneg x.

Definition cos (x : float) : float :=
  if is_nan x || is_infinity x then nan
  else
    let r := reduce (abs x) in
    if halfPi <? r then - cosCore (pi - r)
    else if r <? - halfPi then - cosCore (pi + r)
    else cosCore r.

Definition atanDen : list float :=
  [3; 5; 7; 9; 11; 13; 15; 17; 19; 21; 23; 25; 27].

(** [z (1 - z^2/3 + z^4/5 - ...)], for small [z]. *)
Definition atanSeries (z : float) : float :=
  let z2 := z * z in
  z * fold_right (fun d acc => 1 / d - z2 * acc) 0 (1 :: atanDen).

(** Angle halving: [atan z = 2 atan (z / (1 + sqrt (1 + z^2)))]. *)
Definition halve (z : float) : float := z / (1 + sqrt (1 + z * z)).
Definition atanUnit (z : float) : float := 4 * atanSeries (halve (halve z)).
Definition atanNonneg (z : float) : float :=
  if 1 <? z then halfPi - atanUnit (1 / z) else atanUnit z.

Definition negative (x : float) : bool := (x <? 0) || is_neg_zero x.

(** [atan2 |y| x], between [+0] and [pi]. *)
Definition atan2Magnitude (y x : float) : float :=
  if y =? 0 then (if negative x then pi else 0)
  else if x =? 0 then halfPi
  else if is_infinity y then
    (if is_infinity x then (if x <? 0 then 3 * pi / 4 else pi / 4) else halfPi)
  else if is_infinity x then (if x <? 0 then pi else 0)
  else
    let q := atanNonneg (y / abs x) in
    if x <? 0 then pi - q else q.

Definition atan2 (y x : float) : float :=
  if is_nan y || is_nan x then nan
  else
    let mag := abs (atan2Magnitude (abs y) x) in
    if negative y then - mag else mag.

Definition lib : MathLib :=
  {| Math_sin := sin; Math_cos := cos; Math_atan2 := atan2 |}.

End RefMath.

(** ** Concrete inputs *)

Module Scenario.

(** The flat 10 x 10 raster of the specification: every cell 50.0 over
    the unit square, geographic coordinates, no-data -9999. *)
Definition flatDem : DemData :=
  mkDem (repeat 50 100) 10 10 (mkBBox 0 0 1 1) (mkBBox 0 0 1 1) (Num (-9999)) None.

Definition squareRing : list Position :=
  [(0.2, 0.2); (0.8, 0.2); (0.8, 0.8); (0.2, 0.8); (0.2, 0.2)].

(** The square drawn on the map, with the [bbox] the drawing layer
    attaches ([turf.bbox]). *)
Definition square : PolygonFeature :=
  mkPolygon squareRing (Some (mkBBox 0.2 0.2 0.8 0.8)).

(** The same square as a feature that carries no [bbox]. *)
Definition squareNoBbox : PolygonFeature := mkPolygon squareRing None.

(** A mound: 55.0 in the interior cells, 50.0 under the perimeter. *)
Definition moundValues : list float :=
  flat_map (fun r => map (fun c =>
              if (Nat.leb 3 r && Nat.leb r 6 && Nat.leb 3 c && Nat.leb c 6)%bool
              then 55 else 50) (seq 0 10)) (seq 0 10).

Definition moundDem : DemData :=
  mkDem moundValues 10 10 (mkBBox 0 0 1 1) (mkBBox 0 0 1 1) (Num (-9999)) None.

Definition options (m : VolumeCalcMethod) (e : option float) : VolumeOptions :=
  mkOptions m e None.

(** The mound raster with its interior cells unknown, in a file whose
    no-data value is NaN (GDAL writes [nan] for float rasters). *)
Definition pittedValues : list float :=
  map (fun v => if v =? 55 then nan else v) moundValues.

Definition pittedDem : DemData :=
  mkDem pittedValues 10 10 (mkBBox 0 0 1 1) (mkBBox 0 0 1 1) (Num nan) None.

(** A square that leaves the raster to the north-east: only its first
    vertex (repeated to close the ring) lies on the raster. *)
Definition offMapRing : list Position :=
  [(0.5, 0.5); (1.5, 0.5); (1.5, 1.5); (0.5, 1.5); (0.5, 0.5)].

Definition offMap : PolygonFeature :=
  mkPolygon offMapRing (Some (mkBBox 0.5 0.5 1.5 1.5)).

(** A line that starts on the flat raster and leaves it to the east,
    and a line with a corner that stays on it. *)
Definition leavingLine : LineFeature := mkLine [(0.5, 0.5); (1.5, 0.5)].
Definition cornerLine : LineFeature := mkLine [(0.3, 0.5); (0.5, 0.5); (0.5, 0.7)].

(** What the extractor returns for [cornerLine] over [flatDem] with a
    budget of 3 samples. *)
Definition cornerProfile : list ProfileSample :=
  [ mkSample 0 (Num 50);
    mkSample 11119.069267817355 (Num 50);
    mkSample 22238.138535634709 (Num 50);
    mkSample 33357.631200090582 (Num 50);
    mkSample 44477.123864546455 (Num 50) ].

(** Two coordinates in the southern hemisphere, and a triangle. *)
Definition pointA : Position := (-40, -30).
Definition pointB : Position := (40, -10).
Definition pointC : Position := (40, -30).

Definition triangle : list Position :=
  [(0.1, 0.1); (0.4, 0.2); (0.3, 0.5); (0.1, 0.1)].

(** A degenerate ring along the equator. *)
Definition equatorRing : list Position :=
  [(0.1, 0); (0.2, 0); (0.3, 0); (0.1, 0)].

(** A 2 x 2 raster over the unit square whose north-west cell holds the
    no-data value. *)
Definition holedDem : DemData :=
  mkDem [-9999; 12; 13; 14] 2 2 (mkBBox 0 0 1 1) (mkBBox 0 0 1 1) (Num (-9999)) None.

End Scenario.

(** ** Definitions for the further properties *)

(** The determinant [detA] that [solve3x3] computes first. *)
Definition det3 (A : Mat3) : float :=
  let '(mkMat3 a00 a01 a02 a10 a11 a12 a20 a21 a22) := A in
  a00 * (a11 * a22 - a21 * a12)
  - a01 * (a10 * a22 - a12 * a20)
  + a02 * (a10 * a21 - a11 * a20).

(** [solve3x3] over the real numbers: the same expressions, no rounding. *)
Module ExactAlgebra.

Local Open Scope R_scope.

Record Mat3 : Type := mkMat3 {
  A00 : R; A01 : R; A02 : R;
  A10 : R; A11 : R; A12 : R;
  A20 : R; A21 : R; A22 : R
}.

Definition solve3x3 (A : Mat3) (b : R * R * R) : option (R * R * R) :=
  let '(mkMat3 a00 a01 a02 a10 a11 a12 a20 a21 a22) := A in
  let '(r0, r1, r2) := b in
  let detA := a00 * (a11 * a22 - a21 * a12)
              - a01 * (a10 * a22 - a12 * a20)
              + a02 * (a10 * a21 - a11 * a20) in
  if Rlt_dec (Rabs detA) 1e-9 then None
  else
    let invDetA := 1.0 / detA in
    let adj00 := a11 * a22 - a21 * a12 in
    let adj01 := - (a01 * a22 - a02 * a21) in
    let adj02 := a01 * a12 - a02 * a11 in
    let adj10 := - (a10 * a22 - a12 * a20) in
    let adj11 := a00 * a22 - a02 * a20 in
    let adj12 := - (a00 * a12 - a10 * a02) in
    let adj20 := a10 * a21 - a20 * a11 in
    let adj21 := - (a00 * a21 - a20 * a01) in
    let adj22 := a00 * a11 - a10 * a01 in
    Some (invDetA * (adj00 * r0 + adj01 * r1 + adj02 * r2),
          invDetA * (adj10 * r0 + adj11 * r1 + adj12 * r2),
          invDetA * (adj20 * r0 + adj21 * r1 + adj22 * r2)).

End ExactAlgebra.

(** A sample taken from the DEM at some point. *)
Definition sampled (dem : DemData) (s : ProfileSample) : Prop :=
  exists lon lat, elevation s = getElevationFromDem lon lat dem.

(** An elevation that is null or a number other than NaN. *)
Definition plainElevation (v : value) : bool :=
  match v with
  | Num x => negb (is_nan x)
  | Null => true
  | Undefined => false
  end.

(** ** Bounding boxes of vector layers (src/lib/geo-utils.ts) *)

Module GeoUtils.

(** The [coordinates] member of a geometry, as [processCoordinates] sees
    it: a number, an array, or anything else (absent, a string, ...). *)
#[warnings="-register-all"] Inductive json : Type :=
| JNumber (x : float)
| JArray (items : list json)
| JOther.

(** The variables [calculateBbox] closes over. *)
Record BoxState : Type := mkBoxState {
  minX : float; minY : float; maxX : float; maxY : float;
  hasCoordinates : bool
}.

(** The branch taken at a coordinate pair. *)
Definition extend (st : BoxState) (p : Position) : BoxState :=
  mkBoxState (Math_min (minX st) (fst p)) (Math_min (minY st) (snd p))
             (Math_max (maxX st) (fst p)) (Math_max (maxY st) (snd p))
             true.

Fixpoint processCoordinates (st : BoxState) (coords : json) {struct coords} : BoxState :=
  match coords with
  | JArray items =>
      match items with
      | [] => st
      | JNumber c0 :: JNumber c1 :: _ => extend st (c0, c1)
      | _ => fold_left processCoordinates items st
      end
  | _ => st
  end.

(** A feature of the collection: [None] for a falsy entry, [Some None]
    for a feature without geometry. *)
Definition Feature : Type := option (option json).

Definition calculateBbox (features : list Feature) : option BBox :=
  let st :=
    fold_left
      (fun st feature =>
         match feature with
         | Some (Some coordinates) => processCoordinates st coordinates
         | _ => st
         end)
      features
      (mkBoxState infinity infinity neg_infinity neg_infinity false) in
  if hasCoordinates st then Some (mkBBox (minX st) (minY st) (maxX st) (maxY st))
  else None.

(** The coordinate pairs [processCoordinates] reaches, in the order it
    reaches them. *)
Fixpoint positions (coords : json) : list Position :=
  match coords with
  | JArray items =>
      match items with
      | JNumber c0 :: JNumber c1 :: _ => [(c0, c1)]
      | _ => flat_map positions items
      end
  | _ => []
  end.

Definition allPositions (features : list Feature) : list Position :=
  flat_map (fun feature =>
              match feature with
              | Some (Some coordinates) => positions coordinates
              | _ => []
              end) features.

End GeoUtils.

(** ** The callers of the volume engine
    (volume-analysis-dialog.tsx, layout.tsx) *)

(** What [handleCalculate] of the dialog does: alert and give up, or call
    [onCalculate(method, options)]. *)
Inductive DialogOutcome : Type :=
| Alerted
| Calculate (method : VolumeCalcMethod) (fixedElevation : option float).

(** What [handleCalculateVolume] of the layout does with the result. *)
Inductive VolumeOutcome : Type :=
| NoActiveDem
| VolumeFailed
| VolumeAnnotation (r : VolumeResult).

Section Callers.

Context {M : MathLib}.

(** [parseFloat], a function of the host. *)
Variable parseFloat : String.string -> float.

Definition handleCalculate (method : VolumeCalcMethod) (fixedElevation : String.string)
  : DialogOutcome :=
  match method with
  | fixedElevationMethod =>
      let elevation := parseFloat fixedElevation in
      if is_nan elevation then Alerted
      else Calculate method (Some elevation)
  | _ => Calculate method None
  end.

Definition handleCalculateVolume (pendingVolumeFeature : option PolygonFeature)
           (activeDem : option DemData) (method : VolumeCalcMethod)
           (fixedElevation : option float) : run VolumeOutcome :=
  match pendingVolumeFeature, activeDem with
  | Some feature, Some dem =>
      match volumeResult feature dem (mkOptions method fixedElevation None) with
      | Returns (Some volumeData) => Returns (VolumeAnnotation volumeData)
      | Returns None => Returns VolumeFailed
      | Diverges => Diverges
      end
  | _, _ => Returns NoActiveDem
  end.

(** Pressing "Calculate Volume" in the dialog. *)
Definition calculateFromDialog (feature : option PolygonFeature) (activeDem : option DemData)
           (method : VolumeCalcMethod) (input : String.string) : option (run VolumeOutcome) :=
  match handleCalculate method input with
  | Alerted => None
  | Calculate m options => Some (handleCalculateVolume feature activeDem m options)
  end.

End Callers.

(** ** Further inputs *)

Module Cases.

(** The identity matrix, over the reals. *)
Definition identity : ExactAlgebra.Mat3 :=
  ExactAlgebra.mkMat3 1 0 0 0 1 0 0 0 1.

(** A matrix with an entry that is not a number. *)
Definition brokenMatrix : Mat3 := mkMat3 nan 0 0 0 1 0 0 0 1.

(** A line of a single coordinate. *)
Definition dot : LineFeature := mkLine [(0.5, 0.5)].

(** The square ring without its closing vertex. *)
Definition openSquare : list Position :=
  [(0.2, 0.2); (0.8, 0.2); (0.8, 0.8); (0.2, 0.8)].

(** A collection of one polygon feature, the square, and one entry
    without geometry. *)
Definition squareCollection : list GeoUtils.Feature :=
  [ Some (Some (GeoUtils.JArray
                  [GeoUtils.JArray
                     (map (fun p => GeoUtils.JArray [GeoUtils.JNumber (fst p);
                                                     GeoUtils.JNumber (snd p)])
                          Scenario.squareRing)]));
    Some None ].

(** The text typed into the dialog, and a [parseFloat] that reads it
    (and every other input) as 60. *)
Definition typedSixty : String.string :=
  String.String (Ascii.ascii_of_nat 54) (String.String (Ascii.ascii_of_nat 48) String.EmptyString).

Definition parseSixty (input : String.string) : float := 60.

End Cases.

(** * Facts about binary64 arithmetic *)

Module FloatFacts.

Lemma SF_one : Prim2SF 1 = S754_finite false 4503599627370496 (-52).
Proof. reflexivity. Qed.

Lemma SF_zero : Prim2SF 0 = S754_zero false.
Proof. reflexivity. Qed.

Lemma SFcompare_refl x : x <> S754_nan -> SFcompare x x = Some Eq.
Proof.
  destruct x as [s|s| |s m e]; simpl; try congruence.
  - now destruct s.
  - intros _. rewrite Z.compare_refl, Pos.compare_cont_refl. now destruct s.
Qed.

Lemma is_nan_SF x : is_nan x = false -> Prim2SF x <> S754_nan.
Proof.
  unfold is_nan. rewrite eqb_spec. intros H E. rewrite E in H. discriminate.
Qed.

Lemma leb_refl x : is_nan x = false -> (x <=? x) = true.
Proof.
  intros H. rewrite leb_spec. unfold SFleb.
  now rewrite SFcompare_refl by now apply is_nan_SF.
Qed.

(** The shape of a usable number. *)
Lemma usable_SF x :
  usable x = true -> exists s m e, Prim2SF x = S754_finite s m e.
Proof.
  unfold usable, is_finite, is_nan, is_infinity.
  rewrite !eqb_spec, abs_spec.
  change (Prim2SF infinity) with (S754_infinity false).
  rewrite SF_zero.
  destruct (Prim2SF x) as [s|s| |s m e]; simpl; try discriminate.
  - now destruct s.
  - intros _. now exists s, m, e.
Qed.

Lemma div_eucl_shift m : Z.div_eucl (Z.shiftl (Zpos m) 53) (Zpos m) = (9007199254740992, 0)%Z.
Proof.
  rewrite Z.shiftl_mul_pow2 by lia.
  pose proof (Z.div_mul (2 ^ 53) (Zpos m) ltac:(lia)) as Hq.
  pose proof (Z.mod_mul (2 ^ 53) (Zpos m) ltac:(lia)) as Hr.
  rewrite Z.mul_comm in Hq, Hr. unfold Z.div, Z.modulo in Hq, Hr.
  destruct (Z.div_eucl (Zpos m * 2 ^ 53) (Zpos m)) as [q r].
  simpl in Hq, Hr. now subst.
Qed.

Lemma new_location_exact n : new_location n 0 = loc_Exact.
Proof.
  unfold new_location, new_location_even, new_location_odd.
  now destruct (Z.even n).
Qed.

(** A finite non-zero number divided by itself is exactly one. *)
Lemma div_self x : usable x = true -> x / x = 1.
Proof.
  intros H. destruct (usable_SF x H) as (s & m & e & E).
  apply Prim2SF_inj. rewrite div_spec, E, SF_one.
  unfold SF64div, SFdiv, SFdiv_core_binary.
  replace (Zdigits2 (Zpos m) + e - (Zdigits2 (Zpos m) + e))%Z with 0%Z by lia.
  replace (e - e)%Z with 0%Z by lia.
  change (Z.min (fexp prec emax 0) 0) with (-53)%Z.
  change (0 - -53)%Z with 53%Z. cbv iota.
  rewrite div_eucl_shift, new_location_exact, xorb_nilpotent.
  reflexivity.
Qed.

(** Multiplying by one is exact. *)
Lemma mul_one_l x : 1 * x = x.
Proof.
  apply Prim2SF_inj. rewrite mul_spec, SF_one.
  pose proof (Prim2SF_valid x) as V.
  destruct (Prim2SF x) as [s|s| |s m e]; try reflexivity.
  unfold SF64mul, SFmul. cbn [xorb].
  simpl in V. unfold bounded, canonical_mantissa in V.
  apply andb_prop in V. destruct V as [C B]. apply Z.eqb_eq in C.
  unfold binary_round_aux, shr_fexp.
  cbn [Pos.mul Zdigits2 digits2_pos].
  rewrite !Pos2Z.inj_succ.
  match goal with |- context [fexp prec emax ?a] =>
    replace a with (Zpos (digits2_pos m) + e)%Z by lia end.
  rewrite C.
  replace (e - (-52 + e))%Z with 52%Z by lia.
  cbn [shr shr_record_of_loc iter_pos shr_1 orb].
  cbn [shr_m loc_of_shr_record round_nearest_even Zdigits2].
  replace (-52 + e + 52)%Z with e by lia.
  rewrite C, Z.sub_diag. cbn [shr shr_m]. now rewrite B.
Qed.

Lemma ltb_zero_r x : (x <? 0) = sf_neg (Prim2SF x).
Proof.
  rewrite ltb_spec, SF_zero.
  destruct (Prim2SF x) as [s|s| |s m e]; try reflexivity; now destruct s.
Qed.

Lemma ltb_zero_l x : (0 <? x) = sf_pos (Prim2SF x).
Proof.
  rewrite ltb_spec, SF_zero.
  destruct (Prim2SF x) as [s|s| |s m e]; try reflexivity; now destruct s.
Qed.

(** Rounding keeps the sign it is given. *)
Lemma round_aux_sign s m e l :
  match binary_round_aux prec emax s m e l with
  | S754_zero s' | S754_infinity s' | S754_finite s' _ _ => s' = s
  | S754_nan => True
  end.
Proof.
  unfold binary_round_aux.
  destruct (shr_fexp prec emax m e l) as [mrs' e'].
  destruct (shr_fexp prec emax _ e' loc_Exact) as [mrs'' e''].
  destruct (shr_m mrs''); auto. now destruct (_ <=? _)%Z.
Qed.

Lemma round_aux_not_neg m e l : sf_neg (binary_round_aux prec emax false m e l) = false.
Proof.
  pose proof (round_aux_sign false m e l) as H.
  destruct (binary_round_aux prec emax false m e l); simpl; subst; auto.
Qed.

Lemma normalize_not_neg z e :
  (0 <= z)%Z -> sf_neg (binary_normalize prec emax z e false) = false.
Proof.
  destruct z as [|p|p]; try reflexivity; [|lia].
  intros _. unfold binary_normalize, binary_round.
  destruct (shl_align _ _ _) as [mz ez']. apply round_aux_not_neg.
Qed.

Lemma SFmul_not_neg x y :
  sf_neg x = false -> sf_neg y = false -> sf_neg (SFmul prec emax x y) = false.
Proof.
  destruct x as [sx|sx| |sx mx ex], y as [sy|sy| |sy my ey]; simpl; try reflexivity;
    try (destruct sx; try discriminate); try (destruct sy; try discriminate);
    try reflexivity; intros _ _; apply round_aux_not_neg.
Qed.

Lemma SFadd_not_neg x y :
  sf_neg x = false -> sf_neg y = false -> sf_neg (SFadd prec emax x y) = false.
Proof.
  destruct x as [sx|sx| |sx mx ex], y as [sy|sy| |sy my ey]; simpl; try reflexivity;
    try (destruct sx; try discriminate); try (destruct sy; try discriminate);
    try reflexivity.
  intros _ _. apply normalize_not_neg. simpl. lia.
Qed.

Lemma SFsqrt_not_neg x : sf_neg (SFsqrt prec emax x) = false.
Proof.
  destruct x as [s|s| |s m e]; simpl; try reflexivity; try now destruct s.
  destruct s; [reflexivity|].
  destruct (SFsqrt_core_binary prec emax (Zpos m) e) as [[mz ez] lz].
  apply round_aux_not_neg.
Qed.

Lemma SFsqrt_neg_zero x : SFsqrt prec emax x = S754_zero true -> x = S754_zero true.
Proof.
  destruct x as [s|s| |s m e]; simpl; try discriminate; try (now destruct s).
  destruct s; [discriminate|].
  destruct (SFsqrt_core_binary prec emax (Zpos m) e) as [[mz ez] lz].
  intros H. pose proof (round_aux_sign false mz ez lz) as S.
  rewrite H in S. discriminate.
Qed.

Lemma mul_nonneg x y : nonneg x -> nonneg y -> nonneg (x * y).
Proof. unfold nonneg. rewrite !ltb_zero_r, mul_spec. apply SFmul_not_neg. Qed.

Lemma add_nonneg x y : nonneg x -> nonneg y -> nonneg (x + y).
Proof. unfold nonneg. rewrite !ltb_zero_r, add_spec. apply SFadd_not_neg. Qed.

Lemma sqrt_nonneg x : nonneg (sqrt x).
Proof. unfold nonneg. rewrite !ltb_zero_r, sqrt_spec. apply SFsqrt_not_neg. Qed.

Lemma abs_nonneg x : nonneg (abs x).
Proof. unfold nonneg. rewrite ltb_zero_r, abs_spec. now destruct (Prim2SF x). Qed.

Lemma pos_nonneg x : (0 <? x) = true -> nonneg x.
Proof.
  unfold nonneg. rewrite ltb_zero_r, ltb_zero_l.
  destruct (Prim2SF x) as [s|s| |s m e]; simpl; try reflexivity; now destruct s.
Qed.

Lemma opp_nonneg x : (0 <? x) = false -> nonneg (- x).
Proof.
  unfold nonneg. rewrite ltb_zero_r, ltb_zero_l, opp_spec.
  destruct (Prim2SF x) as [s|s| |s m e]; simpl; try reflexivity; now destruct s.
Qed.

Lemma is_neg_zero_eq x : is_neg_zero x = true -> x = neg_zero.
Proof.
  unfold is_neg_zero. intros H. apply Prim2SF_inj.
  destruct (Prim2SF x) as [[|]|s| |s m e]; try discriminate. reflexivity.
Qed.

Lemma sqrt_neg_zero x : is_neg_zero (sqrt x) = true -> x = neg_zero.
Proof.
  intros H. apply is_neg_zero_eq in H. apply Prim2SF_inj.
  apply (f_equal Prim2SF) in H. rewrite sqrt_spec in H.
  now apply SFsqrt_neg_zero in H.
Qed.

Lemma is_finite_SF x : is_finite x = sf_finite (Prim2SF x).
Proof.
  unfold is_finite, is_nan, is_infinity. rewrite !eqb_spec, abs_spec.
  change (Prim2SF infinity) with (S754_infinity false).
  destruct (Prim2SF x) as [s|s| |s m e]; try reflexivity.
  - now destruct s.
  - unfold SFeqb at 1. rewrite SFcompare_refl by discriminate. reflexivity.
Qed.

Lemma eqb_zero_SF x : (x =? 0) = sf_is_zero (Prim2SF x).
Proof.
  rewrite eqb_spec, SF_zero. destruct (Prim2SF x) as [s|s| |s m e]; try reflexivity; now destruct s.
Qed.

Lemma opp_involutive x : - - x = x.
Proof.
  apply Prim2SF_inj. rewrite !opp_spec.
  destruct (Prim2SF x) as [s|s| |s m e]; simpl; now rewrite ?negb_involutive.
Qed.

Lemma round_aux_opp s m e l :
  binary_round_aux prec emax (negb s) m e l = SFopp (binary_round_aux prec emax s m e l).
Proof.
  unfold binary_round_aux.
  destruct (shr_fexp prec emax m e l) as [mrs' e'].
  destruct (shr_fexp prec emax _ e' loc_Exact) as [mrs'' e''].
  destruct (shr_m mrs''); try reflexivity. now destruct (_ <=? _)%Z.
Qed.

Lemma SFmul_opp_l x y : SFmul prec emax (SFopp x) y = SFopp (SFmul prec emax x y).
Proof.
  destruct x as [sx|sx| |sx mx ex], y as [sy|sy| |sy my ey]; simpl; try reflexivity;
    rewrite <- ?negb_xorb_l; try reflexivity.
  apply round_aux_opp.
Qed.

Lemma SFmul_opp_r x y : SFmul prec emax x (SFopp y) = SFopp (SFmul prec emax x y).
Proof.
  destruct x as [sx|sx| |sx mx ex], y as [sy|sy| |sy my ey]; simpl; try reflexivity;
    rewrite <- ?negb_xorb_r; try reflexivity.
  apply round_aux_opp.
Qed.

Lemma SFdiv_opp_l x y : SFdiv prec emax (SFopp x) y = SFopp (SFdiv prec emax x y).
Proof.
  destruct x as [sx|sx| |sx mx ex], y as [sy|sy| |sy my ey]; simpl; try reflexivity;
    rewrite <- ?negb_xorb_l; try reflexivity.
  destruct (SFdiv_core_binary prec emax (Zpos mx) ex (Zpos my) ey) as [[mz ez] lz].
  apply round_aux_opp.
Qed.

Lemma mul_opp_l x y : (- x) * y = - (x * y).
Proof. apply Prim2SF_inj. rewrite opp_spec, !mul_spec, opp_spec. apply SFmul_opp_l. Qed.
Lemma mul_opp_r x y : x * (- y) = - (x * y).
Proof. apply Prim2SF_inj. rewrite opp_spec, !mul_spec, opp_spec. apply SFmul_opp_r. Qed.
Lemma div_opp_l x y : (- x) / y = - (x / y).
Proof. apply Prim2SF_inj. rewrite opp_spec, !div_spec, opp_spec. apply SFdiv_opp_l. Qed.
Lemma mul_opp_opp x : (- x) * (- x) = x * x.
Proof. now rewrite mul_opp_l, mul_opp_r, opp_involutive. Qed.

Lemma normalize_opp z e :
  z <> 0%Z ->
  binary_normalize prec emax (- z) e false = SFopp (binary_normalize prec emax z e false).
Proof.
  destruct z as [|p|p]; [congruence| |]; intros _; simpl; unfold binary_round;
    destruct (shl_align _ _ _) as [mz ez];
    [apply (round_aux_opp false)|apply (round_aux_opp true)].
Qed.

Lemma SFsub_swap x y :
  SFsub prec emax y x = SFopp (SFsub prec emax x y)
  \/ (SFsub prec emax x y = S754_zero false /\ SFsub prec emax y x = S754_zero false).
Proof.
  destruct x as [sx|sx| |sx mx ex], y as [sy|sy| |sy my ey]; simpl;
    try (left; reflexivity);
    try (destruct sx, sy; simpl; auto; fail).
  replace (IntDef.Z.min ey ex) with (IntDef.Z.min ex ey) by apply Z.min_comm.
  set (a := cond_Zopp sx _). set (b := cond_Zopp sy _).
  destruct (Z.eq_dec (a - b) 0) as [E|E].
  - right. replace (b - a)%Z with 0%Z by lia. rewrite E. now split.
  - left. replace (b - a)%Z with (- (a - b))%Z by lia. now apply normalize_opp.
Qed.

Lemma sub_swap x y : y - x = - (x - y) \/ (x - y = 0 /\ y - x = 0).
Proof.
  destruct (SFsub_swap (Prim2SF x) (Prim2SF y)) as [H|[H1 H2]].
  - left. apply Prim2SF_inj. now rewrite opp_spec, !sub_spec.
  - right. split; apply Prim2SF_inj; now rewrite sub_spec.
Qed.

Lemma sub_self x : is_finite x = true -> x - x = 0.
Proof.
  rewrite is_finite_SF. intros H. apply Prim2SF_inj. rewrite sub_spec, SF_zero.
  destruct (Prim2SF x) as [s|s| |s m e]; try discriminate; simpl.
  - now destruct s.
  - now rewrite Z.sub_diag.
Qed.

Lemma zero_mul_finite z c :
  (z =? 0) = true -> is_finite c = true -> (z * c =? 0) = true.
Proof.
  rewrite !eqb_zero_SF, is_finite_SF, mul_spec.
  destruct (Prim2SF z) as [s|s| |s m e]; try discriminate.
  now destruct (Prim2SF c).
Qed.

Lemma zero_add_zero z : (z =? 0) = true -> 0 + z = 0.
Proof.
  rewrite eqb_zero_SF. intros H. apply Prim2SF_inj. rewrite add_spec, SF_zero.
  destruct (Prim2SF z) as [s|s| |s m e]; try discriminate. now destruct s.
Qed.

Lemma is_nan_opp x : is_nan (- x) = is_nan x.
Proof.
  unfold is_nan. rewrite !eqb_spec, opp_spec.
  destruct (Prim2SF x) as [s|s| |s m e]; try reflexivity; try now destruct s.
  unfold SFeqb. now rewrite !SFcompare_refl by discriminate.
Qed.
Lemma abs_opp x : abs (- x) = abs x.
Proof. apply Prim2SF_inj. rewrite !abs_spec, opp_spec. now destruct (Prim2SF x). Qed.
Lemma eqb_zero_opp x : (- x =? 0) = (x =? 0).
Proof. rewrite !eqb_zero_SF, opp_spec. now destruct (Prim2SF x). Qed.
Lemma ltb_opp_zero x : (- x <? 0) = (0 <? x).
Proof. rewrite ltb_zero_r, ltb_zero_l, opp_spec. destruct (Prim2SF x) as [s|s| |s m e]; try reflexivity; now destruct s. Qed.
Lemma sign_trichotomy x : is_nan x = false -> (x =? 0) = false -> (x <? 0) = negb (0 <? x).
Proof.
  unfold is_nan. rewrite eqb_zero_SF, ltb_zero_r, ltb_zero_l, eqb_spec.
  destruct (Prim2SF x) as [s|s| |s m e]; try discriminate; now destruct s.
Qed.

(** Nothing is above [+Infinity], and NaN is not compared. *)
Lemma inf_add_not_below z y : (infinity + z <? y) = false.
Proof.
  rewrite ltb_spec, add_spec. change (Prim2SF infinity) with (S754_infinity false).
  destruct (Prim2SF z) as [s|s| |s m e], (Prim2SF y) as [s'|s'| |s' m' e'];
    try reflexivity; try (now destruct s); try (now destruct s');
    now destruct s, s'.
Qed.

End FloatFacts.

(** * Rounding to nearest is monotone *)

Module RoundingFacts.
Import FloatFacts.

Local Open Scope R_scope.

Lemma bpow_pos e : 0 < bpow e.
Proof. apply powerRZ_lt. lra. Qed.

Lemma bpow_add a b : bpow (a + b) = bpow a * bpow b.
Proof. apply powerRZ_add. lra. Qed.

Lemma bpow_IZR k : (0 <= k)%Z -> bpow k = IZR (2 ^ k).
Proof.
  intros H. unfold bpow. rewrite <- (Z2Nat.id k H) at 1.
  rewrite <- pow_powerRZ, pow_IZR. now rewrite Z2Nat.id.
Qed.

Lemma bpow_ge_1 k : (0 <= k)%Z -> 1 <= bpow k.
Proof.
  intros H. rewrite bpow_IZR by assumption. apply IZR_le.
  pose proof (Z.pow_pos_nonneg 2 k ltac:(lia) H). lia.
Qed.

Lemma bpow_1 : bpow 1 = 2.
Proof. unfold bpow. simpl. lra. Qed.

Lemma bpow_0 : bpow 0 = 1.
Proof. reflexivity. Qed.

Lemma bpow_le a b : (a <= b)%Z -> bpow a <= bpow b.
Proof.
  intros H. replace b with (a + (b - a))%Z by lia. rewrite bpow_add.
  pose proof (bpow_pos a). pose proof (bpow_ge_1 (b - a) ltac:(lia)). nra.
Qed.

Lemma bpow_lt a b : (a < b)%Z -> bpow a < bpow b.
Proof.
  intros H. replace b with (a + 1 + (b - a - 1))%Z by lia. rewrite !bpow_add.
  pose proof (bpow_pos a). pose proof (bpow_ge_1 (b - a - 1) ltac:(lia)).
  rewrite bpow_1. nra.
Qed.

Lemma bpow_lt_inv a b : bpow a < bpow b -> (a < b)%Z.
Proof.
  intros H. destruct (Z_lt_le_dec a b) as [L|L]; [assumption|].
  apply bpow_le in L. lra.
Qed.

Lemma bpow_succ e : bpow (e + 1) = 2 * bpow e.
Proof. rewrite bpow_add, bpow_1. lra. Qed.

Lemma bpow_pred e : bpow (e - 1) = bpow e / 2.
Proof. replace e with (e - 1 + 1)%Z at 2 by lia. rewrite bpow_succ. lra. Qed.

(** digits *)
Lemma digits_size m : digits2_pos m = Pos.size m.
Proof. induction m; simpl; congruence. Qed.

Lemma digits_upper m : (Zpos m < 2 ^ Zpos (digits2_pos m))%Z.
Proof.
  rewrite digits_size. pose proof (Pos.size_gt m) as H.
  rewrite <- Pos2Z.inj_pow. lia.
Qed.

Lemma digits_lower m : (2 ^ (Zpos (digits2_pos m) - 1) <= Zpos m)%Z.
Proof.
  rewrite digits_size. pose proof (Pos.size_le m) as H.
  assert (E : (2 ^ Zpos (Pos.size m) = 2 * 2 ^ (Zpos (Pos.size m) - 1))%Z).
  { rewrite <- Z.pow_succ_r by lia. f_equal. lia. }
  assert (H' : (Zpos (2 ^ Pos.size m) <= Zpos m~0)%Z) by lia.
  rewrite Pos2Z.inj_pow in H'. lia.
Qed.

(** digits from bounds *)
Lemma digits_le m k : (Zpos m < 2 ^ k)%Z -> (0 <= k)%Z -> (Zpos (digits2_pos m) <= k)%Z.
Proof.
  intros H Hk. pose proof (digits_lower m) as L.
  destruct (Z_le_gt_dec (Zpos (digits2_pos m)) k) as [?|G]; [assumption|].
  assert (2 ^ k <= 2 ^ (Zpos (digits2_pos m) - 1))%Z by (apply Z.pow_le_mono_r; lia). lia.
Qed.

Lemma digits_ge m k : (2 ^ k <= Zpos m)%Z -> (0 <= k)%Z -> (k + 1 <= Zpos (digits2_pos m))%Z.
Proof.
  intros H Hk. pose proof (digits_upper m) as U.
  destruct (Z_le_gt_dec (k + 1) (Zpos (digits2_pos m))) as [?|G]; [assumption|].
  assert (2 ^ Zpos (digits2_pos m) <= 2 ^ k)%Z by (apply Z.pow_le_mono_r; lia). lia.
Qed.

Lemma located_bounds m l x : located m l x -> IZR m <= x < IZR m + 1.
Proof. destruct l as [|[| |]]; simpl; lra. Qed.

Lemma shr_1_ok r x : rec_ok r x -> rec_ok (shr_1 r) (x / 2).
Proof.
  destruct r as [m rb sb]. unfold rec_ok. cbn [shr_m]. intros [Hm H].
  destruct m as [|p|p]; [| |lia].
  - destruct rb, sb; cbn [located loc_of_shr_record shr_m shr_1 orb] in *;
      split; try lia; lra.
  - destruct p as [p|p|].
    + assert (E : IZR (Zpos p~1) = 2 * IZR (Zpos p) + 1)
        by (now rewrite Pos2Z.inj_xI, plus_IZR, mult_IZR).
      destruct rb, sb; cbn [located loc_of_shr_record shr_m shr_1 orb] in *;
        rewrite E in H; split; try lia; lra.
    + assert (E : IZR (Zpos p~0) = 2 * IZR (Zpos p))
        by (now rewrite Pos2Z.inj_xO, mult_IZR).
      destruct rb, sb; cbn [located loc_of_shr_record shr_m shr_1 orb] in *;
        rewrite E in H; split; try lia; lra.
    + destruct rb, sb; cbn [located loc_of_shr_record shr_m shr_1 orb] in *;
        split; try lia; lra.
Qed.

Lemma iter_shr_ok p :
  forall r x, rec_ok r x -> rec_ok (SpecFloat.iter_pos shr_1 p r) (x / bpow (Zpos p)).
Proof.
  induction p as [p IH|p IH|]; intros r x H; cbn [SpecFloat.iter_pos].
  - apply shr_1_ok, IH, IH in H.
    replace (x / bpow (Zpos p~1)) with (x / 2 / bpow (Zpos p) / bpow (Zpos p)); [exact H|].
    rewrite Pos2Z.inj_xI. replace (2 * Zpos p + 1)%Z with (Zpos p + Zpos p + 1)%Z by lia.
    rewrite !bpow_add, bpow_1. pose proof (bpow_pos (Zpos p)). field. lra.
  - apply IH, IH in H.
    replace (x / bpow (Zpos p~0)) with (x / bpow (Zpos p) / bpow (Zpos p)); [exact H|].
    rewrite Pos2Z.inj_xO. replace (2 * Zpos p)%Z with (Zpos p + Zpos p)%Z by lia.
    rewrite !bpow_add. pose proof (bpow_pos (Zpos p)). field. lra.
  - apply shr_1_ok in H. now rewrite bpow_1.
Qed.

Lemma loc_of_rec m l : loc_of_shr_record (shr_record_of_loc m l) = l.
Proof. now destruct l as [|[| |]]. Qed.

Lemma shr_m_of_loc m l : shr_m (shr_record_of_loc m l) = m.
Proof. now destruct l as [|[| |]]. Qed.

(** The first shift of [binary_round_aux]. *)
Lemma shr_fexp_ok m e l v :
  (0 <= m)%Z -> located m l (v / bpow e) ->
  exists r e1,
    shr_fexp prec emax m e l = (r, e1)
    /\ e1 = Z.max e (fexp prec emax (Zdigits2 m + e))
    /\ rec_ok r (v / bpow e1).
Proof.
  intros Hm H. unfold shr_fexp, shr.
  assert (R0 : rec_ok (shr_record_of_loc m l) (v / bpow e)).
  { split; [now rewrite shr_m_of_loc|now rewrite shr_m_of_loc, loc_of_rec]. }
  destruct (fexp prec emax (Zdigits2 m + e) - e)%Z as [|p|p] eqn:E.
  - do 2 eexists. split; [reflexivity|]. split; [lia|assumption].
  - do 2 eexists. split; [reflexivity|]. split; [lia|].
    apply (iter_shr_ok p) in R0. rewrite bpow_add.
    replace (v / (bpow e * bpow (Zpos p))) with (v / bpow e / bpow (Zpos p)); [assumption|].
    pose proof (bpow_pos e). pose proof (bpow_pos (Zpos p)). field. lra.
  - do 2 eexists. split; [reflexivity|]. split; [lia|assumption].
Qed.

Lemma fexp_eq x : fexp prec emax x = Z.max (x - 53) emin.
Proof. reflexivity. Qed.

Lemma rne_range m l : (m <= round_nearest_even m l <= m + 1)%Z.
Proof.
  destruct l as [|[| |]]; simpl; try lia. destruct (Z.even m); lia.
Qed.

Lemma rne_mono m l x m' l' x' :
  located m l x -> located m' l' x' -> x <= x' ->
  (round_nearest_even m l <= round_nearest_even m' l')%Z.
Proof.
  intros H H' Hx.
  pose proof (located_bounds _ _ _ H) as B. pose proof (located_bounds _ _ _ H') as B'.
  assert (Hm : (m <= m')%Z).
  { assert (IZR m < IZR (m' + 1)) by (rewrite plus_IZR; lra).
    apply lt_IZR in H0. lia. }
  destruct (Z.eq_dec m m') as [<-|N].
  - destruct l as [|[| |]], l' as [|[| |]]; simpl in *; try lia; try lra;
      destruct (Z.even m); lia.
  - pose proof (rne_range m l). pose proof (rne_range m' l'). lia.
Qed.

(** The second shift of [binary_round_aux] and the final case analysis. *)
Lemma second_shift r e1 :
  (0 <= r <= 2 ^ 53)%Z -> (emin <= e1)%Z ->
  (let '(mrs, e2) := shr_fexp prec emax r e1 loc_Exact in
   match shr_m mrs with
   | Z0 => S754_zero false
   | Zpos m => if (e2 <=? emax - prec)%Z then S754_finite false m e2
               else S754_infinity false
   | Zneg _ => S754_nan
   end) = pack r e1.
Proof.
  intros Hr He. unfold shr_fexp, shr, pack. cbn [shr_record_of_loc].
  destruct r as [|p|p]; [| |lia].
  - cbn [Zdigits2]. rewrite fexp_eq.
    destruct (Z.max (0 + e1 - 53) emin - e1)%Z eqn:E; try reflexivity. unfold emin in *. lia.
  - cbn [Zdigits2]. rewrite fexp_eq.
    destruct (Z.ltb_spec (Zpos p) (2 ^ 53)) as [L|L].
    + pose proof (digits_le p 53 L ltac:(lia)) as D.
      destruct (Z.max (Zpos (digits2_pos p) + e1 - 53) emin - e1)%Z eqn:E;
        try reflexivity. unfold emin in *. lia.
    + assert (p = 9007199254740992%positive) by lia. subst p.
      cbn [digits2_pos Pos.succ].
      replace (Z.max (54 + e1 - 53) emin - e1)%Z with 1%Z by (unfold emin in *; lia).
      cbn [SpecFloat.iter_pos shr_1 shr_m orb]. reflexivity.
Qed.

(** What [binary_round_aux] computes for a non-negative value [v] located
    by [(m, e, l)], when [e] is not above the exponent of the format. *)
Lemma round_aux_spec m e l v :
  (0 <= m)%Z -> located m l (v / bpow e) ->
  (e <= fexp prec emax (Zdigits2 m + e))%Z ->
  exists m1 l1 e1,
    binary_round_aux prec emax false m e l = pack (round_nearest_even m1 l1) e1
    /\ (0 <= m1 < 2 ^ 53)%Z
    /\ located m1 l1 (v / bpow e1)
    /\ (emin <= e1)%Z
    /\ (e1 = emin \/ (2 ^ 52 <= m1)%Z).
Proof.
  intros Hm H P.
  destruct (shr_fexp_ok m e l v Hm H) as (r1 & e1 & E1 & He1 & [Hm1 H1]).
  assert (He : e1 = fexp prec emax (Zdigits2 m + e)) by lia. clear He1.
  set (mu := (Zdigits2 m + e)%Z) in *.
  assert (Hemin : (emin <= e1)%Z) by (rewrite He, fexp_eq; lia).
  pose proof (bpow_pos e) as Be. pose proof (bpow_pos e1) as Be1.
  pose proof (located_bounds _ _ _ H) as B. pose proof (located_bounds _ _ _ H1) as B1.
  (* v < 2^mu *)
  assert (Hup : v < bpow mu).
  { unfold mu. rewrite Z.add_comm, bpow_add.
    assert (IZR m + 1 <= bpow (Zdigits2 m)).
    { destruct m as [|p|p]; [cbn [Zdigits2]; rewrite bpow_0; lra| |lia].
      cbn [Zdigits2]. rewrite bpow_IZR by lia. rewrite <- plus_IZR. apply IZR_le.
      pose proof (digits_upper p). lia. }
    apply Rmult_lt_reg_r with (/ bpow e); [now apply Rinv_0_lt_compat|].
    replace (bpow e * bpow (Zdigits2 m) * / bpow e) with (bpow (Zdigits2 m)) by (field; lra).
    unfold Rdiv in B. lra. }
  (* m1 < 2^53 *)
  assert (Hup1 : (shr_m r1 < 2 ^ 53)%Z).
  { apply lt_IZR. rewrite <- bpow_IZR by lia.
    apply Rle_lt_trans with (v / bpow e1); [lra|].
    apply Rlt_le_trans with (bpow mu / bpow e1).
    - unfold Rdiv. apply Rmult_lt_compat_r; [now apply Rinv_0_lt_compat|assumption].
    - replace (bpow mu / bpow e1) with (bpow (mu - e1)).
      + apply bpow_le. rewrite He, fexp_eq. lia.
      + replace mu with (mu - e1 + e1)%Z at 2 by lia. rewrite bpow_add. field. lra. }
  (* normal numbers have a full mantissa *)
  assert (Hlow : e1 = emin \/ (2 ^ 52 <= shr_m r1)%Z).
  { destruct (Z.eq_dec e1 emin) as [?|N]; [now left|right].
    assert (Hmu : e1 = (mu - 53)%Z) by (rewrite He, fexp_eq in *; lia).
    destruct m as [|p|p]; [|clear Hm|lia].
    { exfalso. unfold mu in *. cbn [Zdigits2] in *. rewrite fexp_eq in *. lia. }
    assert (Hv : bpow (mu - 1) <= v).
    { unfold mu. cbn [Zdigits2].
      replace (Zpos (digits2_pos p) + e - 1)%Z with (Zpos (digits2_pos p) - 1 + e)%Z by lia.
      rewrite bpow_add, bpow_IZR by lia.
      apply Rle_trans with (IZR (Zpos p) * bpow e).
      - apply Rmult_le_compat_r; [lra|]. apply IZR_le, digits_lower.
      - apply Rmult_le_reg_r with (/ bpow e); [now apply Rinv_0_lt_compat|].
        replace (IZR (Zpos p) * bpow e * / bpow e) with (IZR (Zpos p)) by (field; lra).
        unfold Rdiv in B. lra. }
    assert (bpow 52 <= v / bpow e1).
    { replace 52%Z with (mu - 1 - e1)%Z by lia.
      apply Rmult_le_reg_r with (bpow e1); [assumption|].
      rewrite <- bpow_add. replace (mu - 1 - e1 + e1)%Z with (mu - 1)%Z by lia.
      replace (v / bpow e1 * bpow e1) with v by (field; lra). assumption. }
    rewrite bpow_IZR in H0 by lia.
    assert (IZR (2 ^ 52) < IZR (shr_m r1 + 1)) by (rewrite plus_IZR; lra).
    apply lt_IZR in H2. lia. }
  exists (shr_m r1), (loc_of_shr_record r1), e1.
  repeat split; try assumption; try lia.
  unfold binary_round_aux. rewrite E1.
  apply second_shift; [|assumption].
  pose proof (rne_range (shr_m r1) (loc_of_shr_record r1)). lia.
Qed.

Ltac pow_numerals :=
  change (2 ^ 53)%Z with 9007199254740992%Z in *;
  change (2 ^ 52)%Z with 4503599627370496%Z in *.

(** Packing is monotone: at one exponent in the mantissa, and across
    exponents when the second mantissa is full. *)
Lemma finite_le m e m' e' :
  ((e < e')%Z \/ (e = e' /\ (Zpos m <= Zpos m')%Z)) ->
  SFleb (S754_finite false m e) (S754_finite false m' e') = true.
Proof.
  intros H. unfold SFleb, SFcompare.
  destruct (Z.compare_spec e e') as [E|E|E].
  - change (Pos.compare_cont Eq m m') with (Pos.compare m m').
    destruct (Pos.compare_spec m m') as [C|C|C]; try reflexivity.
    exfalso. destruct H as [H|[_ H]]; [lia|]. apply Pos2Z.pos_lt_pos in C. lia.
  - reflexivity.
  - exfalso. lia.
Qed.

Lemma pack_le r e r' e' :
  (0 <= r <= 2 ^ 53)%Z -> (0 <= r' <= 2 ^ 53)%Z ->
  (e = e' /\ (r <= r')%Z) \/ ((e < e')%Z /\ (2 ^ 52 <= r')%Z) ->
  SFleb (pack r e) (pack r' e') = true.
Proof.
  intros Hr Hr' H. unfold pack. pow_numerals.
  destruct r as [|p|p]; [| |lia]; destruct r' as [|p'|p']; try lia.
  - reflexivity.
  - destruct (_ <? _)%Z; destruct (_ <=? _)%Z; reflexivity.
  - destruct (Z.ltb_spec (Zpos p) 9007199254740992) as [L|L];
      destruct (Z.ltb_spec (Zpos p') 9007199254740992) as [L'|L'].
    + destruct (Z.leb_spec e 971), (Z.leb_spec e' 971); try reflexivity.
      * apply finite_le. lia.
      * exfalso. lia.
    + destruct (Z.leb_spec e 971), (Z.leb_spec (e' + 1) 971); try reflexivity.
      * apply finite_le. lia.
      * exfalso. lia.
    + destruct (Z.leb_spec (e + 1) 971), (Z.leb_spec e' 971); try reflexivity.
      * apply finite_le. lia.
      * exfalso. lia.
    + destruct (Z.leb_spec (e + 1) 971), (Z.leb_spec (e' + 1) 971); try reflexivity.
      * apply finite_le. lia.
      * exfalso. lia.
Qed.

(** Rounding is monotone. *)
Theorem round_aux_mono m e l v m' e' l' v' :
  (0 <= m)%Z -> located m l (v / bpow e) ->
  (e <= fexp prec emax (Zdigits2 m + e))%Z ->
  (0 <= m')%Z -> located m' l' (v' / bpow e') ->
  (e' <= fexp prec emax (Zdigits2 m' + e'))%Z ->
  v <= v' ->
  SFleb (binary_round_aux prec emax false m e l)
        (binary_round_aux prec emax false m' e' l') = true.
Proof.
  intros Hm H P Hm' H' P' Hv.
  destruct (round_aux_spec m e l v Hm H P) as (m1 & l1 & e1 & -> & B1 & L1 & E1 & N1).
  destruct (round_aux_spec m' e' l' v' Hm' H' P') as (m2 & l2 & e2 & -> & B2 & L2 & E2 & N2).
  pose proof (rne_range m1 l1). pose proof (rne_range m2 l2).
  pose proof (bpow_pos e1) as Be1. pose proof (bpow_pos e2) as Be2.
  pose proof (located_bounds _ _ _ L1) as Bd1. pose proof (located_bounds _ _ _ L2) as Bd2.
  apply pack_le; try (pow_numerals; lia).
  assert (Hle : (e1 <= e2)%Z).
  { destruct (Z_le_gt_dec e1 e2) as [?|G]; [assumption|exfalso].
    destruct N1 as [->|N1]; [lia|].
    (* 2^(e1+52) <= v <= v' < 2^(e2+53) *)
    assert (bpow (e1 + 52) <= v).
    { rewrite bpow_add, (bpow_IZR 52) by lia.
      apply Rle_trans with (IZR m1 * bpow e1).
      - rewrite Rmult_comm. apply Rmult_le_compat_r; [lra|]. now apply IZR_le.
      - apply Rmult_le_reg_r with (/ bpow e1); [now apply Rinv_0_lt_compat|].
        replace (IZR m1 * bpow e1 * / bpow e1) with (IZR m1) by (field; lra).
        unfold Rdiv in Bd1. lra. }
    assert (v' < bpow (e2 + 53)).
    { rewrite bpow_add, (bpow_IZR 53) by lia.
      apply Rlt_le_trans with ((IZR m2 + 1) * bpow e2).
      - apply Rmult_lt_reg_r with (/ bpow e2); [now apply Rinv_0_lt_compat|].
        replace ((IZR m2 + 1) * bpow e2 * / bpow e2) with (IZR m2 + 1) by (field; lra).
        unfold Rdiv in Bd2. lra.
      - rewrite Rmult_comm. apply Rmult_le_compat_l; [lra|].
        rewrite <- plus_IZR. apply IZR_le. lia. }
    assert (Hb : bpow (e1 + 52) < bpow (e2 + 53)) by lra.
    apply bpow_lt_inv in Hb. lia. }
  destruct (Z.eq_dec e1 e2) as [<-|N].
  - left. split; [reflexivity|].
    apply (rne_mono m1 l1 (v / bpow e1) m2 l2 (v' / bpow e1)); try assumption.
    unfold Rdiv. apply Rmult_le_compat_r; [|assumption].
    apply Rlt_le. now apply Rinv_0_lt_compat.
  - right. split; [lia|]. destruct N2 as [->|N2]; pow_numerals; lia.
Qed.

Lemma bounded_spec m e :
  SpecFloat.bounded prec emax m e = true ->
  (emin <= e <= 971)%Z
  /\ (Zpos (digits2_pos m) <= 53)%Z
  /\ (e = emin \/ Zpos (digits2_pos m) = 53%Z)
  /\ fexp prec emax (Zpos (digits2_pos m) + e) = e.
Proof.
  unfold SpecFloat.bounded, canonical_mantissa. intros H. apply andb_prop in H.
  destruct H as [C B]. apply Z.eqb_eq in C. apply Z.leb_le in B.
  rewrite fexp_eq in *. unfold emin in *. change (emax - prec)%Z with 971%Z in B. lia.
Qed.

Lemma mantissa_bounds m e :
  SpecFloat.bounded prec emax m e = true ->
  (Zpos m < 2 ^ 53)%Z /\ (e = emin \/ (2 ^ 52 <= Zpos m)%Z).
Proof.
  intros H. destruct (bounded_spec m e H) as (_ & D & N & _).
  pose proof (digits_upper m) as U. pose proof (digits_lower m) as L. split.
  - assert (2 ^ Zpos (digits2_pos m) <= 2 ^ 53)%Z by (apply Z.pow_le_mono_r; lia). lia.
  - destruct N as [N|N]; [now left|right]. rewrite N in L. exact L.
Qed.

Lemma SF2R_nonneg x : 0 <= SF2R x.
Proof.
  destruct x as [s|s| |s m e]; simpl; try lra.
  pose proof (bpow_pos e). assert (0 < IZR (Zpos m)) by (apply IZR_lt; lia). nra.
Qed.

(** On ordinary finite values the comparison of floats is the comparison
    of the reals they denote. *)
Lemma compare_real x y :
  sf_fin x = true -> sf_fin y = true ->
  match SFcompare x y with
  | Some Lt => SF2R x < SF2R y
  | Some Eq => SF2R x = SF2R y
  | Some Gt => SF2R y < SF2R x
  | None => False
  end.
Proof.
  destruct x as [s|s| |s m e], y as [s'|s'| |s' m' e']; try discriminate; simpl.
  - intros _ _. reflexivity.
  - intros _ H. destruct s'; [discriminate|].
    pose proof (bpow_pos e'). assert (0 < IZR (Zpos m')) by (apply IZR_lt; lia). nra.
  - intros H _. destruct s; [discriminate|].
    pose proof (bpow_pos e). assert (0 < IZR (Zpos m)) by (apply IZR_lt; lia). nra.
  - intros H H'. destruct s; [discriminate|]. destruct s'; [discriminate|].
    simpl in H, H'.
    destruct (bounded_spec m e H) as (He & _). destruct (bounded_spec m' e' H') as (He' & _).
    destruct (mantissa_bounds m e H) as (U & N). destruct (mantissa_bounds m' e' H') as (U' & N').
    pose proof (bpow_pos e) as B. pose proof (bpow_pos e') as B'.
    assert (P : 0 < IZR (Zpos m)) by (apply IZR_lt; lia).
    assert (P' : 0 < IZR (Zpos m')) by (apply IZR_lt; lia).
    apply IZR_lt in U, U'.
    destruct (Z.compare_spec e e') as [E|E|E].
    + subst e'. change (Pos.compare_cont Eq m m') with (Pos.compare m m').
      destruct (Pos.compare_spec m m') as [C|C|C].
      * now subst.
      * apply Rmult_lt_compat_r; [assumption|]. apply IZR_lt. lia.
      * apply Rmult_lt_compat_r; [assumption|]. apply IZR_lt. lia.
    + destruct N' as [N'|N']; [lia|]. apply IZR_le in N'.
      assert (bpow (e + 1) <= bpow e') by (apply bpow_le; lia).
      rewrite bpow_succ in H0.
      change (2 ^ 53)%Z with (2 * 2 ^ 52)%Z in U. rewrite mult_IZR in U.
      assert (0 < IZR (2 ^ 52)) by (apply IZR_lt; lia).
      apply Rlt_le_trans with (IZR (2 ^ 52) * (2 * bpow e)); [nra|].
      apply Rle_trans with (IZR (2 ^ 52) * bpow e'); [nra|nra].
    + destruct N as [N|N]; [lia|]. apply IZR_le in N.
      assert (bpow (e' + 1) <= bpow e) by (apply bpow_le; lia).
      rewrite bpow_succ in H0.
      change (2 ^ 53)%Z with (2 * 2 ^ 52)%Z in U'. rewrite mult_IZR in U'.
      assert (0 < IZR (2 ^ 52)) by (apply IZR_lt; lia).
      apply Rlt_le_trans with (IZR (2 ^ 52) * (2 * bpow e')); [nra|].
      apply Rle_trans with (IZR (2 ^ 52) * bpow e); [nra|nra].
Qed.

Lemma leb_real x y :
  sf_fin x = true -> sf_fin y = true ->
  SFleb x y = true <-> SF2R x <= SF2R y.
Proof.
  intros Hx Hy. pose proof (compare_real x y Hx Hy) as C. unfold SFleb.
  destruct (SFcompare x y) as [[| |]|]; split; intros; try lra; try reflexivity;
    try discriminate; contradiction.
Qed.

Lemma ord_fin_or_inf x : sf_ord x = true -> sf_fin x = true \/ x = S754_infinity false.
Proof. destruct x as [s|[|]| |s m e]; simpl; auto; discriminate. Qed.

Lemma leb_inf x : sf_ord x = true -> SFleb x (S754_infinity false) = true.
Proof. destruct x as [s|[|]| |[|] m e]; simpl; try discriminate; reflexivity. Qed.

Lemma inf_leb x : sf_ord x = true -> SFleb (S754_infinity false) x = true -> x = S754_infinity false.
Proof. destruct x as [s|[|]| |[|] m e]; simpl; try discriminate; reflexivity. Qed.

Lemma SFleb_trans x y z :
  sf_ord x = true -> sf_ord y = true -> sf_ord z = true ->
  SFleb x y = true -> SFleb y z = true -> SFleb x z = true.
Proof.
  intros Hx Hy Hz Hxy Hyz.
  destruct (ord_fin_or_inf z Hz) as [Fz| ->]; [|now apply leb_inf].
  destruct (ord_fin_or_inf y Hy) as [Fy| ->].
  2:{ apply inf_leb in Hyz; [|assumption]. subst z. discriminate. }
  destruct (ord_fin_or_inf x Hx) as [Fx| ->].
  2:{ apply inf_leb in Hxy; [|assumption]. subst y. discriminate. }
  apply leb_real in Hxy, Hyz; try assumption. apply leb_real; try assumption. lra.
Qed.

Lemma SFleb_refl x : sf_ord x = true -> SFleb x x = true.
Proof.
  intros H. unfold SFleb. rewrite SFcompare_refl; [reflexivity|].
  intros ->. discriminate.
Qed.

Lemma zero_leb s y : sf_ord y = true -> SFleb (S754_zero s) y = true.
Proof. destruct y as [s'|[|]| |[|] m e]; simpl; try discriminate; reflexivity. Qed.

Lemma pack_leb_inf r e : SFleb (pack r e) (S754_infinity false) = true.
Proof.
  unfold pack. destruct r; try reflexivity.
  destruct (_ <? _)%Z; destruct (_ <=? _)%Z; reflexivity.
Qed.

Lemma zero_leb_pack s r e : SFleb (S754_zero s) (pack r e) = true.
Proof.
  unfold pack. destruct r; try reflexivity.
  destruct (_ <? _)%Z; destruct (_ <=? _)%Z; reflexivity.
Qed.

(** *** Left shifts *)

Lemma iter_xO m d : Zpos (Pos.iter xO m d) = (Zpos m * 2 ^ Zpos d)%Z.
Proof.
  induction d as [|d IH] using Pos.peano_ind.
  - simpl. lia.
  - rewrite Pos.iter_succ, Pos2Z.inj_xO, IH, Pos2Z.inj_succ, Z.pow_succ_r by lia. lia.
Qed.

Lemma digits_iter_xO m d :
  Zpos (digits2_pos (Pos.iter xO m d)) = (Zpos (digits2_pos m) + Zpos d)%Z.
Proof.
  induction d as [|d IH] using Pos.peano_ind.
  - simpl. lia.
  - rewrite Pos.iter_succ. cbn [digits2_pos]. rewrite Pos2Z.inj_succ, IH. lia.
Qed.

Lemma shl_align_spec m e e' :
  exists m' e'',
    shl_align m e e' = (m', e'')
    /\ e'' = Z.min e e'
    /\ Zpos m' = (Zpos m * 2 ^ (e - e''))%Z
    /\ (Zpos (digits2_pos m') + e'' = Zpos (digits2_pos m) + e)%Z.
Proof.
  unfold shl_align. destruct (e' - e)%Z as [|d|d] eqn:E.
  - exists m, e. repeat split; try lia. rewrite Z.sub_diag. simpl. lia.
  - exists m, e. repeat split; try lia. rewrite Z.sub_diag. simpl. lia.
  - exists (Pos.iter xO m d), e'. repeat split; try lia.
    + rewrite iter_xO. f_equal. f_equal. lia.
    + rewrite digits_iter_xO. lia.
Qed.

Lemma F2R_shift m e k :
  (0 <= k)%Z -> IZR (m * 2 ^ k) * bpow (e - k) = IZR m * bpow e.
Proof.
  intros H. rewrite mult_IZR, <- bpow_IZR by assumption.
  replace e with (k + (e - k))%Z at 2 by lia. rewrite bpow_add. ring.
Qed.

(** [binary_round] is [binary_round_aux] on an aligned exact value. *)
Lemma binary_round_aligned m e :
  exists mz ez,
    binary_round prec emax false m e
    = binary_round_aux prec emax false (Zpos mz) ez loc_Exact
    /\ located (Zpos mz) loc_Exact (IZR (Zpos m) * bpow e / bpow ez)
    /\ (ez <= fexp prec emax (Zdigits2 (Zpos mz) + ez))%Z.
Proof.
  unfold binary_round.
  destruct (shl_align_spec m e (fexp prec emax (Zpos (digits2_pos m) + e)))
    as (mz & ez & -> & He & Hm & Hd).
  exists mz, ez. split; [reflexivity|]. split.
  - cbn [located]. rewrite Hm. pose proof (bpow_pos ez).
    replace ez with (e - (e - ez))%Z at 2 by lia.
    rewrite <- (F2R_shift (Zpos m) e (e - ez)) by lia.
    replace (e - (e - ez))%Z with ez by lia. field. lra.
  - cbn [Zdigits2]. rewrite Hd. lia.
Qed.

Lemma binary_round_mono m e m' e' :
  IZR (Zpos m) * bpow e <= IZR (Zpos m') * bpow e' ->
  SFleb (binary_round prec emax false m e) (binary_round prec emax false m' e') = true.
Proof.
  intros H.
  destruct (binary_round_aligned m e) as (mz & ez & -> & L & P).
  destruct (binary_round_aligned m' e') as (mz' & ez' & -> & L' & P').
  apply (round_aux_mono (Zpos mz) ez loc_Exact (IZR (Zpos m) * bpow e)
                        (Zpos mz') ez' loc_Exact (IZR (Zpos m') * bpow e'));
    try assumption; lia.
Qed.

Lemma binary_round_leb_inf m e :
  SFleb (binary_round prec emax false m e) (S754_infinity false) = true.
Proof.
  destruct (binary_round_aligned m e) as (mz & ez & -> & L & P).
  destruct (round_aux_spec (Zpos mz) ez loc_Exact (IZR (Zpos m) * bpow e) ltac:(lia) L P)
    as (m1 & l1 & e1 & -> & _).
  apply pack_leb_inf.
Qed.

Lemma zero_leb_binary_round s m e :
  SFleb (S754_zero s) (binary_round prec emax false m e) = true.
Proof.
  destruct (binary_round_aligned m e) as (mz & ez & -> & L & P).
  destruct (round_aux_spec (Zpos mz) ez loc_Exact (IZR (Zpos m) * bpow e) ltac:(lia) L P)
    as (m1 & l1 & e1 & -> & _).
  apply zero_leb_pack.
Qed.

(** Rounding a canonical value returns it. *)
Lemma binary_round_id m e :
  SpecFloat.bounded prec emax m e = true ->
  binary_round prec emax false m e = S754_finite false m e.
Proof.
  intros H. destruct (bounded_spec m e H) as (He & D & N & C).
  unfold binary_round, shl_align. rewrite C, Z.sub_diag.
  unfold binary_round_aux, shr_fexp. cbn [Zdigits2]. rewrite C, Z.sub_diag.
  cbn [shr shr_record_of_loc shr_m loc_of_shr_record round_nearest_even Zdigits2].
  rewrite C, Z.sub_diag. cbn [shr shr_m].
  change (emax - prec)%Z with 971%Z.
  destruct (Z.leb_spec e 971); [reflexivity|lia].
Qed.

(** *** Addition *)

Lemma aligned_value m e ez :
  (ez <= e)%Z ->
  IZR (Zpos (fst (shl_align m e ez))) * bpow ez = IZR (Zpos m) * bpow e.
Proof.
  intros H. destruct (shl_align_spec m e ez) as (m' & e'' & -> & He & Hm & _).
  cbn [fst]. rewrite Hm. replace e'' with ez in * by lia.
  replace ez with (e - (e - ez))%Z at 2 by lia. apply F2R_shift. lia.
Qed.

Lemma SFadd_finite ma ea mb eb :
  SFadd prec emax (S754_finite false ma ea) (S754_finite false mb eb)
  = binary_round prec emax false
      (fst (shl_align ma ea (Z.min ea eb)) + fst (shl_align mb eb (Z.min ea eb)))
      (Z.min ea eb).
Proof. reflexivity. Qed.

Lemma sum_value ma ea mb eb :
  IZR (Zpos (fst (shl_align ma ea (Z.min ea eb)) + fst (shl_align mb eb (Z.min ea eb))))
  * bpow (Z.min ea eb)
  = IZR (Zpos ma) * bpow ea + IZR (Zpos mb) * bpow eb.
Proof.
  rewrite Pos2Z.inj_add, plus_IZR, Rmult_plus_distr_r.
  rewrite !aligned_value by lia. reflexivity.
Qed.

Lemma SFadd_mono a b c :
  sf_ord a = true -> sf_ord b = true -> sf_ord c = true ->
  SFleb b c = true ->
  SFleb (SFadd prec emax a b) (SFadd prec emax a c) = true.
Proof.
  intros Ha Hb Hc H.
  destruct a as [sa|[|]| |[|] ma ea]; try discriminate.
  - (* zero *)
    destruct b as [sb|[|]| |[|] mb eb]; try discriminate;
      destruct c as [sc|[|]| |[|] mc ec]; try discriminate; try assumption;
      try (destruct sa, sb, sc; reflexivity);
      try (destruct sa, sb; reflexivity).
  - (* infinity *)
    destruct b as [sb|[|]| |[|] mb eb]; try discriminate;
      destruct c as [sc|[|]| |[|] mc ec]; try discriminate; reflexivity.
  - (* finite *)
    cbn [sf_ord negb andb] in Ha.
    pose proof (bpow_pos ea) as Ba.
    destruct b as [sb|[|]| |[|] mb eb]; try discriminate;
      cbn [sf_ord negb andb] in Hb.
    + (* b zero *)
      destruct c as [sc|[|]| |[|] mc ec]; try discriminate;
        cbn [sf_ord negb andb] in Hc.
      * cbn [SFadd]. apply SFleb_refl. exact Ha.
      * reflexivity.
      * rewrite SFadd_finite. cbn [SFadd]. rewrite <- (binary_round_id ma ea Ha).
        apply binary_round_mono. rewrite sum_value.
        pose proof (bpow_pos ec). assert (0 < IZR (Zpos mc)) by (apply IZR_lt; lia). nra.
    + (* b infinite *)
      destruct c as [sc|[|]| |[|] mc ec]; try discriminate. reflexivity.
    + (* b finite *)
      destruct c as [sc|[|]| |[|] mc ec]; try discriminate;
        cbn [sf_ord negb andb] in Hc.
      * rewrite SFadd_finite. cbn [SFadd]. apply binary_round_leb_inf.
      * rewrite !SFadd_finite. apply binary_round_mono. rewrite !sum_value.
        apply (leb_real (S754_finite false mb eb) (S754_finite false mc ec)) in H;
          [|assumption|assumption]. cbn [SF2R] in H. lra.
Qed.

(** *** Multiplication *)

Lemma SFmul_comm x y : SFmul prec emax x y = SFmul prec emax y x.
Proof.
  destruct x as [sx|sx| |sx mx ex], y as [sy|sy| |sy my ey]; simpl;
    rewrite ?(xorb_comm sx sy); try reflexivity.
  now rewrite (Pos.mul_comm mx my), (Z.add_comm ex ey).
Qed.

Lemma product_aligned mx ex my ey :
  SpecFloat.bounded prec emax mx ex = true -> SpecFloat.bounded prec emax my ey = true ->
  (ex + ey <= fexp prec emax (Zdigits2 (Zpos (mx * my)) + (ex + ey)))%Z.
Proof.
  intros Hx Hy.
  destruct (bounded_spec mx ex Hx) as (Ex & Dx & Nx & _).
  destruct (bounded_spec my ey Hy) as (Ey & Dy & Ny & _).
  pose proof (digits_lower mx) as Lx. pose proof (digits_lower my) as Ly.
  assert (Px : (1 <= Zpos (digits2_pos mx))%Z) by lia.
  assert (Py : (1 <= Zpos (digits2_pos my))%Z) by lia.
  assert (D : (Zpos (digits2_pos mx) + Zpos (digits2_pos my) - 1
               <= Zpos (digits2_pos (mx * my)))%Z).
  { replace (Zpos (digits2_pos mx) + Zpos (digits2_pos my) - 1)%Z
      with ((Zpos (digits2_pos mx) - 1 + (Zpos (digits2_pos my) - 1)) + 1)%Z by lia.
    apply digits_ge; [|lia]. rewrite Z.pow_add_r by lia. rewrite Pos2Z.inj_mul.
    apply Z.mul_le_mono_nonneg; try assumption; apply Z.pow_nonneg; lia. }
  cbn [Zdigits2]. rewrite fexp_eq. unfold emin in *. lia.
Qed.

Lemma SFmul_finite mx ex my ey :
  SFmul prec emax (S754_finite false mx ex) (S754_finite false my ey)
  = binary_round_aux prec emax false (Zpos (mx * my)) (ex + ey) loc_Exact.
Proof. reflexivity. Qed.

Lemma product_located mx ex my ey :
  located (Zpos (mx * my)) loc_Exact
          (IZR (Zpos mx) * bpow ex * (IZR (Zpos my) * bpow ey) / bpow (ex + ey)).
Proof.
  cbn [located]. rewrite Pos2Z.inj_mul, mult_IZR, bpow_add.
  pose proof (bpow_pos ex). pose proof (bpow_pos ey). field. lra.
Qed.

Lemma SFmul_finite_mono ma ea mb eb mc ec :
  SpecFloat.bounded prec emax ma ea = true ->
  SpecFloat.bounded prec emax mb eb = true ->
  SpecFloat.bounded prec emax mc ec = true ->
  SFleb (S754_finite false mb eb) (S754_finite false mc ec) = true ->
  SFleb (SFmul prec emax (S754_finite false ma ea) (S754_finite false mb eb))
        (SFmul prec emax (S754_finite false ma ea) (S754_finite false mc ec)) = true.
Proof.
  intros Ha Hb Hc H. rewrite !SFmul_finite.
  apply (round_aux_mono _ _ _ (IZR (Zpos ma) * bpow ea * (IZR (Zpos mb) * bpow eb))
                        _ _ _ (IZR (Zpos ma) * bpow ea * (IZR (Zpos mc) * bpow ec)));
    try lia; try apply product_located; try now apply product_aligned.
  apply (leb_real (S754_finite false mb eb) (S754_finite false mc ec)) in H;
    [|assumption|assumption]. cbn [SF2R] in H.
  pose proof (bpow_pos ea). assert (0 < IZR (Zpos ma)) by (apply IZR_lt; lia).
  apply Rmult_le_compat_l; [nra|assumption].
Qed.

Lemma zero_leb_SFmul_finite s ma ea mb eb :
  SpecFloat.bounded prec emax ma ea = true ->
  SpecFloat.bounded prec emax mb eb = true ->
  SFleb (S754_zero s)
        (SFmul prec emax (S754_finite false ma ea) (S754_finite false mb eb)) = true.
Proof.
  intros Ha Hb. rewrite SFmul_finite.
  destruct (round_aux_spec _ _ _ _ (Pos2Z.is_nonneg (ma * mb))
                           (product_located ma ea mb eb)
                           (product_aligned ma ea mb eb Ha Hb))
    as (m1 & l1 & e1 & -> & _).
  apply zero_leb_pack.
Qed.

Lemma SFmul_finite_leb_inf ma ea mb eb :
  SpecFloat.bounded prec emax ma ea = true ->
  SpecFloat.bounded prec emax mb eb = true ->
  SFleb (SFmul prec emax (S754_finite false ma ea) (S754_finite false mb eb))
        (S754_infinity false) = true.
Proof.
  intros Ha Hb. rewrite SFmul_finite.
  destruct (round_aux_spec _ _ _ _ (Pos2Z.is_nonneg (ma * mb))
                           (product_located ma ea mb eb)
                           (product_aligned ma ea mb eb Ha Hb))
    as (m1 & l1 & e1 & -> & _).
  apply pack_leb_inf.
Qed.

(** A finite non-negative factor on the left, finite operands. *)
Lemma SFmul_mono a t t' :
  sf_fin a = true -> sf_ord t = true -> sf_fin t' = true ->
  SFleb t t' = true ->
  SFleb (SFmul prec emax a t) (SFmul prec emax a t') = true.
Proof.
  intros Ha Ht Ht' H.
  destruct a as [sa|[|]| |[|] ma ea]; try discriminate;
    destruct t as [st|[|]| |[|] mt et]; try discriminate;
    destruct t' as [st'|[|]| |[|] mt' et']; try discriminate;
    cbn [sf_fin sf_ord negb andb] in Ha, Ht, Ht';
    try reflexivity.
  - now apply zero_leb_SFmul_finite.
  - now apply SFmul_finite_mono.
Qed.

(** A positive finite factor, operands that may be infinite. *)
Lemma SFmul_mono_pos ma ea x x' :
  SpecFloat.bounded prec emax ma ea = true ->
  sf_ord x = true -> sf_ord x' = true ->
  SFleb x x' = true ->
  SFleb (SFmul prec emax (S754_finite false ma ea) x)
        (SFmul prec emax (S754_finite false ma ea) x') = true.
Proof.
  intros Ha Hx Hx' H.
  destruct x as [sx|[|]| |[|] mx ex]; try discriminate;
    destruct x' as [sx'|[|]| |[|] mx' ex']; try discriminate;
    cbn [sf_ord negb andb] in Hx, Hx';
    try reflexivity.
  - now apply zero_leb_SFmul_finite.
  - now apply SFmul_finite_leb_inf.
  - now apply SFmul_finite_mono.
Qed.

(** *** Division *)

Lemma new_location_spec n r q x :
  (0 <= r < n)%Z -> x = IZR q + IZR r / IZR n ->
  located q (new_location n r) x.
Proof.
  intros Hr ->.
  assert (Hn : 0 < IZR n) by (apply IZR_lt; lia).
  set (y := IZR r / IZR n).
  assert (Hy : y * IZR n = IZR r) by (unfold y; field; lra).
  assert (Hy0 : (0 < r)%Z -> 0 < y).
  { intros P. apply IZR_lt in P. unfold y. now apply Rdiv_lt_0_compat. }
  assert (Hy1 : y < 1).
  { assert (IZR r < IZR n) by (apply IZR_lt; lia). nra. }
  assert (Hhalf_lt : (2 * r < n)%Z -> y < / 2).
  { intros P. apply IZR_lt in P. rewrite mult_IZR in P. nra. }
  assert (Hhalf_gt : (n < 2 * r)%Z -> / 2 < y).
  { intros P. apply IZR_lt in P. rewrite mult_IZR in P. nra. }
  assert (Hhalf_eq : (2 * r = n)%Z -> y = / 2).
  { intros P. apply (f_equal IZR) in P. rewrite mult_IZR in P. nra. }
  unfold new_location.
  destruct (Z.even n) eqn:Ev.
  - unfold new_location_even. destruct (Z.eqb_spec r 0) as [->|N].
    + cbn [located]. unfold y, Rdiv. lra.
    + destruct (Z.compare_spec (2 * r) n) as [C|C|C]; cbn [located].
      * rewrite (Hhalf_eq C). lra.
      * specialize (Hy0 ltac:(lia)). specialize (Hhalf_lt C). lra.
      * specialize (Hhalf_gt C). lra.
  - unfold new_location_odd. destruct (Z.eqb_spec r 0) as [->|N].
    + cbn [located]. unfold y, Rdiv. lra.
    + assert (Odd : (2 * r <> n)%Z).
      { intros E. rewrite <- E, Z.even_mul in Ev. discriminate. }
      destruct (Z.compare_spec (2 * r + 1) n) as [C|C|C]; cbn [located].
      * specialize (Hy0 ltac:(lia)). specialize (Hhalf_lt ltac:(lia)). lra.
      * specialize (Hy0 ltac:(lia)). specialize (Hhalf_lt ltac:(lia)). lra.
      * specialize (Hhalf_gt ltac:(lia)). lra.
Qed.

Lemma fexp_mono x y : (x <= y)%Z -> (fexp prec emax x <= fexp prec emax y)%Z.
Proof. rewrite !fexp_eq. lia. Qed.

Lemma Zdigits2_succ_le q : (0 <= q)%Z -> (q + 1 <= 2 ^ Zdigits2 q)%Z.
Proof.
  destruct q as [|p|p]; [simpl; lia| |lia]. intros _. cbn [Zdigits2].
  pose proof (digits_upper p). lia.
Qed.

Lemma div_core_spec mx ex my ey :
  exists q e' l,
    SFdiv_core_binary prec emax (Zpos mx) ex (Zpos my) ey = (q, e', l)
    /\ (0 <= q)%Z
    /\ located q l (IZR (Zpos mx) * bpow ex / (IZR (Zpos my) * bpow ey) / bpow e')
    /\ (e' <= fexp prec emax (Zdigits2 q + e'))%Z.
Proof.
  unfold SFdiv_core_binary. cbn [Zdigits2].
  set (X := (Zpos (digits2_pos mx) + ex - (Zpos (digits2_pos my) + ey))%Z).
  set (e' := Z.min (fexp prec emax X) (ex - ey)).
  set (s := (ex - ey - e')%Z).
  assert (Hs : (0 <= s)%Z) by (unfold s, e'; lia).
  set (m' := match s with Zpos _ => Z.shiftl (Zpos mx) s | Z0 => Zpos mx | Zneg _ => 0%Z end).
  assert (Hm' : m' = (Zpos mx * 2 ^ s)%Z).
  { unfold m'. destruct s as [|p|p]; [simpl; lia| |lia].
    rewrite Z.shiftl_mul_pow2 by lia. reflexivity. }
  pose proof (Z.div_eucl_eq m' (Zpos my) ltac:(lia)) as Hdiv.
  pose proof (Z.mod_pos_bound m' (Zpos my) ltac:(lia)) as Hmod.
  unfold Z.modulo in Hmod.
  destruct (Z.div_eucl m' (Zpos my)) as [q r].
  assert (Hq : (0 <= q)%Z).
  { assert (0 <= m')%Z by (rewrite Hm'; apply Z.mul_nonneg_nonneg; [lia|apply Z.pow_nonneg; lia]).
    nia. }
  exists q, e', (new_location (Zpos my) r). repeat split; try assumption.
  - apply new_location_spec; [assumption|].
    pose proof (bpow_pos ex). pose proof (bpow_pos ey). pose proof (bpow_pos e').
    assert (Pmy : 0 < IZR (Zpos my)) by (apply IZR_lt; lia).
    assert (E : IZR m' = IZR (Zpos my) * IZR q + IZR r)
      by (now rewrite Hdiv, plus_IZR, mult_IZR).
    rewrite Hm', mult_IZR, <- bpow_IZR in E by assumption.
    replace (bpow ex) with (bpow s * bpow ey * bpow e').
    + field_simplify; try lra. rewrite E. field. lra.
    + rewrite <- !bpow_add. f_equal. unfold s. lia.
  - (* the quotient has enough digits *)
    apply Z.le_trans with (fexp prec emax X); [unfold e'; lia|].
    apply fexp_mono.
    assert (Hlt : (2 ^ (Zpos (digits2_pos mx) - 1 + s)
                   < 2 ^ (Zpos (digits2_pos my) + Zdigits2 q))%Z).
    { pose proof (digits_lower mx) as L. pose proof (digits_upper my) as U.
      pose proof (Zdigits2_succ_le q Hq) as Q.
      assert (0 <= Zdigits2 q)%Z by (destruct q; simpl; lia).
      rewrite !Z.pow_add_r by lia.
      assert (0 < 2 ^ s)%Z by (apply Z.pow_pos_nonneg; lia).
      assert (0 < 2 ^ Zdigits2 q)%Z by (apply Z.pow_pos_nonneg; lia).
      apply Z.le_lt_trans with (Zpos mx * 2 ^ s)%Z; [nia|].
      rewrite <- Hm', Hdiv.
      apply Z.lt_le_trans with (Zpos my * (q + 1))%Z; [nia|].
      apply Z.le_trans with (Zpos my * 2 ^ Zdigits2 q)%Z; nia. }
    apply Z.pow_lt_mono_r_iff in Hlt; [unfold X, s in *; lia|lia|].
    assert (0 <= Zdigits2 q)%Z by (destruct q; simpl; lia). lia.
Qed.

Lemma SFdiv_finite_mono ma ea mb eb mn en :
  SpecFloat.bounded prec emax ma ea = true ->
  SpecFloat.bounded prec emax mb eb = true ->
  SFleb (S754_finite false ma ea) (S754_finite false mb eb) = true ->
  SFleb (SFdiv prec emax (S754_finite false ma ea) (S754_finite false mn en))
        (SFdiv prec emax (S754_finite false mb eb) (S754_finite false mn en)) = true.
Proof.
  intros Ha Hb H. cbn [SFdiv xorb].
  destruct (div_core_spec ma ea mn en) as (q & e' & l & -> & Hq & L & P).
  destruct (div_core_spec mb eb mn en) as (q2 & e2 & l2 & -> & Hq2 & L2 & P2).
  apply (round_aux_mono _ _ _ _ _ _ _ _ Hq L P Hq2 L2 P2).
  apply (leb_real (S754_finite false ma ea) (S754_finite false mb eb)) in H;
    [|assumption|assumption]. cbn [SF2R] in H.
  pose proof (bpow_pos en). assert (0 < IZR (Zpos mn)) by (apply IZR_lt; lia).
  unfold Rdiv. apply Rmult_le_compat_r; [|assumption].
  apply Rlt_le, Rinv_0_lt_compat. nra.
Qed.

Lemma zero_leb_SFdiv_finite s ma ea mn en :
  SFleb (S754_zero s)
        (SFdiv prec emax (S754_finite false ma ea) (S754_finite false mn en)) = true.
Proof.
  cbn [SFdiv xorb].
  destruct (div_core_spec ma ea mn en) as (q & e' & l & -> & Hq & L & P).
  destruct (round_aux_spec _ _ _ _ Hq L P) as (m1 & l1 & e1 & -> & _).
  apply zero_leb_pack.
Qed.

(** Division by a positive finite number. *)
Lemma SFdiv_mono a b mn en :
  sf_fin a = true -> sf_fin b = true ->
  SFleb a b = true ->
  SFleb (SFdiv prec emax a (S754_finite false mn en))
        (SFdiv prec emax b (S754_finite false mn en)) = true.
Proof.
  intros Ha Hb H.
  destruct a as [sa|[|]| |[|] ma ea]; try discriminate;
    destruct b as [sb|[|]| |[|] mb eb]; try discriminate;
    cbn [sf_fin negb andb] in Ha, Hb.
  - reflexivity.
  - apply zero_leb_SFdiv_finite.
  - now apply SFdiv_finite_mono.
Qed.

(** *** Whole numbers below 2^53 are represented exactly *)

Lemma located_whole m l w : located m l (IZR w) -> l = loc_Exact /\ m = w.
Proof.
  destruct l as [|[| |]]; cbn [located].
  - intros H. apply eq_IZR in H. now split.
  - intros H. exfalso.
    assert (E : IZR (2 * w) = IZR (2 * m + 1)) by (rewrite plus_IZR, !mult_IZR; lra).
    apply eq_IZR in E. lia.
  - intros [H1 H2]. apply lt_IZR in H1.
    assert (H3 : IZR (m + 1) <= IZR w) by (apply IZR_le; lia).
    rewrite plus_IZR in H3. lra.
  - intros [H1 H2].
    assert (H0 : IZR m < IZR w) by lra. apply lt_IZR in H0.
    assert (H3 : IZR (m + 1) <= IZR w) by (apply IZR_le; lia).
    rewrite plus_IZR in H3. lra.
Qed.

Lemma binary_round_whole m e z :
  (z < 2 ^ 53)%Z -> IZR (Zpos m) * bpow e = IZR z ->
  whole_sf (binary_round prec emax false m e) z.
Proof.
  intros Hz Hv.
  assert (Pz : (0 < z)%Z).
  { apply lt_IZR. rewrite <- Hv. pose proof (bpow_pos e).
    assert (0 < IZR (Zpos m)) by (apply IZR_lt; lia). nra. }
  destruct (binary_round_aligned m e) as (mz & ez & -> & L & P).
  destruct (round_aux_spec (Zpos mz) ez loc_Exact (IZR (Zpos m) * bpow e) ltac:(lia) L P)
    as (m1 & l1 & e1 & -> & Hm1 & L1 & He1 & N).
  rewrite Hv in L1.
  assert (E1 : (e1 <= 0)%Z).
  { destruct (Z_le_gt_dec e1 0) as [?|G]; [assumption|exfalso].
    destruct N as [->|N]; [unfold emin in G; lia|].
    pose proof (located_bounds _ _ _ L1) as [B _].
    pose proof (bpow_pos e1). pose proof (bpow_le 1 e1 ltac:(lia)) as B1. rewrite bpow_1 in B1.
    assert (B2 : IZR (2 ^ 52) <= IZR m1) by now apply IZR_le.
    assert (B3 : IZR z < IZR (2 ^ 53)) by now apply IZR_lt.
    assert (B4 : IZR m1 * bpow e1 <= IZR z).
    { apply Rmult_le_reg_r with (/ bpow e1); [now apply Rinv_0_lt_compat|].
      rewrite Rmult_assoc, Rinv_r, Rmult_1_r by lra. exact B. }
    change (2 ^ 52)%Z with 4503599627370496%Z in B2.
    change (2 ^ 53)%Z with 9007199254740992%Z in B3.
    assert (0 <= IZR m1) by lra. nra. }
  assert (Ew : IZR z / bpow e1 = IZR (z * 2 ^ (- e1))).
  { rewrite mult_IZR, <- bpow_IZR by lia. pose proof (bpow_pos e1).
    replace (bpow (- e1)) with (/ bpow e1); [reflexivity|].
    apply Rmult_eq_reg_l with (bpow e1); [|lra].
    rewrite Rinv_r, <- bpow_add by lra. replace (e1 + - e1)%Z with 0%Z by lia.
    now rewrite bpow_0. }
  rewrite Ew in L1. apply located_whole in L1. destruct L1 as [-> ->].
  cbn [round_nearest_even].
  assert (Pw : (0 < z * 2 ^ (- e1))%Z)
    by (apply Z.mul_pos_pos; [assumption|apply Z.pow_pos_nonneg; lia]).
  destruct (z * 2 ^ (- e1))%Z as [|p|p] eqn:Ep; try lia.
  unfold pack. destruct (Z.ltb_spec (Zpos p) (2 ^ 53)); [|lia].
  destruct (Z.leb_spec e1 971); [|lia].
  exists p, e1. split; [reflexivity|].
  rewrite <- Ew. pose proof (bpow_pos e1). field. lra.
Qed.

Lemma SFcompare_eq m e m' e' :
  SFcompare (S754_finite false m e) (S754_finite false m' e') = Some Eq ->
  m = m' /\ e = e'.
Proof.
  cbn [SFcompare]. destruct (Z.compare_spec e e') as [->|?|?]; try discriminate.
  intros H. split; [|reflexivity]. apply Pos.compare_eq. now inversion H.
Qed.

Lemma whole_sf_inj x y z :
  sf_fin x = true -> sf_fin y = true ->
  whole_sf x z -> whole_sf y z -> x = y.
Proof.
  intros Fx Fy (m & e & -> & Hx) (m' & e' & -> & Hy).
  pose proof (compare_real _ _ Fx Fy) as C. cbn [SF2R] in C. rewrite Hx, Hy in C.
  destruct (SFcompare _ _) as [[| |]|] eqn:E; try lra; try contradiction.
  apply SFcompare_eq in E. destruct E as [-> ->]. reflexivity.
Qed.

Lemma whole_sf_add x y a b :
  whole_sf x a -> whole_sf y b -> (a + b < 2 ^ 53)%Z ->
  whole_sf (SFadd prec emax x y) (a + b).
Proof.
  intros (m & e & -> & Hx) (m' & e' & -> & Hy) H.
  rewrite SFadd_finite. apply binary_round_whole; [assumption|].
  rewrite sum_value, plus_IZR. lra.
Qed.

Lemma whole_sf_leb x y a b :
  sf_fin x = true -> sf_fin y = true ->
  whole_sf x a -> whole_sf y b -> SFleb x y = (a <=? b)%Z.
Proof.
  intros Fx Fy (m & e & -> & Hx) (m' & e' & -> & Hy).
  pose proof (leb_real _ _ Fx Fy) as L. cbn [SF2R] in L. rewrite Hx, Hy in L.
  destruct (Z.leb_spec a b) as [Hab|Hab].
  - apply L. now apply IZR_le.
  - destruct (SFleb _ _); [|reflexivity].
    destruct L as [L _]. specialize (L eq_refl). apply le_IZR in L. lia.
Qed.

Lemma whole_sf_floor m e z :
  IZR (Zpos m) * bpow e = IZR z ->
  (if (0 <=? e)%Z then Z.shiftl (Zpos m) e else Z.shiftr (Zpos m) (- e)) = z.
Proof.
  intros H. destruct (Z.leb_spec 0 e) as [He|He].
  - rewrite Z.shiftl_mul_pow2 by assumption. apply eq_IZR.
    now rewrite mult_IZR, <- bpow_IZR.
  - rewrite Z.shiftr_div_pow2 by lia.
    assert (E : Zpos m = (z * 2 ^ (- e))%Z).
    { apply eq_IZR. rewrite mult_IZR, <- bpow_IZR, <- H by lia.
      rewrite Rmult_assoc, <- bpow_add. replace (e + - e)%Z with 0%Z by lia.
      rewrite bpow_0. ring. }
    rewrite E. apply Z.div_mul. apply Z.pow_nonzero; lia.
Qed.

Lemma whole_sf_shift m e :
  (0 <= e)%Z -> whole_sf (S754_finite false m e) (Zpos m * 2 ^ e).
Proof.
  intros H. exists m, e. split; [reflexivity|]. now rewrite mult_IZR, <- bpow_IZR.
Qed.

End RoundingFacts.

(** * The order of binary64 numbers *)

Module OrderFacts.
Import FloatFacts RoundingFacts.

Lemma ordinary_SF x : ordinary x <-> sf_ord (Prim2SF x) = true.
Proof.
  unfold ordinary. rewrite leb_spec, SF_zero. pose proof (Prim2SF_valid x) as V.
  destruct (Prim2SF x) as [s|[|]| |[|] m e]; simpl in *; try rewrite V;
    split; intros; try reflexivity; try discriminate.
Qed.

Lemma SFleb_ord x y :
  sf_ord x = true -> valid_binary y = true -> SFleb x y = true -> sf_ord y = true.
Proof.
  destruct x as [s|[|]| |[|] m e]; try discriminate;
    destruct y as [s'|[|]| |[|] m' e']; simpl; try discriminate; try reflexivity;
    intros; assumption.
Qed.

Lemma leb_ordinary x y : ordinary x -> (x <=? y) = true -> ordinary y.
Proof.
  rewrite !ordinary_SF, leb_spec. intros Hx H.
  exact (SFleb_ord _ _ Hx (Prim2SF_valid y) H).
Qed.

Lemma leb_trans x y z :
  ordinary x -> (x <=? y) = true -> (y <=? z) = true -> (x <=? z) = true.
Proof.
  intros Hx Hxy Hyz.
  pose proof (leb_ordinary _ _ Hx Hxy) as Hy.
  pose proof (leb_ordinary _ _ Hy Hyz) as Hz.
  rewrite ordinary_SF in Hx, Hy, Hz. rewrite leb_spec in *.
  now apply SFleb_trans with (Prim2SF y).
Qed.

Lemma ordinary_refl x : ordinary x -> (x <=? x) = true.
Proof. rewrite ordinary_SF, leb_spec. apply SFleb_refl. Qed.

Lemma ordinary_fin x : ordinary x -> is_finite x = true -> sf_fin (Prim2SF x) = true.
Proof.
  rewrite ordinary_SF, is_finite_SF.
  destruct (Prim2SF x) as [s|[|]| |[|] m e]; simpl; intros; try discriminate;
    try reflexivity; assumption.
Qed.

Lemma leb_finite x y :
  ordinary x -> (x <=? y) = true -> is_finite y = true -> is_finite x = true.
Proof.
  rewrite ordinary_SF, leb_spec, !is_finite_SF.
  destruct (Prim2SF x) as [s|[|]| |[|] m e]; try discriminate; try reflexivity.
  destruct (Prim2SF y) as [s'|[|]| |[|] m' e']; simpl; intros; discriminate.
Qed.

Lemma positive_SF n :
  (0 <? n) = true -> is_finite n = true ->
  exists m e, Prim2SF n = S754_finite false m e
              /\ SpecFloat.bounded prec emax m e = true.
Proof.
  rewrite ltb_zero_l, is_finite_SF. pose proof (Prim2SF_valid n) as V.
  destruct (Prim2SF n) as [s|[|]| |[|] m e]; simpl; intros; try discriminate.
  now exists m, e.
Qed.

Lemma positive_ordinary n : (0 <? n) = true -> ordinary n.
Proof.
  unfold ordinary. rewrite ltb_spec, leb_spec. unfold SFltb, SFleb.
  now destruct (SFcompare _ _) as [[| |]|].
Qed.

(** *** Monotonicity of the float operations *)

Lemma add_mono a b c :
  ordinary a -> ordinary b -> (b <=? c) = true -> (a + b <=? a + c) = true.
Proof.
  intros Ha Hb H. pose proof (leb_ordinary _ _ Hb H) as Hc.
  rewrite ordinary_SF in Ha, Hb, Hc. rewrite leb_spec in *. rewrite !add_spec.
  now apply SFadd_mono.
Qed.

Lemma mul_mono_r a t t' :
  ordinary a -> is_finite a = true -> ordinary t ->
  (t <=? t') = true -> is_finite t' = true ->
  (a * t <=? a * t') = true.
Proof.
  intros Ha Fa Ht H Ft'. pose proof (leb_ordinary _ _ Ht H) as Ht'.
  pose proof (ordinary_fin _ Ha Fa). pose proof (ordinary_fin _ Ht' Ft').
  rewrite ordinary_SF in Ht. rewrite leb_spec in *. rewrite !mul_spec.
  now apply SFmul_mono.
Qed.

Lemma mul_mono_l x x' k :
  (0 <? k) = true -> is_finite k = true -> ordinary x ->
  (x <=? x') = true -> (x * k <=? x' * k) = true.
Proof.
  intros Pk Fk Hx H. pose proof (leb_ordinary _ _ Hx H) as Hx'.
  destruct (positive_SF k Pk Fk) as (m & e & E & B).
  rewrite ordinary_SF in Hx, Hx'. rewrite leb_spec in *. rewrite !mul_spec, E.
  unfold SF64mul. rewrite (SFmul_comm (Prim2SF x)), (SFmul_comm (Prim2SF x')).
  now apply SFmul_mono_pos.
Qed.

Lemma div_mono a b n :
  (0 <? n) = true -> is_finite n = true -> ordinary a ->
  (a <=? b) = true -> is_finite b = true -> (a / n <=? b / n) = true.
Proof.
  intros Pn Fn Ha H Fb. pose proof (leb_ordinary _ _ Ha H) as Hb.
  pose proof (ordinary_fin _ Ha (leb_finite _ _ Ha H Fb)).
  pose proof (ordinary_fin _ Hb Fb).
  destruct (positive_SF n Pn Fn) as (m & e & E & _).
  rewrite leb_spec in *. rewrite !div_spec, E. now apply SFdiv_mono.
Qed.

(** *** Exact cases *)

Lemma leb_add_zero a : ordinary a -> (a <=? a + 0) = true.
Proof.
  rewrite ordinary_SF, leb_spec, add_spec, SF_zero.
  destruct (Prim2SF a) as [s|[|]| |[|] m e]; try discriminate; intros H.
  - now destruct s.
  - reflexivity.
  - cbn [SF64add SFadd]. now apply SFleb_refl.
Qed.

Lemma mul_zero_ordinary a : ordinary a -> is_finite a = true -> ordinary (a * 0).
Proof.
  intros Ha Fa. pose proof (ordinary_fin _ Ha Fa) as F. clear Ha Fa.
  rewrite ordinary_SF, mul_spec, SF_zero.
  destruct (Prim2SF a) as [s|[|]| |[|] m e]; try discriminate; reflexivity.
Qed.

Lemma zero_div n : (0 <? n) = true -> is_finite n = true -> 0 / n = 0.
Proof.
  intros Pn Fn. destruct (positive_SF n Pn Fn) as (m & e & E & _).
  apply Prim2SF_inj. rewrite div_spec, E, SF_zero. reflexivity.
Qed.

Lemma mul_one_r x : x * 1 = x.
Proof.
  rewrite <- (mul_one_l x) at 2. apply Prim2SF_inj. rewrite !mul_spec. apply SFmul_comm.
Qed.

Lemma positive_usable n : (0 <? n) = true -> is_finite n = true -> usable n = true.
Proof.
  intros Pn Fn. unfold usable. rewrite Fn, eqb_zero_SF.
  destruct (positive_SF n Pn Fn) as (m & e & -> & _). reflexivity.
Qed.

Lemma SF_two53 : Prim2SF two53 = S754_finite false 4503599627370496 1.
Proof. reflexivity. Qed.

Lemma below_two53 n :
  (1 <=? n) = true -> (two53 <=? n) = false ->
  (0 <? n) = true /\ is_finite n = true.
Proof.
  rewrite ltb_zero_l, is_finite_SF, !leb_spec, SF_one, SF_two53.
  destruct (Prim2SF n) as [s|[|]| |[|] m e]; simpl; intros; try discriminate;
    split; reflexivity.
Qed.

Lemma nondecreasing_nth l :
  nondecreasing l = true ->
  forall i s s', nth_error l i = Some s -> nth_error l (S i) = Some s' ->
                 (distance s <=? distance s') = true.
Proof.
  induction l as [|a l IH]; intros H i s s' Hs Hs'; [destruct i; discriminate|].
  destruct l as [|b l]; [destruct i; discriminate|].
  cbn [nondecreasing] in H. apply andb_prop in H. destruct H as [Hab Hl].
  destruct i as [|i].
  - cbn in Hs, Hs'. now inversion Hs; inversion Hs'; subst.
  - apply (IH Hl i); assumption.
Qed.

Lemma nondecreasing_push l x :
  nondecreasing l = true ->
  Forall (fun s => (distance s <=? distance x) = true) l ->
  nondecreasing (push l x) = true.
Proof.
  unfold push. induction l as [|a l IH]; intros H F; [reflexivity|].
  inversion F as [|? ? Ha Fl]; subst.
  destruct l as [|b l].
  - cbn. now rewrite Ha.
  - cbn [nondecreasing] in H. apply andb_prop in H. destruct H as [Hab Hl].
    change ((a :: b :: l) ++ [x]) with (a :: b :: (l ++ [x])).
    cbn [nondecreasing]. rewrite Hab. cbn [andb]. apply (IH Hl Fl).
Qed.

Lemma bounded_by_weaken lo hi profile :
  (lo <=? hi) = true -> bounded_by lo profile -> bounded_by hi profile.
Proof.
  intros H. unfold bounded_by. apply Forall_impl. intros s [O L]. split; [assumption|].
  now apply leb_trans with lo.
Qed.

(** *** The counter values *)

Lemma counters_sorted k : forall c,
  ordinary c ->
  StronglySorted leq (counters c k)
  /\ Forall (fun j => ordinary j /\ leq c j) (counters c k).
Proof.
  induction k as [|k IH]; intros c Hc; cbn [counters].
  - split; constructor.
  - assert (Hstep : leq c (c + 1)).
    { apply leb_trans with (c + 0); [assumption|now apply leb_add_zero|].
      now apply add_mono. }
    destruct (IH (c + 1) (leb_ordinary _ _ Hc Hstep)) as [S F].
    assert (F' : Forall (fun j => ordinary j /\ leq c j) (counters (c + 1) k)).
    { revert F. apply Forall_impl. intros j [Oj Lj]. split; [assumption|].
      now apply leb_trans with (c + 1). }
    split.
    + constructor; [assumption|]. revert F'. apply Forall_impl. now intros j [_ L].
    + constructor; [|assumption]. split; [assumption|now apply ordinary_refl].
Qed.

Lemma takeWhile_Forall {A} (f : A -> bool) (P : A -> Prop) l :
  Forall P l -> Forall (fun a => P a /\ f a = true) (takeWhile f l).
Proof.
  induction 1 as [|a l Ha Hl IH]; cbn [takeWhile]; [constructor|].
  destruct (f a) eqn:E; constructor; [now split|assumption].
Qed.

Lemma takeWhile_sorted {A} (f : A -> bool) (R : A -> A -> Prop) l :
  StronglySorted R l -> StronglySorted R (takeWhile f l).
Proof.
  induction 1 as [|a l Hl IH Ha]; cbn [takeWhile]; [constructor|].
  destruct (f a); constructor; [assumption|].
  pose proof (takeWhile_Forall f _ _ Ha) as F. revert F. apply Forall_impl. now intros b [? _].
Qed.

(** What the counter of [for (j = 1; j <= n; j++)] runs through. *)
Lemma for_le_spec n js :
  for_le n = Some js ->
  StronglySorted leq js
  /\ Forall (fun j => ordinary j /\ leq j n) js
  /\ (js <> [] -> (0 <? n) = true /\ is_finite n = true).
Proof.
  unfold for_le, trips_le.
  destruct (1 <=? n) eqn:H1; [destruct (two53 <=? n) eqn:H2; [discriminate|]|];
    cbn [option_map]; intros E; inversion E; subst; clear E.
  - destruct (counters_sorted (Z.to_nat (floorZ n)) 1 eq_refl) as [S F].
    repeat split.
    + now apply takeWhile_sorted.
    + pose proof (takeWhile_Forall (fun k => k <=? n) _ _ F) as F'.
      revert F'. apply Forall_impl. now intros j [[O _] L].
    + now apply (below_two53 n).
    + now apply (below_two53 n).
  - cbn [counters takeWhile Z.to_nat]. split; [constructor|]. split; [constructor|].
    intros N. now contradiction N.
Qed.

(** *** One segment *)

Section Segment.

Variables acc seg n : float.
Hypothesis acc_ordinary : ordinary acc.
Hypothesis seg_ordinary : ordinary seg.
Hypothesis seg_finite : is_finite seg = true.
Hypothesis n_positive : (0 <? n) = true.
Hypothesis n_finite : is_finite n = true.

Lemma fraction_ordinary j : ordinary j -> leq j n -> ordinary (j / n).
Proof.
  intros Oj Lj. unfold ordinary. rewrite <- (zero_div n n_positive n_finite) at 1.
  apply div_mono; try assumption. reflexivity.
  now apply leb_finite with n.
Qed.

Lemma fraction_le_one j : ordinary j -> leq j n -> leq (j / n) 1.
Proof.
  intros Oj Lj. unfold leq.
  rewrite <- (div_self n (positive_usable n n_positive n_finite)).
  now apply div_mono.
Qed.

Lemma fraction_finite j : ordinary j -> leq j n -> is_finite (j / n) = true.
Proof.
  intros Oj Lj. apply leb_finite with 1; [now apply fraction_ordinary|now apply fraction_le_one|reflexivity].
Qed.

Lemma advance_ordinary j : ordinary j -> leq j n -> ordinary (seg * (j / n)).
Proof.
  intros Oj Lj. apply leb_ordinary with (seg * 0); [now apply mul_zero_ordinary|].
  apply mul_mono_r; try assumption; [reflexivity|now apply fraction_ordinary|now apply fraction_finite].
Qed.

Lemma start_ordinary : ordinary (acc * 1000).
Proof.
  apply leb_ordinary with (0 * 1000); [reflexivity|].
  apply mul_mono_l; try reflexivity. assumption.
Qed.

Lemma position_lower j :
  ordinary j -> leq j n -> leq acc (acc + seg * (j / n)).
Proof.
  intros Oj Lj. apply leb_trans with (acc + 0); [assumption|now apply leb_add_zero|].
  apply add_mono; [assumption|reflexivity|]. now apply advance_ordinary.
Qed.

Lemma sampleDistance_lower j :
  ordinary j -> leq j n -> leq (acc * 1000) (sampleDistance acc seg n j).
Proof.
  intros Oj Lj. unfold sampleDistance. apply mul_mono_l; try reflexivity; [assumption|].
  now apply position_lower.
Qed.

Lemma sampleDistance_upper j :
  ordinary j -> leq j n -> leq (sampleDistance acc seg n j) ((acc + seg) * 1000).
Proof.
  intros Oj Lj. unfold sampleDistance. apply mul_mono_l; try reflexivity.
  - apply leb_ordinary with acc; [assumption|now apply position_lower].
  - apply add_mono; [assumption|now apply advance_ordinary|].
    rewrite <- (mul_one_r seg) at 2.
    apply mul_mono_r; try assumption; [now apply fraction_ordinary|now apply fraction_le_one|reflexivity].
Qed.

Lemma sampleDistance_mono j j' :
  ordinary j -> leq j j' -> leq j' n ->
  leq (sampleDistance acc seg n j) (sampleDistance acc seg n j').
Proof.
  intros Oj L L'. pose proof (leb_ordinary _ _ Oj L) as Oj'.
  assert (Lj : leq j n) by now apply leb_trans with j'.
  unfold sampleDistance. apply mul_mono_l; try reflexivity.
  - apply leb_ordinary with acc; [assumption|now apply position_lower].
  - apply add_mono; [assumption|now apply advance_ordinary|].
    apply mul_mono_r; try assumption; [now apply fraction_ordinary| |now apply fraction_finite].
    apply div_mono; try assumption. now apply leb_finite with n.
Qed.

End Segment.

Lemma whole_sf_scaled m k z :
  (0 <= k)%Z -> Zpos m = (z * 2 ^ k)%Z -> whole_sf (S754_finite false m (- k)) z.
Proof.
  intros Hk H. exists m, (- k)%Z. split; [reflexivity|].
  rewrite H, mult_IZR, <- bpow_IZR, Rmult_assoc, <- bpow_add by assumption.
  replace (k + - k)%Z with 0%Z by lia. rewrite bpow_0. ring.
Qed.

Lemma whole_one : whole 1 1.
Proof. apply (whole_sf_scaled _ 52); [lia|reflexivity]. Qed.

Lemma whole_two : whole 2 2.
Proof. apply (whole_sf_scaled _ 51); [lia|reflexivity]. Qed.

Lemma whole_two53 : whole two53 (2 ^ 53).
Proof. apply (whole_sf_shift 4503599627370496 1). lia. Qed.

Lemma whole_fin x z : whole x z -> sf_fin (Prim2SF x) = true.
Proof.
  intros (m & e & E & _). pose proof (Prim2SF_valid x) as V. rewrite E in *. exact V.
Qed.

Lemma whole_pos x z : whole x z -> (0 < z)%Z.
Proof.
  intros (m & e & _ & H). apply lt_IZR. rewrite <- H.
  pose proof (bpow_pos e). assert (0 < IZR (Zpos m))%R by (apply IZR_lt; lia).
  now apply Rmult_lt_0_compat.
Qed.

Lemma whole_inj x y z : whole x z -> whole y z -> x = y.
Proof.
  intros Hx Hy. apply Prim2SF_inj.
  apply (whole_sf_inj _ _ z); try assumption; now apply (whole_fin _ z).
Qed.

Lemma whole_succ x z : whole x z -> (z + 1 < 2 ^ 53)%Z -> whole (x + 1) (z + 1).
Proof.
  intros Hx H. unfold whole. rewrite add_spec.
  now apply whole_sf_add; [|apply whole_one|].
Qed.

Lemma whole_leb x y a b : whole x a -> whole y b -> (x <=? y) = (a <=? b)%Z.
Proof.
  intros Hx Hy. rewrite leb_spec.
  apply whole_sf_leb; try assumption; [now apply (whole_fin _ a)|now apply (whole_fin _ b)].
Qed.

Lemma whole_floorZ x z : whole x z -> floorZ x = z.
Proof.
  intros (m & e & E & H). unfold floorZ. rewrite E. now apply whole_sf_floor.
Qed.

Lemma whole_usable x z : whole x z -> usable x = true.
Proof.
  intros (m & e & E & _). unfold usable. rewrite is_finite_SF, eqb_zero_SF, E. reflexivity.
Qed.

Lemma whole_below x z : whole x z -> (two53 <=? x) = false -> (z < 2 ^ 53)%Z.
Proof.
  intros Hx H. rewrite (whole_leb _ _ _ _ whole_two53 Hx) in H.
  now apply Z.leb_gt in H.
Qed.

(** *** The counter reaches a whole bound *)

Lemma counters_reach k : forall c z n N,
  whole c z -> whole n N -> (z + Z.of_nat k = N + 1)%Z -> (N < 2 ^ 53)%Z -> (0 < k)%nat ->
  exists js, takeWhile (fun j => j <=? n) (counters c k) = js ++ [n].
Proof.
  induction k as [|k IH]; intros c z n N Hc Hn E B P; [lia|].
  cbn [counters takeWhile]. rewrite (whole_leb _ _ _ _ Hc Hn).
  destruct (Z.leb_spec z N) as [_|?]; [|lia].
  destruct k as [|k].
  - exists []. cbn. f_equal. apply (whole_inj _ _ z); [assumption|].
    replace z with N by lia. assumption.
  - destruct (IH (c + 1) (z + 1)%Z n N) as [js Hjs]; try assumption; try lia.
    + apply whole_succ; [assumption|lia].
    + exists (c :: js). cbn [app]. now rewrite Hjs.
Qed.

Lemma for_le_reaches n N :
  whole n N -> (two53 <=? n) = false -> exists js, for_le n = Some (js ++ [n]).
Proof.
  intros Hn H. pose proof (whole_pos _ _ Hn) as P.
  pose proof (whole_below _ _ Hn H) as B.
  unfold for_le, trips_le. rewrite (whole_leb _ _ _ _ whole_one Hn), H.
  destruct (Z.leb_spec 1 N) as [_|?]; [|lia].
  cbn [option_map]. rewrite (whole_floorZ _ _ Hn).
  destruct (counters_reach (Z.to_nat N) 1 1%Z n N) as [js Hjs];
    try assumption; try lia; [apply whole_one|].
  exists js. now rewrite Hjs.
Qed.

(** *** The number of samples of a segment is whole *)

Lemma finite_not_nan x s m e : Prim2SF x = S754_finite s m e -> is_nan x = false.
Proof.
  intros E. unfold is_nan. rewrite eqb_spec, E. unfold SFeqb.
  now rewrite SFcompare_refl.
Qed.

Lemma ordinary_not_nan x : ordinary x -> is_nan x = false.
Proof.
  rewrite ordinary_SF. intros H. unfold is_nan. rewrite eqb_spec. unfold SFeqb.
  rewrite SFcompare_refl; [reflexivity|]. intros E. rewrite E in H. discriminate.
Qed.

Lemma Math_max_two c :
  is_nan c = false -> Math_max 2 c = c \/ Math_max 2 c = 2.
Proof.
  intros H. unfold Math_max. rewrite H. cbn [orb is_nan].
  change (is_nan 2) with false. cbn [orb].
  destruct (2 <? c); [now left|]. destruct (c <? 2); now right.
Qed.

Lemma Math_max_two_cases c :
  is_nan c = false ->
  Math_max 2 c = 2 \/ (Math_max 2 c = c /\ (2 <? c) = true).
Proof.
  intros H. unfold Math_max. rewrite H. change (is_nan 2) with false. cbn [orb].
  destruct (2 <? c); [now right|]. destruct (c <? 2); now left.
Qed.

(** [Math.ceil] of an ordinary number is that number when it has no
    fractional bits, and a positive whole number otherwise. *)
Lemma Math_ceil_shape y :
  ordinary y ->
  (Math_ceil y = y
   /\ match Prim2SF y with
      | S754_finite _ _ e => (0 <= e)%Z
      | _ => True
      end)
  \/ exists K, whole (Math_ceil y) K.
Proof.
  intros Oy. pose proof Oy as S. rewrite ordinary_SF in S.
  unfold Math_ceil, Math_floor. rewrite opp_spec.
  destruct (Prim2SF y) as [s|[|]| |[|] m e] eqn:E; try discriminate; cbn [SFopp].
  - left. split; [apply opp_involutive|exact I].
  - left. split; [apply opp_involutive|exact I].
  - destruct (Z.leb_spec 0 e) as [He|He]; [left; split; [apply opp_involutive|assumption]|].
    right. cbn [sf_ord negb andb] in S. destruct (bounded_spec m e S) as (_ & D & _ & _).
    unfold floorZ. rewrite opp_spec, E. cbn [SFopp negb].
    destruct (Z.leb_spec 0 e) as [?|_]; [lia|]. cbv beta iota zeta.
    set (k := Z.shiftr (Zneg m) (- e)).
    assert (Hk : (- Zpos m <= k < 0)%Z).
    { unfold k. rewrite Z.shiftr_div_pow2 by lia.
      assert (P : (0 < 2 ^ (- e))%Z) by (apply Z.pow_pos_nonneg; lia).
      split.
      - apply Z.div_le_lower_bound; [assumption|].
        change (Zneg m) with (- Zpos m)%Z. nia.
      - apply Z.div_lt_upper_bound; [assumption|]. lia. }
    unfold of_Z. destruct (Z.ltb_spec k 0) as [_|?]; [|lia].
    rewrite opp_involutive. exists (- k)%Z. unfold whole.
    rewrite of_uint63_spec, Uint63.of_Z_spec.
    pose proof (digits_upper m) as U.
    assert (B : (Zpos m < 2 ^ 53)%Z).
    { apply Z.lt_le_trans with (2 ^ Zpos (digits2_pos m))%Z; [assumption|].
      apply Z.pow_le_mono_r; lia. }
    rewrite Z.mod_small by (change Uint63.wB with (2 ^ 63)%Z; lia).
    destruct (- k)%Z as [|p|p] eqn:Ek; try lia.
    cbn [binary_normalize]. apply binary_round_whole; [lia|].
    rewrite bpow_0. ring.
Qed.

Lemma segmentSamples_whole y :
  ordinary y -> (two53 <=? Math_max 2 (Math_ceil y)) = false ->
  exists N, whole (Math_max 2 (Math_ceil y)) N.
Proof.
  intros Oy H.
  destruct (Math_ceil_shape y Oy) as [[Ec Sh]|[K HK]].
  - rewrite Ec in *. pose proof (ordinary_not_nan y Oy) as Ny.
    destruct (Math_max_two_cases y Ny) as [E2|[Em G]].
    + rewrite E2. exists 2%Z. apply whole_two.
    + rewrite Em in *.
      rewrite ordinary_SF in Oy. rewrite ltb_spec in G. rewrite leb_spec, SF_two53 in H.
      unfold whole.
      destruct (Prim2SF y) as [s|[|]| |[|] m e]; try discriminate.
      exists (Zpos m * 2 ^ e)%Z. now apply whole_sf_shift.
  - destruct HK as (m & e & E & V). pose proof (finite_not_nan _ _ _ _ E) as Nc.
    destruct (Math_max_two _ Nc) as [-> | ->].
    + exists K, m, e. now split.
    + exists 2%Z. apply whole_two.
Qed.

Lemma div_ordinary a b :
  ordinary a -> is_finite a = true -> (0 <? b) = true -> ordinary (a / b).
Proof.
  intros Oa Fa Pb. pose proof (ordinary_fin _ Oa Fa) as F.
  rewrite ltb_zero_l in Pb. unfold ordinary. rewrite leb_spec, div_spec, SF_zero.
  destruct (Prim2SF a) as [sa|[|]| |[|] ma ea]; try discriminate;
    destruct (Prim2SF b) as [sb|[|]| |[|] mb eb]; try discriminate; try reflexivity.
  apply zero_leb_SFdiv_finite.
Qed.

Lemma mul_pos_ordinary k x :
  (0 <? k) = true -> is_finite k = true -> ordinary x -> ordinary (k * x).
Proof.
  intros Pk Fk Ox. destruct (positive_SF k Pk Fk) as (m & e & E & B).
  pose proof Ox as S. rewrite ordinary_SF in S.
  unfold ordinary. rewrite leb_spec, mul_spec, SF_zero, E.
  apply (SFmul_mono_pos m e (S754_zero false) (Prim2SF x) B eq_refl S).
  now apply zero_leb.
Qed.

Lemma add_ordinary a b : ordinary a -> ordinary b -> ordinary (a + b).
Proof.
  intros Oa Ob. apply leb_ordinary with (a + 0); [|now apply add_mono].
  apply leb_ordinary with a; [assumption|now apply leb_add_zero].
Qed.

Lemma ordinary_positive t : ordinary t -> (t =? 0) = false -> (0 <? t) = true.
Proof.
  rewrite ordinary_SF, eqb_zero_SF, ltb_zero_l.
  destruct (Prim2SF t) as [s|[|]| |[|] m e]; simpl; intros; try discriminate; reflexivity.
Qed.

Lemma for_le_below n js : for_le n = Some js -> (two53 <=? n) = false.
Proof.
  unfold for_le, trips_le. destruct (two53 <=? n) eqn:H; [|reflexivity].
  assert (H1 : (1 <=? n) = true) by (apply leb_trans with two53; [reflexivity|reflexivity|assumption]).
  rewrite H1. discriminate.
Qed.

Lemma consecutive_snoc {A} (prefix : list A) p q :
  consecutive (prefix ++ [p; q]) = consecutive (prefix ++ [p]) ++ [(p, q)].
Proof.
  induction prefix as [|a rest IH]; [reflexivity|].
  destruct rest as [|b rest]; [reflexivity|].
  change ((a :: b :: rest) ++ [p; q]) with (a :: (b :: rest) ++ [p; q]).
  change ((a :: b :: rest) ++ [p]) with (a :: (b :: rest) ++ [p]).
  change ((b :: rest) ++ [p; q]) with (b :: rest ++ [p; q]) in *.
  change ((b :: rest) ++ [p]) with (b :: rest ++ [p]) in *.
  cbn [consecutive] in *. cbn [app]. f_equal. exact IH.
Qed.

End OrderFacts.

(** * The sample counter of a segment *)

Module CountFacts.
Import FloatFacts RoundingFacts OrderFacts.

Lemma of_Z_whole z : (0 < z < 2 ^ 53)%Z -> whole (of_Z z) z.
Proof.
  intros Hz. unfold of_Z. destruct (Z.ltb_spec z 0) as [?|_]; [lia|].
  unfold whole. rewrite of_uint63_spec, Uint63.of_Z_spec.
  rewrite Z.mod_small by (change Uint63.wB with (2 ^ 63)%Z; lia).
  destruct z as [|p|p]; try lia.
  cbn [binary_normalize]. apply binary_round_whole; [lia|].
  rewrite bpow_0. ring.
Qed.

Lemma counters_whole k : forall c z,
  whole c z -> (z + Z.of_nat k <= 2 ^ 53)%Z ->
  counters c k = map (fun i => of_Z (Z.of_nat i)) (seq (Z.to_nat z) k).
Proof.
  induction k as [|k IH]; intros c z W H; [reflexivity|].
  pose proof (whole_pos _ _ W) as P.
  cbn [counters seq map]. f_equal.
  - apply (whole_inj _ _ z W). rewrite Z2Nat.id by lia. apply of_Z_whole. lia.
  - destruct k as [|k']; [reflexivity|].
    replace (S (Z.to_nat z)) with (Z.to_nat (z + 1)) by lia.
    apply IH; [apply whole_succ; [assumption|lia]|lia].
Qed.

Lemma takeWhile_all {A} (f : A -> bool) l :
  Forall (fun a => f a = true) l -> takeWhile f l = l.
Proof.
  induction 1 as [|a l Ha _ IH]; [reflexivity|]. cbn [takeWhile]. now rewrite Ha, IH.
Qed.

(** Below 2^53 the loop [for (j = 1; j <= n; j++)] takes the values 1 to
    [n]. *)
Lemma for_le_whole n N :
  whole n N -> (N < 2 ^ 53)%Z ->
  for_le n = Some (map (fun i => of_Z (Z.of_nat i)) (seq 1 (Z.to_nat (floorZ n)))).
Proof.
  intros W H. pose proof (whole_pos _ _ W) as P.
  unfold for_le, trips_le.
  rewrite (whole_leb _ _ _ _ whole_one W), (whole_leb _ _ _ _ whole_two53 W),
    (whole_floorZ _ _ W).
  destruct (Z.leb_spec 1 N) as [_|?]; [|lia].
  destruct (Z.leb_spec (2 ^ 53) N) as [?|_]; [lia|].
  cbn [option_map]. f_equal.
  rewrite (counters_whole _ 1 1 whole_one) by lia.
  change (Z.to_nat 1) with 1%nat.
  apply takeWhile_all. apply Forall_map, Forall_forall. intros i Hi.
  apply in_seq in Hi.
  rewrite (whole_leb _ _ (Z.of_nat i) N); [apply Z.leb_le; lia| |assumption].
  apply of_Z_whole. lia.
Qed.

Lemma for_le_nan : for_le nan = Some [].
Proof. reflexivity. Qed.

(** [Math.ceil] of a number below zero is not above 2. *)
Lemma ceil_of_negative y : (0 <=? y) = false -> (2 <? Math_ceil y) = false.
Proof.
  intros H. rewrite leb_spec, SF_zero in H.
  unfold Math_ceil, Math_floor. rewrite opp_spec.
  destruct (Prim2SF y) as [s|[|]| |[|] m e] eqn:E; try (now destruct s); try discriminate;
    cbn [SFopp negb].
  - rewrite opp_involutive, ltb_spec, E. reflexivity.
  - rewrite opp_involutive, ltb_spec, E. reflexivity.
  - destruct (Z.leb_spec 0 e) as [He|He].
    + rewrite opp_involutive, ltb_spec, E. reflexivity.
    + pose proof (Prim2SF_valid y) as V. rewrite E in V. cbn [valid_binary] in V.
      pose proof (digits_upper m) as U.
      destruct (bounded_spec m e V) as (_ & D & _ & _).
      assert (B : (Zpos m < 2 ^ 53)%Z).
      { apply Z.lt_le_trans with (2 ^ Zpos (digits2_pos m))%Z; [assumption|].
        apply Z.pow_le_mono_r; lia. }
      unfold floorZ. rewrite opp_spec, E. cbn [SFopp negb].
      destruct (Z.leb_spec 0 e) as [?|_]; [lia|].
      rewrite Z.shiftr_div_pow2 by lia.
      set (K := (Zpos m / 2 ^ (- e))%Z).
      assert (P : (0 < 2 ^ (- e))%Z) by (apply Z.pow_pos_nonneg; lia).
      assert (HK : (0 <= K <= Zpos m)%Z).
      { unfold K. split; [apply Z.div_pos; lia|].
        apply Z.div_le_upper_bound; [assumption|]. nia. }
      destruct (Z.eq_dec K 0) as [->|NZ]; [reflexivity|].
      destruct (of_Z_whole K) as (m' & e' & E' & _); [lia|].
      rewrite ltb_spec, opp_spec, E'. reflexivity.
Qed.

(** The number of samples of a segment is NaN or a whole number. *)
Lemma count_shape y :
  (two53 <=? Math_max 2 (Math_ceil y)) = false ->
  Math_max 2 (Math_ceil y) = nan
  \/ exists N, whole (Math_max 2 (Math_ceil y)) N /\ (N < 2 ^ 53)%Z.
Proof.
  intros H. destruct (is_nan (Math_ceil y)) eqn:Nc.
  - left. unfold Math_max. rewrite Nc, orb_true_r. reflexivity.
  - right. destruct (Math_max_two_cases _ Nc) as [E|[E L]].
    + rewrite E. exists 2%Z. split; [exact whole_two|lia].
    + destruct (0 <=? y) eqn:Oy.
      * destruct (segmentSamples_whole y Oy H) as [N W].
        exists N. split; [assumption|]. now apply (whole_below _ _ W).
      * rewrite (ceil_of_negative y Oy) in L. discriminate.
Qed.

Lemma floorZ_nan : floorZ nan = 0%Z.
Proof. reflexivity. Qed.

(** The values the sample counter of a segment takes. *)
Lemma for_le_count y :
  (two53 <=? Math_max 2 (Math_ceil y)) = false ->
  for_le (Math_max 2 (Math_ceil y))
  = Some (map (fun i => of_Z (Z.of_nat i))
              (seq 1 (Z.to_nat (floorZ (Math_max 2 (Math_ceil y)))))).
Proof.
  intros H. destruct (count_shape y H) as [->|(N & W & B)]; [reflexivity|].
  now apply (for_le_whole _ N).
Qed.

End CountFacts.

(** * The geodesic helpers in exact arithmetic *)

Module ExactFacts.
Import OrderFacts.

Local Open Scope R_scope.

Lemma exact_distance_symmetric atan2 A B :
  Exact.haversineDistance atan2 A B = Exact.haversineDistance atan2 B A.
Proof.
  unfold Exact.haversineDistance. cbv zeta.
  replace ((snd A - snd B) * PI / 180 / 2) with (- ((snd B - snd A) * PI / 180 / 2)) by lra.
  replace ((fst A - fst B) * PI / 180 / 2) with (- ((fst B - fst A) * PI / 180 / 2)) by lra.
  rewrite !sin_neg.
  set (u := sin ((snd B - snd A) * PI / 180 / 2)).
  set (v := sin ((fst B - fst A) * PI / 180 / 2)).
  set (c1 := cos (snd A * PI / 180)). set (c2 := cos (snd B * PI / 180)).
  replace (- u * - u + - v * - v * c2 * c1) with (u * u + v * v * c1 * c2) by ring.
  reflexivity.
Qed.

Lemma area_pathSum coordinates :
  Exact.calculatePolygonArea coordinates
  = if (length coordinates <? 3)%nat then 0
    else Rabs (Exact.pathSum (ringEdges coordinates) 0 * (6371e3 * 6371e3) / 2.0).
Proof.
  unfold Exact.calculatePolygonArea, Exact.pathSum. destruct (_ <? 3)%nat; [reflexivity|].
  cbv zeta. f_equal. f_equal. f_equal. generalize 0.
  induction (ringEdges coordinates) as [|[p1 p2] edges IH]; intros start; [reflexivity|].
  cbn [fold_left]. rewrite IH. reflexivity.
Qed.

Lemma edgeTerm_swap p q : Exact.edgeTerm (q, p) = - Exact.edgeTerm (p, q).
Proof. unfold Exact.edgeTerm. ring. Qed.

Lemma pathSum_start edges :
  forall start, Exact.pathSum edges start = start + Exact.pathSum edges 0.
Proof.
  unfold Exact.pathSum.
  induction edges as [|e edges IH]; intros start; cbn [fold_left]; [ring|].
  rewrite IH, (IH (0 + _)). ring.
Qed.

Lemma pathSum_app l1 l2 :
  Exact.pathSum (l1 ++ l2) 0 = Exact.pathSum l1 0 + Exact.pathSum l2 0.
Proof. unfold Exact.pathSum. rewrite fold_left_app. apply pathSum_start. Qed.

Lemma pathSum_single e : Exact.pathSum [e] 0 = Exact.edgeTerm e.
Proof. unfold Exact.pathSum. cbn [fold_left]. ring. Qed.

Lemma consecutive_end {A} (l : list A) z a :
  consecutive ((l ++ [z]) ++ [a]) = consecutive (l ++ [z]) ++ [(z, a)].
Proof. rewrite <- app_assoc. apply consecutive_snoc. Qed.

(** Walking a path backwards negates its sum. *)
Lemma pathSum_rev l :
  Exact.pathSum (consecutive (rev l)) 0 = - Exact.pathSum (consecutive l) 0.
Proof.
  induction l as [|a l IH]; [unfold Exact.pathSum; cbn; ring|].
  destruct l as [|b l]; [unfold Exact.pathSum; cbn; ring|].
  change (rev (a :: b :: l)) with ((rev l ++ [b]) ++ [a]).
  rewrite consecutive_end, pathSum_app.
  change (rev l ++ [b]) with (rev (b :: l)). rewrite IH.
  change (consecutive (a :: b :: l)) with ([(a, b)] ++ consecutive (b :: l)).
  rewrite pathSum_app, !pathSum_single, edgeTerm_swap. ring.
Qed.

(** A ring is the open path along its vertices and the closing edge. *)
Lemma ringEdges_closing {A} (l : list A) a z :
  ringEdges (a :: l ++ [z]) = consecutive (a :: l ++ [z]) ++ [(z, a)].
Proof.
  unfold ringEdges. change (a :: l ++ [z]) with ((a :: l) ++ [z]).
  apply consecutive_end.
Qed.

Lemma ringSum_rev l :
  Exact.pathSum (ringEdges (rev l)) 0 = - Exact.pathSum (ringEdges l) 0.
Proof.
  destruct l as [|a l]; [unfold Exact.pathSum; cbn; ring|].
  destruct (exists_last (l := a :: l) ltac:(discriminate)) as (l0 & z & E).
  rewrite E. clear E a l. destruct l0 as [|a0 l0].
  - (* a single vertex *)
    cbn [app rev ringEdges consecutive]. rewrite pathSum_single.
    unfold Exact.edgeTerm. ring.
  - assert (E : rev ((a0 :: l0) ++ [z]) = z :: rev l0 ++ [a0])
      by (rewrite rev_unit; reflexivity).
    rewrite E, (ringEdges_closing (rev l0) z a0). rewrite <- E.
    change ((a0 :: l0) ++ [z]) with (a0 :: l0 ++ [z]).
    rewrite (ringEdges_closing l0 a0 z), !pathSum_app, pathSum_rev, !pathSum_single.
    rewrite (edgeTerm_swap z a0). ring.
Qed.

Lemma exact_area_winding ring :
  Exact.calculatePolygonArea (rev ring) = Exact.calculatePolygonArea ring.
Proof.
  rewrite !area_pathSum, length_rev. destruct (_ <? 3)%nat; [reflexivity|].
  rewrite ringSum_rev.
  replace (- Exact.pathSum (ringEdges ring) 0 * (6371e3 * 6371e3) / 2.0)
    with (- (Exact.pathSum (ringEdges ring) 0 * (6371e3 * 6371e3) / 2.0))
    by (unfold Rdiv; ring).
  apply Rabs_Ropp.
Qed.

End ExactFacts.

(** * GeodesicMath *)

Section Geodesic.
Import FloatFacts.

Context {M : MathLib}.

Lemma haversine_terms A B :
  haversineDistance A B =
  6371 * (2 * Math_atan2 (Math_sqrt (latTerm A B + lonTerm A B))
                         (Math_sqrt (1 - (latTerm A B + lonTerm A B)))).
Proof. reflexivity. Qed.

Lemma latTerm_sym A B : sin_odd_law M -> latTerm A B = latTerm B A.
Proof.
  intros Odd. unfold latTerm. cbv zeta.
  destruct (sub_swap (snd A) (snd B)) as [H|[H1 H2]].
  - rewrite H, mul_opp_l, !div_opp_l, Odd. apply mul_opp_opp.
  - now rewrite H1, H2.
Qed.

Lemma haversine_self A :
  Math_sin 0 = 0 -> Math_atan2 0 1 = 0 ->
  is_finite (fst A) = true -> is_finite (snd A) = true ->
  is_finite (Math_cos (snd A * Math_PI / 180)) = true ->
  haversineDistance A A = 0.
Proof.
  intros Hsin Hatan Hlon Hlat Hcos. rewrite haversine_terms.
  unfold latTerm, lonTerm. cbv zeta. rewrite !sub_self by assumption.
  change (0 * Math_PI / 180 / 2) with 0. rewrite Hsin. change (0 * 0) with 0.
  rewrite zero_add_zero.
  - change (Math_sqrt 0) with 0. change (Math_sqrt (1 - 0)) with 1. now rewrite Hatan.
  - apply zero_mul_finite; [|assumption]. now apply zero_mul_finite.
Qed.

(** C9 (amended). The distance from a finite coordinate to itself is
    exactly 0 (the cosine of its latitude being a finite number), and
    [distance(A,B) = distance(B,A)] holds whenever the longitude term of the
    haversine sum, the only part evaluated in an order that depends on the
    order of the arguments, rounds to the same float both ways; in exact
    arithmetic the distance is symmetric for all coordinates. *)
Theorem distance_symmetry :
  sin_odd_law M -> Math_sin 0 = 0 -> Math_atan2 0 1 = 0 ->
  (forall A, is_finite (fst A) = true -> is_finite (snd A) = true ->
             is_finite (Math_cos (snd A * Math_PI / 180)) = true ->
             haversineDistance A A = 0)
  /\ (forall A B, lonTerm A B = lonTerm B A ->
                  haversineDistance A B = haversineDistance B A)
  /\ (forall atan2 A B,
        Exact.haversineDistance atan2 A B = Exact.haversineDistance atan2 B A).
Proof.
  intros Odd Hsin Hatan. split; [|split].
  - intros A. now apply haversine_self.
  - intros A B H. now rewrite !haversine_terms, H, (latTerm_sym A B Odd).
  - exact ExactFacts.exact_distance_symmetric.
Qed.

(** C8 (amended). The area is never negative (it is at least 0, or NaN),
    whatever the winding of the ring, and a ring of fewer than 3 vertices
    has area 0; in exact arithmetic the two windings of a ring have the
    same area. *)
Theorem area_never_negative :
  (forall ring, nonneg (calculatePolygonArea ring))
  /\ (forall ring, (length ring < 3)%nat -> calculatePolygonArea ring = 0)
  /\ (forall ring, Exact.calculatePolygonArea (rev ring) = Exact.calculatePolygonArea ring).
Proof.
  split; [|split]; intros ring.
  - unfold calculatePolygonArea. destruct (_ <? 3)%nat; [reflexivity|]. apply abs_nonneg.
  - unfold calculatePolygonArea. intros H. apply Nat.ltb_lt in H. now rewrite H.
  - apply ExactFacts.exact_area_winding.
Qed.
End Geodesic.

(** * DemSampler *)

Section Sampler.

Import FloatFacts.

(** The sampler reads the cell of [resolvedIndex] and filters the
    no-data value. *)
Lemma getElevationFromDem_resolved lon lat dem :
  getElevationFromDem lon lat dem =
  match resolvedIndex lon lat dem with
  | None => Null
  | Some index =>
      let elevation := typed_get (values dem) index in
      if strict_eq elevation (noDataValue dem) then Null else elevation
  end.
Proof.
  unfold getElevationFromDem, resolvedIndex.
  destruct (_ || _ || _ || _); [reflexivity|].
  destruct (match projConverter dem with Some conv => conv (lon, lat) | None => (lon, lat) end)
    as [projX projY].
  destruct (bbox dem) as [minX minY maxX maxY].
  destruct (_ || _ || _ || _); [reflexivity|].
  now destruct (_ || _ || _ || _).
Qed.

(** A number other than NaN is [===] to itself. *)
Lemma eqb_self x : is_nan x = false -> (x =? x) = true.
Proof. unfold is_nan. now destruct (x =? x). Qed.

(** NaN is [===] to nothing. *)
Lemma nan_never_equal x y : is_nan y = true -> (x =? y) = false.
Proof.
  unfold is_nan. rewrite !eqb_spec. unfold SFeqb. intros H.
  destruct (Prim2SF y) as [s|s| |s m e] eqn:E.
  - rewrite FloatFacts.SFcompare_refl in H by discriminate. discriminate.
  - rewrite FloatFacts.SFcompare_refl in H by discriminate. discriminate.
  - now destruct (Prim2SF x).
  - rewrite FloatFacts.SFcompare_refl in H by discriminate. discriminate.
Qed.

(** C6. No-data isolation. When the no-data value is a number other than
    NaN, a query that resolves to a cell whose stored value equals it (the
    same number, or [===] to it as the source compares) returns null, and
    no number the sampler returns is the no-data value. When the no-data
    value is NaN the comparison never succeeds: every number stored in the
    resolved cell is returned, a NaN cell included. *)
Theorem nodata_isolation lon lat dem nd :
  noDataValue dem = Num nd ->
  (is_nan nd = false ->
   (forall index v,
       resolvedIndex lon lat dem = Some index ->
       typed_get (values dem) index = Num v ->
       v = nd \/ (v =? nd) = true ->
       getElevationFromDem lon lat dem = Null)
   /\ (forall x, getElevationFromDem lon lat dem = Num x ->
                 x <> nd /\ (x =? nd) = false))
  /\ (is_nan nd = true ->
      forall index v,
        resolvedIndex lon lat dem = Some index ->
        typed_get (values dem) index = Num v ->
        getElevationFromDem lon lat dem = Num v).
Proof.
  intros Hnd. rewrite getElevationFromDem_resolved, Hnd. split.
  - intros Hn. split.
    + intros index v -> Hv Heq. cbn zeta. rewrite Hv. cbn [strict_eq].
      assert (E : (v =? nd) = true).
      { destruct Heq as [->|Heq]; [now apply eqb_self|exact Heq]. }
      now rewrite E.
    + intros x. destruct (resolvedIndex lon lat dem) as [index|]; [|discriminate].
      cbn zeta. destruct (typed_get (values dem) index) as [| |v]; simpl; try discriminate.
      destruct (v =? nd) eqn:E; [discriminate|]. intros [= <-]. split; [|exact E].
      intros Heq. rewrite Heq, (eqb_self nd Hn) in E. discriminate.
  - intros Hn index v -> Hv. cbn zeta. rewrite Hv. cbn [strict_eq].
    now rewrite (nan_never_equal v nd Hn).
Qed.

(** The fraction of the extent reached at the far edge is exactly one,
    and scaling an integral dimension by it gives the dimension back. *)
Lemma edge_index (lo hi dim : float) :
  usable (hi - lo) = true -> integral dim ->
  geb (Math_floor ((hi - lo) / (hi - lo) * dim)) dim = true.
Proof.
  intros Hu [Hn Hf]. rewrite div_self, mul_one_l, Hf by assumption.
  now apply leb_refl.
Qed.

(** C10. The eastern and southern edges of the raster extent are
    excluded: a query that passes both bounding-box tests and whose
    projected X equals [maxX], or whose projected Y equals [minY], yields
    null, provided the extent of the bounding box is a finite non-zero
    number along that axis and the raster dimension is integral. *)
Theorem edge_excluded lon lat dem :
  insideWgs84Bbox lon lat dem = true ->
  insideBbox (projected lon lat dem) dem = true ->
  integral (width dem) -> integral (height dem) ->
  (fst (projected lon lat dem) = b2 (bbox dem)
   /\ usable (b2 (bbox dem) - b0 (bbox dem)) = true)
  \/ (snd (projected lon lat dem) = b1 (bbox dem)
      /\ usable (b3 (bbox dem) - b1 (bbox dem)) = true) ->
  getElevationFromDem lon lat dem = Null.
Proof.
  unfold insideWgs84Bbox, insideBbox, projected, getElevationFromDem.
  intros Hw Hb Hwi Hhe Hedge.
  apply negb_true_iff in Hw. rewrite Hw.
  destruct (match projConverter dem with Some conv => conv (lon, lat) | None => (lon, lat) end)
    as [projX projY].
  destruct (bbox dem) as [minX minY maxX maxY]. simpl in *.
  apply negb_true_iff in Hb. rewrite Hb.
  destruct Hedge as [[-> Hu]|[-> Hu]].
  - rewrite (edge_index minX maxX (width dem) Hu Hwi).
    now rewrite orb_true_r.
  - rewrite (edge_index minY maxY (height dem) Hu Hhe).
    now rewrite !orb_true_r.
Qed.

End Sampler.

(** * ProfileExtractor *)

Section Profile.
Import FloatFacts CountFacts.

Context {M : MathLib}.

Lemma for_le_returns n : (two53 <=? n) = false -> exists js, for_le n = Some js.
Proof.
  intros H. unfold for_le, trips_le. rewrite H.
  destruct (1 <=? n); eexists; reflexivity.
Qed.

Lemma sampleSegment_valid dem p q seg acc n profile j :
  Forall validSample profile ->
  Forall validSample (sampleSegment dem p q seg acc n profile j).
Proof.
  intros H. unfold sampleSegment. cbv zeta.
  destruct (not_null _) eqn:E; [|assumption].
  unfold push. apply Forall_app. split; [assumption|]. now repeat constructor.
Qed.

Lemma fold_sampleSegment_valid dem p q seg acc n js profile :
  Forall validSample profile ->
  Forall validSample (fold_left (sampleSegment dem p q seg acc n) js profile).
Proof.
  revert profile. induction js as [|j js IH]; intros profile H; [assumption|].
  simpl. apply IH. now apply sampleSegment_valid.
Qed.

Lemma walkSegments_returns dem samples total segs acc profile :
  Forall (fun seg => (two53 <=? segmentSamples samples total seg) = false) segs ->
  Forall validSample profile ->
  exists out,
    walkSegments dem samples total segs acc profile = Returns out
    /\ Forall validSample out.
Proof.
  revert acc profile. induction segs as [|[p q] segs IH]; intros acc profile Hb Hv.
  - exists profile. now split.
  - inversion Hb as [|? ? Hn Hb']; subst. simpl.
    destruct (for_le_returns _ Hn) as [js Hjs]. unfold segmentSamples in Hjs.
    cbn [fst snd] in Hjs. rewrite Hjs.
    apply IH; [assumption|]. now apply fold_sampleSegment_valid.
Qed.

Lemma collectProfile_returns coords dem samples :
  budgeted coords samples ->
  exists collected,
    collectProfile coords dem samples = Returns collected
    /\ Forall validSample collected.
Proof.
  intros Hb. unfold collectProfile. destruct coords as [|first rest].
  - exists []. now split.
  - apply walkSegments_returns; [exact Hb|].
    destruct (not_null _) eqn:E; now repeat constructor.
Qed.

(** The inner loop pushes what the sampler answers at the fractions of the
    segment and resolves. *)
Lemma fold_sampleSegment_answers dem a b d acc n js : forall profile,
  fold_left (sampleSegment dem a b d acc n) js profile
  = profile
    ++ filter (fun s => not_null (elevation s))
         (answers dem (map (fun t => ((acc + d * t) * 1000, interpolate (a, b) t))
                           (map (fun j => j / n) js))).
Proof.
  induction js as [|j js IH]; intros profile; [now rewrite app_nil_r|].
  cbn [fold_left]. rewrite IH. unfold sampleSegment, answers. cbv zeta.
  cbn [map filter elevation fst snd interpolate].
  destruct (not_null _); [|reflexivity].
  unfold push. now rewrite <- app_assoc.
Qed.

(** The outer loop pushes the valid samples of the segments, in order. *)
Lemma walkSegments_answers dem samples total segs : forall acc profile,
  Forall (fun seg => (two53 <=? segmentSamples samples total seg) = false) segs ->
  walkSegments dem samples total segs acc profile
  = Returns (profile
             ++ filter (fun s => not_null (elevation s))
                  (answers dem (segmentAttempts samples total segs acc))).
Proof.
  induction segs as [|[a b] segs IH]; intros acc profile F.
  - cbn. now rewrite app_nil_r.
  - inversion F as [|? ? Hb F']; subst. cbn [walkSegments]. cbv zeta.
    unfold segmentSamples in Hb. cbn [fst snd] in Hb.
    rewrite (for_le_count _ Hb), (IH _ _ F'), fold_sampleSegment_answers.
    cbn [segmentAttempts fst snd]. unfold answers, fractions, segmentSamples. cbn [fst snd].
    rewrite !map_app, filter_app, <- app_assoc, !map_map. reflexivity.
Qed.

(** What the extractor collects is the list of valid samples. *)
Lemma collectProfile_answers coords dem samples :
  budgeted coords samples ->
  collectProfile coords dem samples = Returns (validSamples coords dem samples).
Proof.
  intros B. unfold collectProfile, validSamples, attempts.
  destruct coords as [|first rest]; [reflexivity|]. cbv zeta.
  rewrite (walkSegments_answers _ _ _ _ _ _ B).
  cbn [answers map filter elevation fst snd].
  now destruct (not_null _).
Qed.

(** C5. When no segment is allotted 2^53 samples or more, the extractor
    returns what the specification describes: the samples attempted are the
    start vertex and, for each segment, one point per fraction [j / n];
    the valid ones are those where the sampler resolves. The extractor
    returns null exactly when the total length is zero or fewer than 2 of
    the attempted samples are valid, and otherwise it returns the valid
    samples in path order, at least 2 of them. *)
Theorem profile_outcome line dem samples :
  budgeted (line_coordinates line) samples ->
  getProfileFromDem line dem samples = Returns (extractProfile line dem samples)
  /\ (getProfileFromDem line dem samples = Returns None <->
      (calculateLineDistance (line_coordinates line) =? 0) = true
      \/ (length (validSamples (line_coordinates line) dem samples) < 2)%nat)
  /\ (forall profile,
        getProfileFromDem line dem samples = Returns (Some profile) ->
        profile = validSamples (line_coordinates line) dem samples
        /\ (2 <= length profile)%nat)
  /\ Forall validSample (validSamples (line_coordinates line) dem samples).
Proof.
  intros B.
  assert (V : Forall validSample (validSamples (line_coordinates line) dem samples)).
  { apply Forall_forall. intros x Hx. unfold validSamples in Hx.
    apply filter_In in Hx. exact (proj2 Hx). }
  cut (getProfileFromDem line dem samples = Returns (extractProfile line dem samples)
       /\ (getProfileFromDem line dem samples = Returns None <->
           (calculateLineDistance (line_coordinates line) =? 0) = true
           \/ (length (validSamples (line_coordinates line) dem samples) < 2)%nat)
       /\ (forall profile,
             getProfileFromDem line dem samples = Returns (Some profile) ->
             profile = validSamples (line_coordinates line) dem samples
             /\ (2 <= length profile)%nat)).
  { intros (H1 & H2 & H3). split; [exact H1|]. split; [exact H2|]. split; [exact H3|exact V]. }
  assert (E : getProfileFromDem line dem samples = Returns (extractProfile line dem samples)).
  { unfold getProfileFromDem, extractProfile. cbv zeta.
    rewrite (collectProfile_answers _ dem samples B).
    destruct (_ =? 0); [reflexivity|].
    set (valid := validSamples _ _ _).
    destruct (Nat.ltb_spec 1 (length valid)), (Nat.ltb_spec (length valid) 2);
      try reflexivity; lia. }
  split; [exact E|]. rewrite E. unfold extractProfile. cbv zeta.
  set (valid := validSamples _ _ _).
  destruct (calculateLineDistance _ =? 0).
  - split; [split; [now left|reflexivity]|discriminate].
  - destruct (Nat.ltb_spec (length valid) 2) as [L|L].
    + split; [split; [now right|reflexivity]|discriminate].
    + split.
      * split; [discriminate|]. intros [?|?]; [discriminate|lia].
      * intros profile [= <-]. now split.
Qed.

End Profile.

(** * VolumeEngine *)

Section Volume.

Import FloatFacts.

Context {M : MathLib}.

(** *** The sampling log *)

Lemma mapS_run {A B : Type} (f : A -> Sampling B) (l : list A) :
  mapS f l = (flat_map (fun a => fst (f a)) l, map (fun a => snd (f a)) l).
Proof.
  induction l as [|a l IH]; [reflexivity|].
  simpl. rewrite IH. unfold bind, ret. destruct (f a) as [log b]. simpl.
  now rewrite app_nil_r.
Qed.

Lemma foldS_ret {A S : Type} (f : S -> A -> Sampling S) (l : list A) (s : S) :
  (forall s' a, In a l -> f s' a = ret s') -> foldS f l s = ret s.
Proof.
  revert s. induction l as [|a l IH]; intros s H; [reflexivity|].
  simpl. rewrite (H s a) by now left. unfold bind, ret at 1.
  rewrite IH by (intros; apply H; now right). reflexivity.
Qed.

Lemma foldS_invariant {A S : Type} (P : S -> Prop) (f : S -> A -> Sampling S)
      (l : list A) (s : S) :
  (forall s' a, P s' -> P (snd (f s' a))) -> P s -> P (snd (foldS f l s)).
Proof.
  intros Hf. revert s. induction l as [|a l IH]; intros s Hs; [exact Hs|].
  simpl. unfold bind. specialize (Hf s a Hs). destruct (f s a) as [log s']. simpl in Hf.
  specialize (IH s' Hf). destruct (foldS f l s') as [log' s'']. exact IH.
Qed.

(** Step 1 queries the DEM once per ring vertex, in ring order. *)
Lemma perimeterPoints_run ring dem :
  perimeterPoints ring dem =
  (ring,
   filter (fun p => not_null (pelevation p))
          (map (fun c => mkPerimeter c (match projConverter dem with
                                        | Some conv => conv c
                                        | None => c
                                        end)
                                     (getElevationFromDem (fst c) (snd c) dem)) ring)).
Proof.
  unfold perimeterPoints. rewrite mapS_run. unfold bind, ret. simpl.
  rewrite app_nil_r. f_equal.
  induction ring as [|[lon lat] ring IH]; [reflexivity|].
  cbn [flat_map fst snd app]. now f_equal.
Qed.

Lemma perimeter_count ring dem :
  length (snd (perimeterPoints ring dem)) = length (filter (resolvable dem) ring).
Proof.
  rewrite perimeterPoints_run. unfold resolvable. cbn [snd].
  induction ring as [|c ring IH]; [reflexivity|]. cbn [map filter pelevation].
  destruct (not_null _); cbn [length]; now rewrite IH.
Qed.

(** C4. Fewer than 3 ring vertices with a resolvable elevation: the
    volume computation fails (null), whatever the method. *)
Theorem insufficient_perimeter polygon dem options :
  (length (filter (resolvable dem) (outer_ring polygon)) < 3)%nat ->
  volumeResult polygon dem options = Returns None.
Proof.
  intros H. unfold volumeResult, getVolumeFromDem.
  rewrite <- perimeter_count in H.
  destruct (perimeterPoints (outer_ring polygon) dem) as [log pts]. simpl in H.
  unfold bind. apply Nat.ltb_lt in H. rewrite H. reflexivity.
Qed.

(** C1 (amended). Method 'fixedElevation' without a value: the engine
    returns null, after having queried the DEM once for every ring vertex
    (and never for a grid cell). *)
Theorem fixed_elevation_missing polygon dem options :
  method options = fixedElevationMethod ->
  fixedElevation options = None ->
  getVolumeFromDem polygon dem options = (outer_ring polygon, Returns None).
Proof.
  intros Hm Hf. unfold getVolumeFromDem. rewrite perimeterPoints_run, Hm, Hf.
  unfold bind, ret. simpl fitBasePlane.
  destruct (_ <? 3)%nat; now rewrite app_nil_r.
Qed.

(** *** Grid integration without a bounding box *)

Lemma isPointInPolygon_above x y vs :
  (forall yi, gtb yi y = false) -> isPointInPolygon (x, y) vs = false.
Proof.
  intros H. unfold isPointInPolygon. simpl.
  generalize (polygonEdges vs). intros edges.
  induction edges as [|[[xi yi] [xj yj]] edges IH]; [reflexivity|].
  simpl. now rewrite !H.
Qed.

Lemma lattice_minLat polygon dem g :
  polygon_bbox polygon = None -> minLat (lattice polygon dem g) = infinity.
Proof.
  intros H. unfold lattice. rewrite H.
  destruct (projConverter dem) as [conv|].
  - destruct (conv (infinity, infinity)), (conv (neg_infinity, neg_infinity)). reflexivity.
  - reflexivity.
Qed.

Lemma gridCell_outside ring dem plane g i vol j :
  minLat g = infinity -> gridCell ring dem plane g i vol j = ret vol.
Proof.
  intros H. unfold gridCell. destruct vol as [c f]. rewrite H.
  rewrite isPointInPolygon_above; [reflexivity|].
  intros yi. unfold gtb. apply inf_add_not_below.
Qed.

Lemma integrateGrid_outside ring dem plane g ks :
  minLat g = infinity -> integrateGrid ring dem plane g ks = ret (0, 0).
Proof.
  intros H. unfold integrateGrid. apply foldS_ret. intros vol i _.
  unfold gridRow. apply foldS_ret. intros vol' j _. now apply gridCell_outside.
Qed.

Lemma getVolumeFromDem_no_bbox polygon dem options :
  polygon_bbox polygon = None ->
  exists res,
    getVolumeFromDem polygon dem options = (outer_ring polygon, res)
    /\ forall r, res = Returns (Some r) -> cut r = 0 /\ fill r = 0 /\ net r = 0.
Proof.
  intros Hb. unfold getVolumeFromDem.
  rewrite perimeterPoints_run. unfold bind at 1. cbv zeta.
  destruct (_ <? 3)%nat.
  { eexists. unfold ret. rewrite app_nil_r. split; [reflexivity|discriminate]. }
  destruct (fitBasePlane _ _ _) as [plane|].
  2:{ eexists. unfold ret. rewrite app_nil_r. split; [reflexivity|discriminate]. }
  destruct (for_lt _) as [ks|].
  2:{ eexists. unfold ret. rewrite app_nil_r. split; [reflexivity|discriminate]. }
  rewrite integrateGrid_outside by now apply lattice_minLat.
  eexists. unfold bind, ret. rewrite !app_nil_r. split; [reflexivity|].
  intros r [= <-]. repeat split; reflexivity.
Qed.

(** C2. A polygon without a [bbox] is not given one computed from its
    ring: the lattice is built on the infinite fallback box, no cell centre
    falls inside the polygon, and every successful result reports zero cut,
    fill and net volume, the DEM having been queried at the ring vertices
    only. *)
Theorem missing_bbox_zero_volume polygon dem options r :
  polygon_bbox polygon = None ->
  volumeResult polygon dem options = Returns (Some r) ->
  cut r = 0 /\ fill r = 0 /\ net r = 0
  /\ volumeQueries polygon dem options = outer_ring polygon.
Proof.
  intros Hb. unfold volumeResult, volumeQueries.
  destruct (getVolumeFromDem_no_bbox polygon dem options Hb) as (res & -> & H).
  cbn [fst snd]. intros ->. destruct (H r eq_refl) as (? & ? & ?). auto.
Qed.

(** *** Signs of the accumulated volumes *)

Lemma haversine_nonneg p q :
  atan2_sign_law M -> nonneg (haversineDistance p q).
Proof.
  intros Law. unfold haversineDistance. cbv zeta.
  set (a := _ + _ * Math_cos _).
  apply mul_nonneg; [reflexivity|]. apply mul_nonneg; [reflexivity|].
  unfold nonneg. destruct (_ <? 0) eqn:E; [|reflexivity]. exfalso.
  destruct (Law _ _ E) as [H|[H [H'|H']]].
  - unfold Math_sqrt in H. now rewrite sqrt_nonneg in H.
  - unfold Math_sqrt in H'. now rewrite sqrt_nonneg in H'.
  - apply sqrt_neg_zero in H. apply sqrt_neg_zero in H'. rewrite H in H'.
    discriminate (f_equal Prim2SF H').
Qed.

Lemma cellArea_nonneg polygon dem g :
  atan2_sign_law M -> nonneg (cellArea (lattice polygon dem g)).
Proof.
  intros Law. unfold lattice.
  destruct (match polygon_bbox polygon with Some b => b | None => _ end)
    as [minLon minLat maxLon maxLat].
  destruct (match projConverter dem with Some conv => conv (minLon, minLat) | None => _ end).
  destruct (match projConverter dem with Some conv => conv (maxLon, maxLat) | None => _ end).
  cbn [cellArea].
  apply mul_nonneg; (apply mul_nonneg; [now apply haversine_nonneg|reflexivity]).
Qed.

Lemma gridCell_nonneg ring dem plane g i vol j :
  nonneg (cellArea g) -> volumes_nonneg vol ->
  volumes_nonneg (snd (gridCell ring dem plane g i vol j)).
Proof.
  intros Ha [Hc Hf]. unfold gridCell. destruct vol as [c f]. simpl in Hc, Hf.
  destruct (isPointInPolygon _ _); [|now split].
  unfold bind, sampleDem.
  destruct (not_null _); [|now split].
  set (delta := _ - _). unfold gtb. destruct (0 <? delta) eqn:E; split; simpl; auto.
  - apply add_nonneg; [assumption|]. apply mul_nonneg; [|assumption]. now apply pos_nonneg.
  - apply add_nonneg; [assumption|]. apply mul_nonneg; [|assumption]. now apply opp_nonneg.
Qed.

Lemma integrateGrid_nonneg ring dem plane g ks :
  nonneg (cellArea g) -> volumes_nonneg (snd (integrateGrid ring dem plane g ks)).
Proof.
  intros Ha. unfold integrateGrid.
  apply foldS_invariant; [|split; reflexivity].
  intros vol i Hv. unfold gridRow. apply foldS_invariant; [|assumption].
  intros vol' j Hv'. now apply gridCell_nonneg.
Qed.

(** C7 (amended). In every successful result [net] is the float
    difference [fill - cut], and neither [cut] nor [fill] is negative: each
    is at least zero, or NaN. *)
Theorem volumes_never_negative polygon dem options r :
  atan2_sign_law M ->
  volumeResult polygon dem options = Returns (Some r) ->
  net r = fill r - cut r /\ nonneg (cut r) /\ nonneg (fill r).
Proof.
  intros Law. unfold volumeResult, getVolumeFromDem.
  destruct (perimeterPoints _ _) as [log pts]. unfold bind at 1. cbv zeta.
  destruct (_ <? 3)%nat; [discriminate|].
  destruct (fitBasePlane _ _ _) as [plane|]; [|discriminate].
  destruct (for_lt _) as [ks|]; [|discriminate].
  pose proof (integrateGrid_nonneg (outer_ring polygon) dem plane
                (lattice polygon dem match gridSize options with Some g => g | None => 50 end)
                ks (cellArea_nonneg _ _ _ Law)) as [Hc Hf].
  destruct (integrateGrid _ _ _ _ _) as [log' [c f]]. simpl in Hc, Hf.
  unfold bind, ret. cbn [snd]. intros [= <-]. cbn [cut fill net]. auto.
Qed.

End Volume.

(** * Profile distances *)

Section ProfileOrder.
Import FloatFacts OrderFacts.

Context {M : MathLib}.

Lemma fold_sampleSegment_sorted dem p q seg acc n hi js : forall profile,
  nondecreasing profile = true ->
  (forall j, In j js -> bounded_by (sampleDistance acc seg n j) profile) ->
  bounded_by hi profile ->
  Forall (fun j => ordinary (sampleDistance acc seg n j)
                   /\ leq (sampleDistance acc seg n j) hi) js ->
  StronglySorted (fun j j' => leq (sampleDistance acc seg n j) (sampleDistance acc seg n j')) js ->
  let out := fold_left (sampleSegment dem p q seg acc n) js profile in
  nondecreasing out = true /\ bounded_by hi out.
Proof.
  induction js as [|j js IH]; intros profile Hn Hlo Hhi Hjs Hs; [now split|].
  cbn [fold_left]. inversion Hjs as [|? ? [Oj Lj] Hjs']; subst.
  apply StronglySorted_inv in Hs. destruct Hs as [Hs Hj].
  apply IH; try assumption.
  - unfold sampleSegment. cbv zeta. destruct (not_null _); [|assumption].
    apply nondecreasing_push; [assumption|].
    pose proof (Hlo j (or_introl eq_refl)) as B. revert B.
    apply Forall_impl. now intros s [_ L].
  - intros j' Hj'. unfold sampleSegment. cbv zeta. destruct (not_null _).
    + unfold push. apply Forall_app. split; [apply Hlo; now right|].
      constructor; [|constructor]. cbn [distance]. split; [assumption|].
      rewrite Forall_forall in Hj. now apply Hj.
    + apply Hlo. now right.
  - unfold sampleSegment. cbv zeta. destruct (not_null _); [|assumption].
    unfold push. apply Forall_app. split; [assumption|].
    constructor; [|constructor]. now split.
Qed.

Lemma StronglySorted_impl {A} (R R' : A -> A -> Prop) (P : A -> Prop) l :
  (forall a b, P a -> P b -> R a b -> R' a b) ->
  Forall P l -> StronglySorted R l -> StronglySorted R' l.
Proof.
  intros HR F S. induction S as [|a l Sl IH Ha]; [constructor|].
  inversion F as [|? ? Pa Fl]; subst. constructor; [now apply IH|].
  rewrite Forall_forall in *. intros b Hb. apply HR; auto.
Qed.

Lemma segment_sorted dem p q seg acc n js profile :
  ordinary acc -> ordinary seg -> is_finite seg = true ->
  for_le n = Some js ->
  nondecreasing profile = true -> bounded_by (acc * 1000) profile ->
  let out := fold_left (sampleSegment dem p q seg acc n) js profile in
  nondecreasing out = true /\ bounded_by ((acc + seg) * 1000) out.
Proof.
  intros Oa Os Fs Hjs Hn Hb.
  destruct (for_le_spec n js Hjs) as (S & F & N).
  destruct js as [|j0 js0]; [|destruct (N ltac:(discriminate)) as [Pn Fn]; clear N].
  - cbn [fold_left]. split; [assumption|].
    apply bounded_by_weaken with (acc * 1000); [|assumption].
    apply mul_mono_l; try reflexivity; [assumption|].
    apply leb_trans with (acc + 0); [assumption|now apply leb_add_zero|].
    now apply add_mono.
  - set (js := j0 :: js0) in *.
    assert (Hup : Forall (fun j => ordinary (sampleDistance acc seg n j)
                     /\ leq (sampleDistance acc seg n j) ((acc + seg) * 1000)) js).
    { revert F. apply Forall_impl. intros j [Oj Lj]. split.
      - apply leb_ordinary with (acc * 1000); [now apply start_ordinary|].
        now apply sampleDistance_lower.
      - now apply sampleDistance_upper. }
    apply fold_sampleSegment_sorted; try assumption.
    + intros j Hj. apply bounded_by_weaken with (acc * 1000); [|assumption].
      rewrite Forall_forall in F. destruct (F j Hj). now apply sampleDistance_lower.
    + destruct js as [|j1 js1] eqn:E; [discriminate|]. rewrite <- E in *.
      inversion Hup as [|? ? [O1 L1] _]; subst.
      apply bounded_by_weaken with (acc * 1000); [|assumption].
      apply leb_trans with (sampleDistance acc seg n j0); [now apply start_ordinary| |assumption].
      rewrite Forall_forall in F. destruct (F j0 (or_introl eq_refl)).
      now apply sampleDistance_lower.
    + apply (StronglySorted_impl leq _ (fun j => ordinary j /\ leq j n)); [|assumption|assumption].
      intros a b [Oa' La] [Ob Lb] Hab. now apply sampleDistance_mono.
Qed.

Lemma walkSegments_sorted dem samples total segs : forall acc profile out,
  Forall (fun seg => ordinary (haversineDistance (fst seg) (snd seg))
                     /\ measurable seg) segs ->
  ordinary acc ->
  nondecreasing profile = true -> bounded_by (acc * 1000) profile ->
  walkSegments dem samples total segs acc profile = Returns out ->
  nondecreasing out = true
  /\ bounded_by
       (fold_left (fun t seg => t + haversineDistance (fst seg) (snd seg)) segs acc * 1000)
       out.
Proof.
  induction segs as [|[p q] segs IH]; intros acc profile out F Oa Hn Hb H.
  - cbn in H. inversion H; subst. now split.
  - cbn [walkSegments] in H. cbv zeta in H.
    inversion F as [|? ? [Os Fs] F']; subst. cbn [fst snd] in Os, Fs.
    destruct (for_le _) as [js|] eqn:Hjs; [|discriminate].
    destruct (segment_sorted dem p q _ acc _ js profile Oa Os Fs Hjs Hn Hb) as [Hn' Hb'].
    cbn [fold_left fst snd].
    apply (IH _ _ _ F') in H; try assumption.
    apply leb_ordinary with (acc + 0); [|now apply add_mono].
    apply leb_ordinary with acc; [assumption|now apply leb_add_zero].
Qed.

Lemma collectProfile_sorted coords dem samples out :
  Forall (fun seg => ordinary (haversineDistance (fst seg) (snd seg))
                     /\ measurable seg) (consecutive coords) ->
  collectProfile coords dem samples = Returns out ->
  nondecreasing out = true /\ bounded_by (calculateLineDistance coords * 1000) out.
Proof.
  intros F H. unfold collectProfile in H. destruct coords as [|first rest].
  - inversion H; subst. split; [reflexivity|constructor].
  - cbv zeta in H. apply walkSegments_sorted in H; try assumption; try reflexivity.
    + destruct (not_null _); reflexivity.
    + destruct (not_null _); repeat constructor.
Qed.

Lemma nonneg_ordinary x : is_finite x = true -> nonneg x -> ordinary x.
Proof.
  unfold nonneg, ordinary. rewrite is_finite_SF, ltb_zero_r, leb_spec, SF_zero.
  destruct (Prim2SF x) as [s|[|]| |[|] m e]; simpl; intros; try discriminate; reflexivity.
Qed.

Lemma profile_sorted line dem samples profile :
  atan2_sign_law M ->
  Forall measurable (consecutive (line_coordinates line)) ->
  getProfileFromDem line dem samples = Returns (Some profile) ->
  (forall i s s',
      nth_error profile i = Some s -> nth_error profile (S i) = Some s' ->
      (distance s <=? distance s') = true)
  /\ (forall s, In s profile ->
        (distance s <=? calculateLineDistance (line_coordinates line) * 1000) = true).
Proof.
  intros Law F H. unfold getProfileFromDem in H. cbv zeta in H.
  destruct (_ =? 0); [discriminate|].
  destruct (collectProfile _ _ _) as [collected|] eqn:Hc; [|discriminate].
  destruct (1 <? length collected)%nat; inversion H; subst; clear H.
  apply collectProfile_sorted in Hc.
  - destruct Hc as [Hn Hb]. split; [now apply nondecreasing_nth|].
    unfold bounded_by in Hb. rewrite Forall_forall in Hb. intros s Hs. now apply Hb.
  - revert F. apply Forall_impl. intros seg Fs. split; [|assumption].
    apply nonneg_ordinary; [assumption|now apply haversine_nonneg].
Qed.

Lemma walkSegments_snoc dem samples total sg segs : forall acc profile out,
  walkSegments dem samples total (segs ++ [sg]) acc profile = Returns out ->
  exists mid,
    walkSegments dem samples total segs acc profile = Returns mid
    /\ walkSegments dem samples total [sg]
         (fold_left (fun t seg => t + haversineDistance (fst seg) (snd seg)) segs acc) mid
       = Returns out.
Proof.
  induction segs as [|[a b] segs IH]; intros acc profile out H.
  - exists profile. now split.
  - change (((a, b) :: segs) ++ [sg]) with ((a, b) :: (segs ++ [sg])) in H.
    cbn [walkSegments] in *. cbv zeta in *.
    destruct (for_le _) as [js|]; [|discriminate].
    apply IH in H. exact H.
Qed.

Lemma last_segment_exact dem samples total p q acc mid out :
  ordinary (samples * (haversineDistance p q / total)) ->
  walkSegments dem samples total [(p, q)] acc mid = Returns out ->
  not_null (getElevationFromDem (fst (endSample (p, q))) (snd (endSample (p, q))) dem) = true ->
  last (map distance out) 0 = (acc + haversineDistance p q) * 1000.
Proof.
  intros Oy H Hel. cbn [walkSegments] in H. cbv zeta in H.
  destruct (for_le _) as [js|] eqn:Hjs; [|discriminate].
  inversion H; subst; clear H.
  pose proof (for_le_below _ _ Hjs) as Hb.
  destruct (segmentSamples_whole _ Oy Hb) as [N HN].
  destruct (for_le_reaches _ N HN Hb) as [js' Hjs'].
  rewrite Hjs' in Hjs. inversion Hjs; subst; clear Hjs.
  rewrite fold_left_app. cbn [fold_left].
  set (n := Math_max 2 _) in *. set (before := fold_left _ js' mid).
  unfold sampleSegment. cbv zeta.
  rewrite (div_self n (whole_usable n N HN)).
  unfold endSample in Hel. cbn [fst snd] in Hel. rewrite Hel.
  unfold push. rewrite map_app. cbn [map]. rewrite last_last. cbn [distance].
  now rewrite mul_one_r.
Qed.

Lemma line_distance_ordinary segs : forall acc,
  Forall (fun seg => ordinary (haversineDistance (fst seg) (snd seg))) segs ->
  ordinary acc ->
  ordinary (fold_left (fun t seg => t + haversineDistance (fst seg) (snd seg)) segs acc).
Proof.
  induction segs as [|sg segs IH]; intros acc F Oa; [assumption|].
  inversion F; subst. cbn [fold_left]. apply IH; [assumption|]. now apply add_ordinary.
Qed.

Lemma final_distance_exact line dem samples profile prefix p q :
  atan2_sign_law M ->
  Forall measurable (consecutive (line_coordinates line)) ->
  getProfileFromDem line dem samples = Returns (Some profile) ->
  line_coordinates line = prefix ++ [p; q] ->
  (0 <? samples) = true -> is_finite samples = true ->
  not_null (getElevationFromDem (fst (endSample (p, q))) (snd (endSample (p, q))) dem) = true ->
  last (map distance profile) 0 = calculateLineDistance (line_coordinates line) * 1000.
Proof.
  intros Law F H Ec Ps Fs Hel. unfold getProfileFromDem in H. cbv zeta in H.
  destruct (_ =? 0) eqn:Ht; [discriminate|].
  destruct (collectProfile _ _ _) as [collected|] eqn:Hc; [|discriminate].
  destruct (1 <? length collected)%nat; inversion H; subst; clear H.
  assert (O : Forall (fun seg => ordinary (haversineDistance (fst seg) (snd seg)))
                     (consecutive (line_coordinates line))).
  { revert F. apply Forall_impl. intros seg Fseg.
    apply nonneg_ordinary; [assumption|now apply haversine_nonneg]. }
  assert (Ot : ordinary (calculateLineDistance (line_coordinates line)))
    by (apply line_distance_ordinary; [assumption|reflexivity]).
  pose proof (ordinary_positive _ Ot Ht) as Pt.
  unfold collectProfile in Hc. unfold calculateLineDistance in *.
  rewrite Ec in *. rewrite consecutive_snoc in *.
  destruct (prefix ++ [p; q]) as [|first rest] eqn:El;
    [now destruct prefix|]. cbv zeta in Hc.
  apply walkSegments_snoc in Hc. destruct Hc as (mid & _ & Hlast).
  rewrite fold_left_app. cbn [fold_left fst snd].
  apply Forall_app in F. destruct F as [_ F]. inversion F as [|? ? Fpq _]; subst.
  apply Forall_app in O. destruct O as [_ O]. inversion O as [|? ? Opq _]; subst.
  cbn [fst snd] in Fpq, Opq. unfold measurable in Fpq. cbn [fst snd] in Fpq.
  eapply last_segment_exact; [|exact Hlast|exact Hel].
  apply mul_pos_ordinary; try assumption.
  apply div_ordinary; assumption.
Qed.

(** C3 (amended). When [Math.atan2] obeys its sign rule and every segment
    of the line has a finite length, the distances of a returned profile
    never decrease from one sample to the next, and no sample lies farther
    than the length of the line, [calculateLineDistance * 1000] metres.
    The final distance is exactly that length when the sample budget is a
    positive finite number and the last pass over the last segment, the
    one at [t = 1], finds an elevation. *)
Theorem profile_distances_ordered line dem samples profile :
  atan2_sign_law M ->
  Forall measurable (consecutive (line_coordinates line)) ->
  getProfileFromDem line dem samples = Returns (Some profile) ->
  (forall i s s',
      nth_error profile i = Some s -> nth_error profile (S i) = Some s' ->
      (distance s <=? distance s') = true)
  /\ (forall s, In s profile ->
        (distance s <=? calculateLineDistance (line_coordinates line) * 1000) = true)
  /\ (forall prefix p q,
        line_coordinates line = prefix ++ [p; q] ->
        (0 <? samples) = true -> is_finite samples = true ->
        not_null (getElevationFromDem (fst (endSample (p, q))) (snd (endSample (p, q))) dem)
        = true ->
        last (map distance profile) 0
        = calculateLineDistance (line_coordinates line) * 1000).
Proof.
  intros Law F H. destruct (profile_sorted line dem samples profile Law F H) as [A B].
  split; [exact A|]. split; [exact B|].
  intros prefix p q Ec Ps Fs Hel.
  now apply (final_distance_exact line dem samples profile prefix p q).
Qed.

End ProfileOrder.

(** The east and south edges of the flat raster, and its no-data cell. *)
Lemma edge_excluded_witness :
  getElevationFromDem 1 0.5 Scenario.flatDem = Null.
Proof.
  apply edge_excluded; try reflexivity; try (split; reflexivity).
  left. split; reflexivity.
Defined.

Lemma nodata_isolation_witness :
  getElevationFromDem 0.25 0.75 Scenario.holedDem = Null.
Proof.
  apply (proj1 (proj1 (nodata_isolation 0.25 0.75 Scenario.holedDem (-9999) eq_refl)
                      eq_refl) 0 (-9999));
    [reflexivity|reflexivity|left; reflexivity].
Defined.

(** C6, as stated, fails on a raster whose no-data value is NaN: the query
    resolves to a cell that holds NaN, the no-data value, and the sampler
    returns NaN as the elevation. *)
Lemma nan_sentinel_returned :
  noDataValue Scenario.pittedDem = Num nan
  /\ exists index,
       resolvedIndex 0.35 0.65 Scenario.pittedDem = Some index
       /\ typed_get (values Scenario.pittedDem) index = Num nan
       /\ getElevationFromDem 0.35 0.65 Scenario.pittedDem = Num nan.
Proof.
  split; [reflexivity|]. eexists. split; [vm_compute; reflexivity|].
  split; vm_compute; reflexivity.
Qed.

(** The reference sine is odd. *)
Lemma RefMath_sin_odd : sin_odd_law RefMath.lib.
Proof.
  intros x. cbn [Math_sin RefMath.lib]. unfold RefMath.sin, is_infinity.
  rewrite FloatFacts.is_nan_opp, FloatFacts.abs_opp, FloatFacts.eqb_zero_opp,
    FloatFacts.ltb_opp_zero.
  destruct (is_nan x) eqn:N; [reflexivity|]. cbn [orb].
  destruct (abs x =? infinity); [reflexivity|].
  destruct (x =? 0) eqn:Z; [reflexivity|].
  rewrite (FloatFacts.sign_trichotomy x N Z).
  destruct (0 <? x); cbn [negb]; now rewrite FloatFacts.opp_involutive.
Qed.

(** The reference library obeys the sign rule of [Math.atan2]. *)
Lemma RefMath_atan2_sign : atan2_sign_law RefMath.lib.
Proof.
  intros y x. cbn [Math_atan2 RefMath.lib]. unfold RefMath.atan2, RefMath.negative.
  destruct (is_nan y || is_nan x); [discriminate|].
  destruct (y <? 0); [now left|]. cbn [orb].
  destruct (is_neg_zero y) eqn:Z.
  - apply FloatFacts.is_neg_zero_eq in Z. subst y. intros H. right. split; [reflexivity|].
    unfold RefMath.atan2Magnitude in H. change (abs neg_zero =? 0) with true in H.
    cbv iota in H. unfold RefMath.negative in H.
    destruct (x <? 0); [now left|]. destruct (is_neg_zero x); [now right|].
    discriminate.
  - intros H. now rewrite FloatFacts.abs_nonneg in H.
Qed.

(** ** The volume engine on the scenario *)

Lemma insufficient_perimeter_witness :
  volumeResult (M := RefMath.lib) Scenario.offMap Scenario.flatDem
               (Scenario.options lowestPoint None) = Returns None.
Proof.
  apply insufficient_perimeter. vm_compute. lia.
Defined.

Lemma fixed_elevation_missing_witness :
  getVolumeFromDem (M := RefMath.lib) Scenario.square Scenario.flatDem
                   (Scenario.options fixedElevationMethod None)
  = (Scenario.squareRing, Returns None).
Proof.
  apply (fixed_elevation_missing (M := RefMath.lib) Scenario.square Scenario.flatDem);
    reflexivity.
Defined.

(** C1, as stated, fails on the square of the scenario: with method
    'fixedElevation' and no value the result is null, but the DEM has been
    queried at the five ring vertices before the failure surfaces. *)
Lemma fixed_elevation_queries_dem :
  volumeResult (M := RefMath.lib) Scenario.square Scenario.flatDem
               (Scenario.options fixedElevationMethod None) = Returns None
  /\ volumeQueries (M := RefMath.lib) Scenario.square Scenario.flatDem
                   (Scenario.options fixedElevationMethod None)
     = [(0.2, 0.2); (0.8, 0.2); (0.8, 0.8); (0.2, 0.8); (0.2, 0.2)].
Proof. split; reflexivity. Qed.

Lemma missing_bbox_zero_volume_witness :
  cut (mkVolume 0 0 0 (Flat 50) lowestPoint) = 0
  /\ fill (mkVolume 0 0 0 (Flat 50) lowestPoint) = 0
  /\ net (mkVolume 0 0 0 (Flat 50) lowestPoint) = 0
  /\ volumeQueries (M := RefMath.lib) Scenario.squareNoBbox Scenario.moundDem
                   (Scenario.options lowestPoint None)
     = outer_ring Scenario.squareNoBbox.
Proof.
  apply (missing_bbox_zero_volume (M := RefMath.lib) Scenario.squareNoBbox Scenario.moundDem
           (Scenario.options lowestPoint None)); [reflexivity|].
  vm_compute. reflexivity.
Defined.

(** The same square over the same mound, once with the bounding box of
    its ring attached and once without any: the first run finds the mound,
    the second reports an empty volume. *)
Example mound_with_and_without_bbox :
  volumeResult (M := RefMath.lib) Scenario.square Scenario.moundDem
               (Scenario.options lowestPoint None)
  = Returns (Some (mkVolume 0 10290672071.524349 10290672071.524349 (Flat 50) lowestPoint))
  /\ volumeResult (M := RefMath.lib) Scenario.squareNoBbox Scenario.moundDem
                  (Scenario.options lowestPoint None)
     = Returns (Some (mkVolume 0 0 0 (Flat 50) lowestPoint)).
Proof. split; vm_compute; reflexivity. Qed.

Lemma volumes_never_negative_witness :
  net (mkVolume 0 10290672071.524349 10290672071.524349 (Flat 50) lowestPoint)
  = fill (mkVolume 0 10290672071.524349 10290672071.524349 (Flat 50) lowestPoint)
    - cut (mkVolume 0 10290672071.524349 10290672071.524349 (Flat 50) lowestPoint)
  /\ nonneg (cut (mkVolume 0 10290672071.524349 10290672071.524349 (Flat 50) lowestPoint))
  /\ nonneg (fill (mkVolume 0 10290672071.524349 10290672071.524349 (Flat 50) lowestPoint)).
Proof.
  apply (volumes_never_negative (M := RefMath.lib) Scenario.square Scenario.moundDem
           (Scenario.options lowestPoint None)); [exact RefMath_atan2_sign|].
  vm_compute. reflexivity.
Defined.

(** C7, as stated, fails on a raster with NaN cells under the polygon:
    the computation succeeds, and [cut] and [net] are NaN, so [cut >= 0]
    is false. *)
Lemma nan_cells_give_nan_cut :
  exists r,
    volumeResult (M := RefMath.lib) Scenario.square Scenario.pittedDem
                 (Scenario.options lowestPoint None) = Returns (Some r)
    /\ cut r = nan /\ net r = nan /\ geb (cut r) 0 = false.
Proof.
  eexists. split; [vm_compute; reflexivity|]. repeat split.
Qed.

(** ** The geodesic helpers on concrete coordinates *)

Lemma distance_symmetry_witness :
  haversineDistance (M := RefMath.lib) Scenario.pointA Scenario.pointA = 0
  /\ haversineDistance (M := RefMath.lib) Scenario.pointA Scenario.pointC
     = haversineDistance (M := RefMath.lib) Scenario.pointC Scenario.pointA.
Proof.
  destruct (distance_symmetry (M := RefMath.lib) RefMath_sin_odd eq_refl eq_refl)
    as (Hself & Hsym & _).
  split.
  - apply Hself; reflexivity.
  - apply Hsym. vm_compute. reflexivity.
Defined.

(** C9, as stated, fails in binary64 arithmetic: the two orders of
    arguments multiply the cosines of the latitudes in opposite orders, and
    the results differ in the last place. *)
Lemma distance_not_symmetric :
  haversineDistance (M := RefMath.lib) Scenario.pointA Scenario.pointB = 8496.7275795867827
  /\ haversineDistance (M := RefMath.lib) Scenario.pointB Scenario.pointA = 8496.7275795867808
  /\ (haversineDistance (M := RefMath.lib) Scenario.pointA Scenario.pointB
       =? haversineDistance (M := RefMath.lib) Scenario.pointB Scenario.pointA) = false.
Proof. repeat split; vm_compute; reflexivity. Qed.

(** C8, as stated, fails in binary64 arithmetic: reversing a ring
    reverses the order of the summation, and the magnitudes differ in the
    low digits; on the equator, where every sine is exactly 0, one winding
    gives 0 and the other does not. *)
Lemma winding_changes_area :
  calculatePolygonArea (M := RefMath.lib) Scenario.triangle = 618204349.23781323
  /\ calculatePolygonArea (M := RefMath.lib) (rev Scenario.triangle) = 618204349.23783088
  /\ calculatePolygonArea (M := RefMath.lib) Scenario.equatorRing = 0
  /\ calculatePolygonArea (M := RefMath.lib) (rev Scenario.equatorRing)
     = 8.8014753905213405e-06.
Proof. repeat split; vm_compute; reflexivity. Qed.

(** ** The profile extractor on the scenario *)

Lemma profile_outcome_witness :
  getProfileFromDem (M := RefMath.lib) Scenario.cornerLine Scenario.flatDem 3
  = Returns (extractProfile (M := RefMath.lib) Scenario.cornerLine Scenario.flatDem 3)
  /\ (getProfileFromDem (M := RefMath.lib) Scenario.cornerLine Scenario.flatDem 3
      = Returns None <->
      (calculateLineDistance (M := RefMath.lib) (line_coordinates Scenario.cornerLine) =? 0)
      = true
      \/ (length (validSamples (M := RefMath.lib) (line_coordinates Scenario.cornerLine)
                               Scenario.flatDem 3) < 2)%nat)
  /\ (forall profile,
        getProfileFromDem (M := RefMath.lib) Scenario.cornerLine Scenario.flatDem 3
        = Returns (Some profile) ->
        profile = validSamples (M := RefMath.lib) (line_coordinates Scenario.cornerLine)
                               Scenario.flatDem 3
        /\ (2 <= length profile)%nat)
  /\ Forall validSample
            (validSamples (M := RefMath.lib) (line_coordinates Scenario.cornerLine)
                          Scenario.flatDem 3).
Proof.
  apply (profile_outcome (M := RefMath.lib) Scenario.cornerLine Scenario.flatDem 3).
  repeat constructor.
Defined.

Lemma profile_distances_ordered_witness :
  Forall (measurable (M := RefMath.lib)) (consecutive (line_coordinates Scenario.cornerLine))
  /\ getProfileFromDem (M := RefMath.lib) Scenario.cornerLine Scenario.flatDem 3
     = Returns (Some Scenario.cornerProfile)
  /\ (forall i s s',
        nth_error Scenario.cornerProfile i = Some s ->
        nth_error Scenario.cornerProfile (S i) = Some s' ->
        (distance s <=? distance s') = true)
  /\ (forall s, In s Scenario.cornerProfile ->
        (distance s
         <=? calculateLineDistance (M := RefMath.lib) (line_coordinates Scenario.cornerLine)
             * 1000) = true)
  /\ last (map distance Scenario.cornerProfile) 0
     = calculateLineDistance (M := RefMath.lib) (line_coordinates Scenario.cornerLine) * 1000.
Proof.
  assert (F : Forall (measurable (M := RefMath.lib))
                     (consecutive (line_coordinates Scenario.cornerLine))).
  { apply Forall_cons; [vm_compute; reflexivity|].
    apply Forall_cons; [vm_compute; reflexivity|]. apply Forall_nil. }
  assert (H : getProfileFromDem (M := RefMath.lib) Scenario.cornerLine Scenario.flatDem 3
              = Returns (Some Scenario.cornerProfile)) by (vm_compute; reflexivity).
  split; [exact F|]. split; [exact H|].
  destruct (profile_distances_ordered (M := RefMath.lib) Scenario.cornerLine Scenario.flatDem 3
              Scenario.cornerProfile RefMath_atan2_sign F H) as (A & B & C).
  split; [exact A|]. split; [exact B|].
  apply (C [(0.3, 0.5)] (0.5, 0.5) (0.5, 0.7)); reflexivity.
Defined.

(** A line that leaves the raster half way: the samples beyond the edge
    have no elevation and are dropped, so the profile ends at 54.5 km of a
    line that is 111.2 km long. *)
Lemma final_distance_short_of_length :
  exists profile,
    getProfileFromDem (M := RefMath.lib) Scenario.leavingLine Scenario.flatDem defaultSamples
    = Returns (Some profile)
    /\ last (map distance profile) 0 = 54483.439361748562
    /\ calculateLineDistance (M := RefMath.lib) (line_coordinates Scenario.leavingLine) * 1000
       = 111190.69257499705.
Proof.
  eexists. split; [vm_compute; reflexivity|]. split; vm_compute; reflexivity.
Qed.

(** * Further properties

    Properties of the engine and of its callers beyond the claims above. *)

(** ** The DEM sampler *)

Module SamplerFacts.
Import FloatFacts.

(** *** NaN *)

Lemma is_nan_eq x : is_nan x = true -> x = nan.
Proof.
  unfold is_nan. rewrite eqb_spec. intros H. apply Prim2SF_inj.
  change (Prim2SF nan) with S754_nan.
  destruct (Prim2SF x) as [s|s| |s m e] eqn:E; try reflexivity; exfalso.
  - now destruct s.
  - now destruct s.
  - unfold SFeqb in H. rewrite SFcompare_refl in H by discriminate. discriminate.
Qed.

Lemma nan_ltb_l y : (nan <? y) = false.
Proof. rewrite ltb_spec. reflexivity. Qed.

Lemma nan_ltb_r y : (y <? nan) = false.
Proof. rewrite ltb_spec. change (Prim2SF nan) with S754_nan. now destruct (Prim2SF y). Qed.

Lemma nan_leb_r y : (y <=? nan) = false.
Proof. rewrite leb_spec. change (Prim2SF nan) with S754_nan. now destruct (Prim2SF y). Qed.

Lemma nan_sub_l y : nan - y = nan.
Proof. apply Prim2SF_inj. rewrite sub_spec. reflexivity. Qed.

Lemma nan_sub_r y : y - nan = nan.
Proof.
  apply Prim2SF_inj. rewrite sub_spec. change (Prim2SF nan) with S754_nan.
  now destruct (Prim2SF y).
Qed.

Lemma nan_div_l y : nan / y = nan.
Proof. apply Prim2SF_inj. rewrite div_spec. reflexivity. Qed.

Lemma nan_mul_l y : nan * y = nan.
Proof. apply Prim2SF_inj. rewrite mul_spec. reflexivity. Qed.

Lemma nan_add_l y : nan + y = nan.
Proof. apply Prim2SF_inj. rewrite add_spec. reflexivity. Qed.

Lemma nan_add_r y : y + nan = nan.
Proof.
  apply Prim2SF_inj. rewrite add_spec. change (Prim2SF nan) with S754_nan.
  now destruct (Prim2SF y).
Qed.

Lemma floor_nan : Math_floor nan = nan.
Proof. reflexivity. Qed.

Lemma typed_get_nan a : typed_get a nan = Undefined.
Proof. reflexivity. Qed.

(** A query with a NaN coordinate reads the raster at index NaN. *)
Lemma resolvedIndex_nan lon lat dem index :
  projConverter dem = None ->
  is_nan lon = true \/ is_nan lat = true ->
  resolvedIndex lon lat dem = Some index -> index = nan.
Proof.
  intros Hp Hn. unfold resolvedIndex. rewrite Hp. cbv zeta.
  destruct (_ || _ || _ || _); [discriminate|].
  destruct (bbox dem) as [minX minY maxX maxY].
  destruct (_ || _ || _ || _); [discriminate|].
  destruct (_ || _ || _ || _); [discriminate|].
  intros H. inversion H; subst; clear H.
  destruct Hn as [Hn|Hn]; apply is_nan_eq in Hn; subst.
  - now rewrite nan_sub_l, nan_div_l, nan_mul_l, floor_nan, nan_add_r.
  - now rewrite nan_sub_r, nan_div_l, nan_mul_l, floor_nan, nan_mul_l, nan_add_l.
Qed.

(** A number read from a typed array is one of its elements. *)
Lemma typed_get_In a index v : typed_get a index = Num v -> In v a.
Proof.
  unfold typed_get. destruct (to_Z index) as [z|]; [|discriminate].
  destruct (z <? 0)%Z; [discriminate|].
  destruct (nth_error a (Z.to_nat z)) as [x|] eqn:Hx; [|discriminate].
  intros H. inversion H; subst. now apply nth_error_In in Hx.
Qed.

(** A number the sampler returns was read from the raster and compared
    with the no-data value. *)
Lemma sampler_reads lon lat dem v :
  getElevationFromDem lon lat dem = Num v ->
  exists index,
    typed_get (values dem) index = Num v
    /\ strict_eq (Num v) (noDataValue dem) = false.
Proof.
  rewrite getElevationFromDem_resolved.
  destruct (resolvedIndex lon lat dem) as [index|]; [|discriminate]. cbv zeta.
  destruct (strict_eq (typed_get (values dem) index) (noDataValue dem)) eqn:E; [discriminate|].
  intros H. rewrite H in E. now exists index.
Qed.

(** A number that is not [===] to a value is that value only if it is
    NaN. *)
Lemma strict_ne_differs v w :
  strict_eq (Num v) w = false -> w = Num v -> is_nan v = true.
Proof.
  intros H ->. cbn [strict_eq] in H. unfold is_nan. now rewrite H.
Qed.

(** *** The north-west corner *)

Lemma zero_div_usable z d :
  (z =? 0) = true -> usable d = true -> (z / d =? 0) = true.
Proof.
  intros Hz Hd. destruct (usable_SF d Hd) as (s & m & e & E).
  rewrite eqb_zero_SF in *. rewrite div_spec, E.
  destruct (Prim2SF z) as [sz|sz| |sz mz ez]; try discriminate. reflexivity.
Qed.

Lemma floor_zero z : (z =? 0) = true -> Math_floor z = z.
Proof.
  rewrite eqb_zero_SF. unfold Math_floor.
  destruct (Prim2SF z) as [sz|sz| |sz mz ez]; try discriminate. reflexivity.
Qed.

Lemma zero_add_is_zero a b : (a =? 0) = true -> (b =? 0) = true -> (a + b =? 0) = true.
Proof.
  rewrite !eqb_zero_SF, add_spec.
  destruct (Prim2SF a) as [sa|sa| |sa ma ea]; try discriminate.
  destruct (Prim2SF b) as [sb|sb| |sb mb eb]; try discriminate.
  intros _ _. now destruct sa, sb.
Qed.

Lemma zero_not_below z : (z =? 0) = true -> (z <? 0) = false.
Proof.
  rewrite eqb_zero_SF, ltb_zero_r.
  now destruct (Prim2SF z) as [sz|sz| |sz mz ez].
Qed.

Lemma positive_not_leb_zero w z : (0 <? w) = true -> (z =? 0) = true -> (w <=? z) = false.
Proof.
  rewrite ltb_zero_l, eqb_zero_SF, leb_spec.
  destruct (Prim2SF z) as [sz|sz| |sz mz ez]; try discriminate.
  destruct (Prim2SF w) as [sw|[|]| |[|] mw ew]; try discriminate; reflexivity.
Qed.

Lemma typed_get_zero a z :
  (z =? 0) = true ->
  typed_get a z = match a with x :: _ => Num x | [] => Undefined end.
Proof.
  rewrite eqb_zero_SF. unfold typed_get, to_Z.
  destruct (Prim2SF z) as [sz|sz| |sz mz ez]; try discriminate. intros _.
  now destruct a.
Qed.

(** The fraction of a point on the lower edge of an axis, scaled to the
    raster, is cell 0. *)
Lemma origin_index lo hi dim :
  is_finite lo = true -> usable (hi - lo) = true -> is_finite dim = true ->
  (Math_floor ((lo - lo) / (hi - lo) * dim) =? 0) = true.
Proof.
  intros Fl Hu Fd. rewrite floor_zero; apply zero_mul_finite; try assumption;
    apply zero_div_usable; try assumption; now rewrite sub_self.
Qed.

End SamplerFacts.

Section SamplerMore.
Import FloatFacts SamplerFacts.

(** What the sampler returns is a cell of the raster that is not [===] to
    the no-data value: it is the no-data value only when that is NaN. *)
Theorem sampler_returns_raster_cell lon lat dem v :
  getElevationFromDem lon lat dem = Num v ->
  In v (values dem)
  /\ strict_eq (Num v) (noDataValue dem) = false
  /\ (noDataValue dem = Num v -> is_nan v = true).
Proof.
  intros H. destruct (sampler_reads lon lat dem v H) as (index & Hread & Hnodata).
  split; [|split].
  - exact (typed_get_In (values dem) index v Hread).
  - exact Hnodata.
  - exact (strict_ne_differs v (noDataValue dem) Hnodata).
Qed.

(** A NaN coordinate never yields an elevation. *)
Theorem nan_query_no_elevation lon lat dem v :
  projConverter dem = None ->
  is_nan lon = true \/ is_nan lat = true ->
  getElevationFromDem lon lat dem <> Num v.
Proof.
  intros Hp Hn. rewrite getElevationFromDem_resolved.
  destruct (resolvedIndex lon lat dem) as [index|] eqn:E; [|discriminate].
  rewrite (resolvedIndex_nan lon lat dem index Hp Hn E), typed_get_nan. cbv zeta.
  destruct (strict_eq _ _); discriminate.
Qed.

(** With both coordinates NaN every test of the sampler is passed, and the
    read at index NaN gives [undefined]: the result is [undefined], not
    null, unless the DEM has no no-data value at all. *)
Theorem nan_query_undefined lon lat dem :
  projConverter dem = None ->
  is_nan lon = true -> is_nan lat = true ->
  getElevationFromDem lon lat dem
  = if strict_eq Undefined (noDataValue dem) then Null else Undefined.
Proof.
  intros Hp Hlon Hlat. apply is_nan_eq in Hlon. apply is_nan_eq in Hlat. subst.
  unfold getElevationFromDem. rewrite Hp. cbv zeta. unfold gtb, geb.
  rewrite !nan_ltb_l, !nan_ltb_r. cbn [orb].
  destruct (bbox dem) as [minX minY maxX maxY].
  rewrite !nan_ltb_l, !nan_ltb_r. cbn [orb].
  rewrite !nan_sub_l, !nan_sub_r, !nan_div_l, !nan_mul_l, floor_nan.
  rewrite !nan_ltb_l, !nan_leb_r. cbn [orb].
  now rewrite nan_add_l, typed_get_nan.
Qed.

(** A query that lands on the north-west corner of the raster extent
    reads the first cell. *)
Theorem corner_reads_first_cell lon lat dem v rest :
  insideWgs84Bbox lon lat dem = true ->
  insideBbox (projected lon lat dem) dem = true ->
  fst (projected lon lat dem) = b0 (bbox dem) ->
  snd (projected lon lat dem) = b3 (bbox dem) ->
  is_finite (b0 (bbox dem)) = true -> is_finite (b3 (bbox dem)) = true ->
  usable (b2 (bbox dem) - b0 (bbox dem)) = true ->
  usable (b3 (bbox dem) - b1 (bbox dem)) = true ->
  (0 <? width dem) = true -> is_finite (width dem) = true ->
  (0 <? height dem) = true -> is_finite (height dem) = true ->
  values dem = v :: rest ->
  getElevationFromDem lon lat dem
  = if strict_eq (Num v) (noDataValue dem) then Null else Num v.
Proof.
  unfold insideWgs84Bbox, insideBbox, projected, getElevationFromDem.
  intros Hw Hb Hx Hy Fx Fy Ux Uy Pw Fw Ph Fh Hv.
  apply negb_true_iff in Hw. rewrite Hw.
  destruct (match projConverter dem with Some conv => conv (lon, lat) | None => (lon, lat) end)
    as [projX projY].
  destruct (bbox dem) as [minX minY maxX maxY]. cbn [fst snd b0 b1 b2 b3] in *. subst.
  apply negb_true_iff in Hb. rewrite Hb. cbv zeta.
  pose proof (origin_index minX maxX (width dem) Fx Ux Fw) as Px.
  assert (Py : (Math_floor ((maxY - maxY) / (maxY - minY) * height dem) =? 0) = true).
  { rewrite floor_zero; apply zero_mul_finite; try assumption;
      apply zero_div_usable; try assumption; now rewrite sub_self. }
  set (px := Math_floor (_ / (maxX - minX) * _)) in *.
  set (py := Math_floor (_ / (maxY - minY) * _)) in *.
  unfold geb.
  rewrite (zero_not_below px Px), (zero_not_below py Py).
  rewrite (positive_not_leb_zero _ px Pw Px), (positive_not_leb_zero _ py Ph Py).
  cbn [orb].
  rewrite typed_get_zero, Hv; [reflexivity|].
  apply zero_add_is_zero; [|assumption]. now apply zero_mul_finite.
Qed.

End SamplerMore.

(** ** Point in polygon *)

Module PolygonFacts.

Lemma polygonEdges_In vs p q :
  In (p, q) (polygonEdges vs) -> In p vs /\ In q vs.
Proof.
  unfold polygonEdges. destruct vs as [|v vs]; [contradiction|].
  intros H. split.
  - now apply in_combine_l in H.
  - apply in_combine_r in H. destruct H as [<-|H]; [|assumption].
    destruct (exists_last (l := v :: vs) ltac:(discriminate)) as (l0 & z & E).
    rewrite E, last_last. apply in_elt.
Qed.

End PolygonFacts.

Section PolygonMore.
Import FloatFacts SamplerFacts PolygonFacts.

(** A point with a NaN coordinate is outside every polygon. *)
Theorem nan_point_outside x y vs :
  is_nan x = true \/ is_nan y = true -> isPointInPolygon (x, y) vs = false.
Proof.
  intros H. unfold isPointInPolygon. cbn [fst snd].
  generalize (polygonEdges vs). intros edges.
  induction edges as [|[[xi yi] [xj yj]] edges IH]; [reflexivity|].
  cbn [fold_left]. destruct H as [H|H]; apply is_nan_eq in H; subst.
  - rewrite nan_ltb_l, andb_false_r. exact IH.
  - unfold gtb in *. rewrite !nan_ltb_l. cbn [Bool.eqb negb andb]. exact IH.
Qed.

(** A point is outside when every vertex of the ring lies on the same
    side of the horizontal line through it: the ring is never crossed. *)
Theorem one_sided_ring_outside x y vs side :
  Forall (fun v => gtb (snd v) y = side) vs -> isPointInPolygon (x, y) vs = false.
Proof.
  intros H. unfold isPointInPolygon. cbn [fst snd].
  assert (E : forall p q, In (p, q) (polygonEdges vs) ->
                          gtb (snd p) y = side /\ gtb (snd q) y = side).
  { intros p q Hpq. apply polygonEdges_In in Hpq. rewrite Forall_forall in H.
    destruct Hpq. split; now apply H. }
  revert E. generalize (polygonEdges vs). intros edges E.
  induction edges as [|[[xi yi] [xj yj]] edges IH]; [reflexivity|].
  cbn [fold_left].
  destruct (E (xi, yi) (xj, yj) (or_introl eq_refl)) as [Hi Hj]. cbn [snd] in Hi, Hj.
  rewrite Hi, Hj, eqb_reflx. cbn [negb andb].
  apply IH. intros p q Hpq. apply E. now right.
Qed.

End PolygonMore.

(** ** The linear solver *)

Module SolverFacts.
Import FloatFacts SamplerFacts.

Lemma nan_div_r y : y / nan = nan.
Proof.
  apply Prim2SF_inj. rewrite div_spec. change (Prim2SF nan) with S754_nan.
  now destruct (Prim2SF y).
Qed.

Lemma solve3x3_det A b :
  solve3x3 A b = None <-> (Math_abs (det3 A) <? 1e-9) = true.
Proof.
  unfold solve3x3, det3. destruct A, b as [[r0 r1] r2].
  destruct (_ <? 1e-9); split; intros H; try reflexivity; discriminate.
Qed.

End SolverFacts.

Section SolverMore.
Import FloatFacts SamplerFacts SolverFacts.

(** A determinant that is NaN is not rejected: the solver returns three
    NaN coefficients instead of null. *)
Theorem nan_determinant_not_rejected A b :
  is_nan (det3 A) = true -> solve3x3 A b = Some (nan, nan, nan).
Proof.
  intros H. apply is_nan_eq in H. unfold solve3x3, det3 in *.
  destruct A, b as [[r0 r1] r2]. rewrite H.
  change (Math_abs nan <? 1e-9) with false. cbv zeta.
  now rewrite nan_div_r, !nan_mul_l.
Qed.

End SolverMore.

Section SolverExact.

Local Open Scope R_scope.

(** In exact arithmetic the triple the solver returns solves the
    system. *)
Theorem exact_solution A b x y z :
  ExactAlgebra.solve3x3 A b = Some (x, y, z) ->
  let '(r0, r1, r2) := b in
  ExactAlgebra.A00 A * x + ExactAlgebra.A01 A * y + ExactAlgebra.A02 A * z = r0
  /\ ExactAlgebra.A10 A * x + ExactAlgebra.A11 A * y + ExactAlgebra.A12 A * z = r1
  /\ ExactAlgebra.A20 A * x + ExactAlgebra.A21 A * y + ExactAlgebra.A22 A * z = r2.
Proof.
  unfold ExactAlgebra.solve3x3. destruct A as [a00 a01 a02 a10 a11 a12 a20 a21 a22].
  destruct b as [[r0 r1] r2]. cbv zeta. cbn [ExactAlgebra.A00 ExactAlgebra.A01 ExactAlgebra.A02
    ExactAlgebra.A10 ExactAlgebra.A11 ExactAlgebra.A12 ExactAlgebra.A20 ExactAlgebra.A21 ExactAlgebra.A22].
  set (d := a00 * (a11 * a22 - a21 * a12) - a01 * (a10 * a22 - a12 * a20)
            + a02 * (a10 * a21 - a11 * a20)).
  destruct (Rlt_dec (Rabs d) 1e-9) as [|N]; [discriminate|].
  assert (Hd : d <> 0).
  { intros E. apply N. rewrite E, Rabs_R0. lra. }
  intros H. inversion H; subst; clear H.
  replace 1.0 with 1 by lra. unfold d in *. repeat split; field; exact Hd.
Qed.

End SolverExact.

(** ** The volume engine *)

Section VolumeMore.
Import FloatFacts OrderFacts SamplerFacts.

Context {M : MathLib}.

(** *** The queries of the grid pass *)







(** *** A lattice without cells *)

Lemma getVolumeFromDem_empty_grid polygon dem options g :
  gridSize options = Some g -> (0 <? g) = false ->
  exists res,
    getVolumeFromDem polygon dem options = (outer_ring polygon, res)
    /\ (res = Returns None
        \/ exists plane, res = Returns (Some (mkVolume 0 0 0 plane (method options)))).
Proof.
  intros Hg Hpos. unfold getVolumeFromDem.
  rewrite perimeterPoints_run, Hg. unfold bind at 1. cbv zeta.
  destruct (_ <? 3)%nat.
  { eexists. unfold ret. rewrite app_nil_r. split; [reflexivity|now left]. }
  destruct (fitBasePlane _ _ _) as [plane|].
  2:{ eexists. unfold ret. rewrite app_nil_r. split; [reflexivity|now left]. }
  unfold for_lt, trips_lt. rewrite Hpos. cbn [option_map counters takeWhile].
  unfold integrateGrid. cbn [foldS]. unfold bind, ret.
  eexists. rewrite !app_nil_r. split; [reflexivity|]. right. exists plane. reflexivity.
Qed.

(** With a grid size that is not positive (zero, negative or NaN) no cell
    is visited: the call fails as it would otherwise, or succeeds with zero
    volumes, and the DEM is queried at the ring vertices only. *)
Theorem empty_grid_zero_volume polygon dem options g :
  gridSize options = Some g -> (0 <? g) = false ->
  volumeQueries polygon dem options = outer_ring polygon
  /\ (volumeResult polygon dem options = Returns None
      \/ exists plane,
           volumeResult polygon dem options
           = Returns (Some (mkVolume 0 0 0 plane (method options)))).
Proof.
  intros Hg Hpos. unfold volumeQueries, volumeResult.
  destruct (getVolumeFromDem_empty_grid polygon dem options g Hg Hpos) as (res & -> & H).
  cbn [fst snd]. split; [reflexivity|exact H].
Qed.

(** *** When the flat methods succeed *)

Lemma for_lt_returns n : (two53 <? n) = false -> exists ks, for_lt n = Some ks.
Proof.
  intros H. unfold for_lt, trips_lt. rewrite H.
  destruct (0 <? n); eexists; reflexivity.
Qed.

(** Once three ring vertices resolve and a flat base is fitted, the
    engine produces a result with that base. *)
Lemma flat_base_result polygon dem options e :
  (3 <= length (filter (resolvable dem) (outer_ring polygon)))%nat ->
  (two53 <? match gridSize options with Some g => g | None => 50 end) = false ->
  fitBasePlane (method options) (fixedElevation options)
               (snd (perimeterPoints (outer_ring polygon) dem)) = Some (Flat e) ->
  exists r,
    volumeResult polygon dem options = Returns (Some r)
    /\ basePlane r = Flat e
    /\ result_method r = method options.
Proof.
  intros Hn Hg Hp. unfold volumeResult, getVolumeFromDem.
  pose proof (perimeter_count (outer_ring polygon) dem) as Hc.
  destruct (perimeterPoints _ _) as [log pts]. cbn [snd] in Hc, Hp.
  unfold bind at 1. cbv zeta.
  destruct (Nat.ltb_spec (length pts) 3) as [L|_]; [lia|].
  rewrite Hp.
  destruct (for_lt_returns _ Hg) as [ks ->].
  destruct (integrateGrid _ _ _ _ _) as [log' [c f]].
  unfold bind, ret. cbn [snd]. eexists. split; [reflexivity|]. now split.
Qed.

(** Once three ring vertices resolve, the methods with a flat base
    (lowest point, average, and a fixed elevation that is supplied) always
    produce a result, on every lattice of at most 2^53 cells a side. *)
Theorem flat_methods_succeed polygon dem options :
  (3 <= length (filter (resolvable dem) (outer_ring polygon)))%nat ->
  (two53 <? match gridSize options with Some g => g | None => 50 end) = false ->
  method options = lowestPoint
  \/ method options = averagePerimeter
  \/ (method options = fixedElevationMethod /\ fixedElevation options <> None) ->
  exists r e,
    volumeResult polygon dem options = Returns (Some r)
    /\ basePlane r = Flat e
    /\ result_method r = method options.
Proof.
  intros Hn Hg Hm.
  assert (Hp : exists e, fitBasePlane (method options) (fixedElevation options)
                                      (snd (perimeterPoints (outer_ring polygon) dem))
                         = Some (Flat e)).
  { unfold fitBasePlane. destruct Hm as [->|[->|[-> Hf]]]; try (eexists; reflexivity).
    destruct (fixedElevation options) as [e|]; [now exists e|now contradiction Hf]. }
  destruct Hp as [e Hp].
  destruct (flat_base_result polygon dem options e Hn Hg Hp) as (r & Hr).
  now exists r, e.
Qed.

End VolumeMore.

(** ** Lengths and profiles *)

Section LinesMore.
Import FloatFacts OrderFacts SamplerFacts.

Context {M : MathLib}.

(** *** Lengths *)

Lemma line_distance_nonneg segs : forall acc,
  atan2_sign_law M -> nonneg acc ->
  nonneg (fold_left (fun t seg => t + haversineDistance (fst seg) (snd seg)) segs acc).
Proof.
  induction segs as [|sg segs IH]; intros acc Law Ha; [assumption|].
  cbn [fold_left]. apply IH; [assumption|].
  apply add_nonneg; [assumption|now apply haversine_nonneg].
Qed.

(** Neither a distance nor the length of a line is ever negative. *)
Theorem lengths_never_negative :
  atan2_sign_law M ->
  (forall p q, nonneg (haversineDistance p q))
  /\ (forall coords, nonneg (calculateLineDistance coords)).
Proof.
  intros Law. split.
  - intros p q. now apply haversine_nonneg.
  - intros coords. unfold calculateLineDistance.
    apply line_distance_nonneg; [assumption|reflexivity].
Qed.

(** Appending a point adds the length of the new segment, and the line
    does not get shorter. *)
Theorem line_distance_extends prefix p q :
  calculateLineDistance (prefix ++ [p; q])
  = calculateLineDistance (prefix ++ [p]) + haversineDistance p q
  /\ (atan2_sign_law M ->
      Forall measurable (consecutive (prefix ++ [p; q])) ->
      (calculateLineDistance (prefix ++ [p]) <=? calculateLineDistance (prefix ++ [p; q]))
      = true).
Proof.
  assert (E : calculateLineDistance (prefix ++ [p; q])
              = calculateLineDistance (prefix ++ [p]) + haversineDistance p q).
  { unfold calculateLineDistance. rewrite consecutive_snoc, fold_left_app. reflexivity. }
  split; [exact E|]. intros Law F. rewrite E.
  assert (O : Forall (fun seg => ordinary (haversineDistance (fst seg) (snd seg)))
                     (consecutive (prefix ++ [p; q]))).
  { revert F. apply Forall_impl. intros seg Fseg.
    apply nonneg_ordinary; [assumption|now apply haversine_nonneg]. }
  rewrite consecutive_snoc in O. apply Forall_app in O. destruct O as [O1 O2].
  inversion O2 as [|? ? Opq _]; subst. cbn [fst snd] in Opq.
  assert (Ot : ordinary (calculateLineDistance (prefix ++ [p])))
    by (apply line_distance_ordinary; [assumption|reflexivity]).
  apply leb_trans with (calculateLineDistance (prefix ++ [p]) + 0);
    [assumption|now apply leb_add_zero|].
  apply add_mono; [assumption|reflexivity|assumption].
Qed.

(** *** Profiles *)

(** A line of fewer than two coordinates has no profile. *)
Theorem short_line_no_profile line dem samples :
  (length (line_coordinates line) < 2)%nat ->
  getProfileFromDem line dem samples = Returns None.
Proof.
  intros H. unfold getProfileFromDem. cbv zeta.
  destruct (line_coordinates line) as [|a [|b rest]]; cbn [length] in H; try lia;
    reflexivity.
Qed.

Lemma fold_sampleSegment_extends dem p q seg acc n js : forall profile,
  exists more,
    fold_left (sampleSegment dem p q seg acc n) js profile = profile ++ more
    /\ Forall (sampled dem) more.
Proof.
  induction js as [|j js IH]; intros profile.
  - exists []. split; [now rewrite app_nil_r|constructor].
  - cbn [fold_left]. destruct (IH (sampleSegment dem p q seg acc n profile j)) as (more & -> & Hm).
    unfold sampleSegment. cbv zeta. destruct (not_null _).
    + eexists. unfold push. rewrite <- app_assoc. split; [reflexivity|].
      constructor; [|assumption]. eexists. eexists. reflexivity.
    + now exists more.
Qed.

Lemma walkSegments_extends dem samples total segs : forall acc profile out,
  walkSegments dem samples total segs acc profile = Returns out ->
  exists more, out = profile ++ more /\ Forall (sampled dem) more.
Proof.
  induction segs as [|[p q] segs IH]; intros acc profile out H.
  - cbn in H. inversion H; subst. exists []. split; [now rewrite app_nil_r|constructor].
  - cbn [walkSegments] in H. cbv zeta in H.
    destruct (for_le _) as [js|]; [|discriminate].
    destruct (fold_sampleSegment_extends dem p q (haversineDistance p q) acc
                (Math_max 2 (Math_ceil (samples * (haversineDistance p q / total))))
                js profile) as (more1 & E1 & H1).
    rewrite E1 in H. apply IH in H. destruct H as (more2 & -> & H2).
    exists (more1 ++ more2). rewrite app_assoc. split; [reflexivity|].
    apply Forall_app. now split.
Qed.

Lemma collected_profile line dem samples profile :
  getProfileFromDem line dem samples = Returns (Some profile) ->
  exists first rest more,
    line_coordinates line = first :: rest
    /\ profile
       = (if not_null (getElevationFromDem (fst first) (snd first) dem)
          then [mkSample 0 (getElevationFromDem (fst first) (snd first) dem)] else [])
         ++ more
    /\ Forall (sampled dem) more.
Proof.
  unfold getProfileFromDem. cbv zeta.
  destruct (_ =? 0); [discriminate|].
  destruct (collectProfile _ _ _) as [collected|] eqn:Hc; [|discriminate].
  intros H. unfold collectProfile in Hc.
  destruct (line_coordinates line) as [|first rest].
  - inversion Hc; subst. discriminate.
  - cbv zeta in Hc. apply walkSegments_extends in Hc. destruct Hc as (more & -> & Hm).
    destruct (1 <? _)%nat; inversion H; subst. now exists first, rest, more.
Qed.

(** When the start of the line has an elevation, the profile begins with
    it, at distance 0. *)
Theorem profile_starts_at_zero line dem samples profile first rest :
  getProfileFromDem line dem samples = Returns (Some profile) ->
  line_coordinates line = first :: rest ->
  not_null (getElevationFromDem (fst first) (snd first) dem) = true ->
  hd_error profile
  = Some (mkSample 0 (getElevationFromDem (fst first) (snd first) dem)).
Proof.
  intros H Ec Hn. destruct (collected_profile _ _ _ _ H) as (f & r & more & E & -> & _).
  rewrite Ec in E. inversion E; subst. rewrite Hn. reflexivity.
Qed.

(** Every number in a profile is a cell of the raster that is not [===]
    to the no-data value: it is the no-data value only when that is NaN. *)
Theorem profile_elevations_from_raster line dem samples profile s v :
  getProfileFromDem line dem samples = Returns (Some profile) ->
  In s profile -> elevation s = Num v ->
  In v (values dem)
  /\ strict_eq (Num v) (noDataValue dem) = false
  /\ (noDataValue dem = Num v -> is_nan v = true).
Proof.
  intros H Hs Hv. destruct (collected_profile _ _ _ _ H) as (f & r & more & _ & -> & Hm).
  apply in_app_or in Hs. destruct Hs as [Hs|Hs].
  - destruct (not_null _); [|contradiction]. destruct Hs as [<-|[]].
    cbn [elevation] in Hv. destruct (sampler_reads _ _ _ _ Hv) as (i & Hi & Hn).
    split; [exact (typed_get_In _ _ _ Hi)|].
    split; [exact Hn|exact (strict_ne_differs _ _ Hn)].
  - rewrite Forall_forall in Hm. destruct (Hm s Hs) as (lon & lat & E).
    rewrite E in Hv. destruct (sampler_reads _ _ _ _ Hv) as (i & Hi & Hn).
    split; [exact (typed_get_In _ _ _ Hi)|].
    split; [exact Hn|exact (strict_ne_differs _ _ Hn)].
Qed.

End LinesMore.

(** ** Closed rings *)

Module AreaFacts.
Import FloatFacts SamplerFacts.

Lemma abs_zero z : (z =? 0) = true -> abs z = 0.
Proof.
  rewrite eqb_zero_SF. intros H. apply Prim2SF_inj. rewrite abs_spec, SF_zero.
  destruct (Prim2SF z) as [sz|sz| |sz mz ez]; try discriminate. reflexivity.
Qed.

Lemma add_zero_r x z : (x =? 0) = false -> (z =? 0) = true -> x + z = x.
Proof.
  rewrite !eqb_zero_SF. intros Hx Hz. apply Prim2SF_inj. rewrite add_spec.
  destruct (Prim2SF z) as [sz|sz| |sz mz ez]; try discriminate.
  destruct (Prim2SF x) as [sx|sx| |sx mx ex]; try discriminate; reflexivity.
Qed.

(** Adding a zero to a sum does not change the magnitude of its scaled
    value. *)
Lemma abs_scaled_add_zero x z c d :
  (z =? 0) = true -> is_finite c = true -> usable d = true ->
  abs ((x + z) * c / d) = abs (x * c / d).
Proof.
  intros Hz Fc Ud. destruct (x =? 0) eqn:Hx.
  - rewrite !abs_zero; [reflexivity| |];
      apply zero_div_usable; try assumption; apply zero_mul_finite; try assumption.
    now apply zero_add_is_zero.
  - now rewrite add_zero_r.
Qed.

End AreaFacts.

Section AreaMore.
Import FloatFacts SamplerFacts AreaFacts.

Context {M : MathLib}.

(** Repeating the first vertex at the end of a ring, as GeoJSON rings do,
    leaves the area unchanged. *)
Theorem closed_ring_same_area (first : Position) (rest : list Position) :
  (3 <= length (first :: rest))%nat ->
  is_finite (fst first * Math_PI / 180) = true ->
  is_finite (2 + Math_sin (snd first * Math_PI / 180)
               + Math_sin (snd first * Math_PI / 180)) = true ->
  calculatePolygonArea ((first :: rest) ++ [first])
  = calculatePolygonArea (first :: rest).
Proof.
  intros Hlen Fx Fs. unfold calculatePolygonArea.
  rewrite length_app. cbn [length] in *.
  destruct (Nat.ltb_spec (S (length rest) + 1) 3) as [?|_]; [lia|].
  destruct (Nat.ltb_spec (S (length rest)) 3) as [?|_]; [lia|].
  cbv zeta.
  assert (E : ringEdges ((first :: rest) ++ [first])
              = ringEdges (first :: rest) ++ [(first, first)]).
  { unfold ringEdges. cbn [app]. apply (ExactFacts.consecutive_end (first :: rest)). }
  rewrite E, fold_left_app. cbn [fold_left fst snd].
  unfold Math_abs. apply abs_scaled_add_zero; try reflexivity.
  apply zero_mul_finite; [|assumption]. now rewrite sub_self.
Qed.

End AreaMore.

(** ** A base above the terrain *)

Module DifferenceFacts.
Import FloatFacts RoundingFacts.

Local Open Scope R_scope.

(** Among negative numbers the order is that of the magnitudes,
    reversed. *)
Lemma SFleb_negative m e m' e' :
  SFleb (S754_finite true m e) (S754_finite true m' e')
  = SFleb (S754_finite false m' e') (S754_finite false m e).
Proof.
  unfold SFleb. cbn [SFcompare].
  change (Pos.compare_cont Eq m m') with (m ?= m')%positive.
  change (Pos.compare_cont Eq m' m) with (m' ?= m)%positive.
  rewrite (Z.compare_antisym e e'), (Pos.compare_antisym m m').
  destruct (e ?= e')%Z; cbn [CompOpp]; reflexivity.
Qed.

Lemma aligned_le m e m' e' :
  SpecFloat.bounded prec emax m e = true -> SpecFloat.bounded prec emax m' e' = true ->
  SFleb (S754_finite false m e) (S754_finite false m' e') = true ->
  (Zpos (fst (shl_align m e (Z.min e e'))) <= Zpos (fst (shl_align m' e' (Z.min e e'))))%Z.
Proof.
  intros B B' H.
  apply (leb_real (S754_finite false m e) (S754_finite false m' e')) in H;
    [|exact B|exact B']. cbn [SF2R] in H.
  rewrite <- (aligned_value m e (Z.min e e')), <- (aligned_value m' e' (Z.min e e')) in H by lia.
  pose proof (bpow_pos (Z.min e e')). apply le_IZR. nra.
Qed.

Lemma normalize_not_pos z e :
  (z <= 0)%Z -> sf_pos (binary_normalize prec emax z e false) = false.
Proof.
  destruct z as [|p|p]; try reflexivity; [lia|].
  intros _. unfold binary_normalize, binary_round.
  destruct (shl_align _ _ _) as [mz ez'].
  pose proof (round_aux_sign true (Zpos mz) ez' loc_Exact) as H.
  destruct (binary_round_aux prec emax true (Zpos mz) ez' loc_Exact); cbn; subst; reflexivity.
Qed.

(** The difference of a number and one that is not smaller is not
    positive. *)
Lemma SFsub_not_pos x y :
  valid_binary x = true -> valid_binary y = true ->
  SFleb x y = true -> sf_pos (SFsub prec emax x y) = false.
Proof.
  intros Vx Vy H.
  destruct x as [sx|sx| |sx mx ex], y as [sy|sy| |sy my ey];
    try discriminate; try (destruct sx); try (destruct sy); try discriminate;
    try reflexivity; cbn [SFsub cond_Zopp]; cbn [valid_binary] in Vx, Vy.
  - (* both negative *)
    rewrite SFleb_negative in H. pose proof (aligned_le _ _ _ _ Vy Vx H) as L.
    rewrite Z.min_comm in L. apply normalize_not_pos. lia.
  - apply normalize_not_pos. lia.
  - pose proof (aligned_le _ _ _ _ Vx Vy H) as L. apply normalize_not_pos. lia.
Qed.

End DifferenceFacts.

Module DifferenceOrder.
Import FloatFacts DifferenceFacts.

Lemma sub_not_positive v e : (v <=? e) = true -> (0 <? v - e) = false.
Proof.
  rewrite leb_spec, ltb_zero_l, sub_spec.
  apply SFsub_not_pos; apply Prim2SF_valid.
Qed.

End DifferenceOrder.

Section BaseAbove.
Import FloatFacts SamplerFacts DifferenceOrder.

Context {M : MathLib}.

Lemma gridCell_no_fill ring dem e g i vol j :
  Forall (fun v => (v <=? e) = true) (values dem) ->
  snd vol = 0 -> snd (snd (gridCell ring dem (Flat e) g i vol j)) = 0.
Proof.
  intros Hv H0. unfold gridCell. destruct vol as [c f]. cbn [snd] in H0. subst f.
  destruct (isPointInPolygon _ ring); [|reflexivity].
  unfold bind, sampleDem.
  destruct (getElevationFromDem _ _ dem) as [| |v] eqn:E; cbn [not_null strict_eq negb];
    try reflexivity.
  - change (ToNumber Undefined) with nan. unfold gtb. rewrite nan_sub_l, nan_ltb_r. reflexivity.
  - destruct (sampler_reads _ _ _ _ E) as (index & Hin & _). apply typed_get_In in Hin.
    rewrite Forall_forall in Hv. cbn [ToNumber]. unfold gtb.
    rewrite (sub_not_positive v e (Hv v Hin)). reflexivity.
Qed.

(** When the flat base is at or above every cell of the raster, no cell
    adds to the fill volume: [fill] is 0. *)
Theorem base_above_terrain_no_fill polygon dem options r e :
  Forall (fun v => (v <=? e) = true) (values dem) ->
  volumeResult polygon dem options = Returns (Some r) ->
  basePlane r = Flat e ->
  fill r = 0.
Proof.
  intros Hv. unfold volumeResult, getVolumeFromDem.
  destruct (perimeterPoints _ _) as [log pts]. unfold bind at 1. cbv zeta.
  destruct (_ <? 3)%nat; [discriminate|].
  destruct (fitBasePlane _ _ _) as [plane|]; [|discriminate].
  destruct (for_lt _) as [ks|]; [|discriminate].
  set (g := lattice _ _ _).
  destruct (integrateGrid (outer_ring polygon) dem plane g ks) as [log' [c f]] eqn:Hi.
  unfold bind, ret. cbn [snd]. intros [= <-]. cbn [basePlane fill]. intros ->.
  change f with (snd (snd (log', (c, f)))). rewrite <- Hi.
  unfold integrateGrid, gridRow.
  apply (foldS_invariant (fun vol => snd vol = 0)); [|reflexivity].
  intros vol i Hvol. apply (foldS_invariant (fun vol => snd vol = 0)); [|assumption].
  intros vol' j Hvol'. now apply gridCell_no_fill.
Qed.

End BaseAbove.

(** ** Bounding boxes *)

Module BoxFacts.
Import FloatFacts RoundingFacts GeoUtils.

(** *** The order of all numbers *)

Lemma SFleb_total_trans x y z :
  valid_binary x = true -> valid_binary y = true -> valid_binary z = true ->
  SFleb x y = true -> SFleb y z = true -> SFleb x z = true.
Proof.
  intros Vx Vy Vz Hxy Hyz.
  destruct x as [sx|sx| |sx mx ex], y as [sy|sy| |sy my ey], z as [sz|sz| |sz mz ez];
    try discriminate; try reflexivity;
    try (destruct sx); try (destruct sy); try (destruct sz);
    try discriminate; try reflexivity; cbn [valid_binary] in Vx, Vy, Vz.
  - (* three negative numbers *)
    rewrite DifferenceFacts.SFleb_negative in *.
    apply (SFleb_trans _ (S754_finite false my ey)); cbn [sf_ord negb andb]; assumption.
  - apply (SFleb_trans _ (S754_finite false my ey)); cbn [sf_ord negb andb]; assumption.
Qed.

Lemma leb_total_trans x y z :
  (x <=? y) = true -> (y <=? z) = true -> (x <=? z) = true.
Proof.
  rewrite !leb_spec. apply SFleb_total_trans; apply Prim2SF_valid.
Qed.

Lemma ltb_leb x y : (x <? y) = true -> (x <=? y) = true.
Proof.
  rewrite ltb_spec, leb_spec. unfold SFltb, SFleb.
  now destruct (SFcompare _ _) as [[| |]|].
Qed.

Lemma not_ltb_leb x y :
  is_nan x = false -> is_nan y = false -> (x <? y) = false -> (y <=? x) = true.
Proof.
  intros Hx Hy. apply is_nan_SF in Hx. apply is_nan_SF in Hy.
  rewrite ltb_spec, leb_spec. unfold SFltb, SFleb.
  destruct (Prim2SF x) as [sx|sx| |sx mx ex], (Prim2SF y) as [sy|sy| |sy my ey];
    try congruence; cbn [SFcompare];
    try (destruct sx); try (destruct sy); try discriminate; try reflexivity.
  - change (Pos.compare_cont Eq mx my) with (mx ?= my)%positive.
    change (Pos.compare_cont Eq my mx) with (my ?= mx)%positive.
    rewrite (Z.compare_antisym ex ey), (Pos.compare_antisym mx my).
    destruct (ex ?= ey)%Z; cbn [CompOpp]; try discriminate; try reflexivity.
    destruct (mx ?= my)%positive; cbn [CompOpp]; try discriminate; reflexivity.
  - change (Pos.compare_cont Eq mx my) with (mx ?= my)%positive.
    change (Pos.compare_cont Eq my mx) with (my ?= mx)%positive.
    rewrite (Z.compare_antisym ex ey), (Pos.compare_antisym mx my).
    destruct (ex ?= ey)%Z; cbn [CompOpp]; try discriminate; try reflexivity.
    destruct (mx ?= my)%positive; cbn [CompOpp]; try discriminate; reflexivity.
Qed.

(** *** Minimum and maximum *)

Lemma Math_min_spec a b :
  is_nan a = false -> is_nan b = false ->
  is_nan (Math_min a b) = false
  /\ (Math_min a b <=? a) = true /\ (Math_min a b <=? b) = true.
Proof.
  intros Ha Hb. unfold Math_min. rewrite Ha, Hb. cbn [orb].
  destruct (a <? b) eqn:Hab.
  - repeat split; [assumption|now apply leb_refl|now apply ltb_leb].
  - destruct (b <? a) eqn:Hba.
    + repeat split; [assumption|now apply ltb_leb|now apply leb_refl].
    + destruct (is_neg_zero a); repeat split; try assumption;
        try (now apply leb_refl); now apply not_ltb_leb.
Qed.

Lemma Math_max_spec a b :
  is_nan a = false -> is_nan b = false ->
  is_nan (Math_max a b) = false
  /\ (a <=? Math_max a b) = true /\ (b <=? Math_max a b) = true.
Proof.
  intros Ha Hb. unfold Math_max. rewrite Ha, Hb. cbn [orb].
  destruct (a <? b) eqn:Hab.
  - repeat split; [assumption|now apply ltb_leb|now apply leb_refl].
  - destruct (b <? a) eqn:Hba.
    + repeat split; [assumption|now apply leb_refl|now apply ltb_leb].
    + destruct (is_neg_zero a); repeat split; try assumption;
        try (now apply leb_refl); now apply not_ltb_leb.
Qed.

Lemma fold_min_below xs : forall acc,
  is_nan acc = false -> Forall (fun x => is_nan x = false) xs ->
  is_nan (fold_left Math_min xs acc) = false
  /\ (fold_left Math_min xs acc <=? acc) = true
  /\ Forall (fun x => (fold_left Math_min xs acc <=? x) = true) xs.
Proof.
  induction xs as [|x xs IH]; intros acc Ha Hxs; cbn [fold_left].
  - repeat split; [assumption|now apply leb_refl|constructor].
  - inversion Hxs as [|? ? Hx Hxs']; subst.
    destruct (Math_min_spec acc x Ha Hx) as (Hn & L1 & L2).
    destruct (IH (Math_min acc x) Hn Hxs') as (Hn' & L & F).
    repeat split; [assumption|now apply leb_total_trans with (Math_min acc x)|].
    constructor; [now apply leb_total_trans with (Math_min acc x)|assumption].
Qed.

Lemma fold_max_above xs : forall acc,
  is_nan acc = false -> Forall (fun x => is_nan x = false) xs ->
  is_nan (fold_left Math_max xs acc) = false
  /\ (acc <=? fold_left Math_max xs acc) = true
  /\ Forall (fun x => (x <=? fold_left Math_max xs acc) = true) xs.
Proof.
  induction xs as [|x xs IH]; intros acc Ha Hxs; cbn [fold_left].
  - repeat split; [assumption|now apply leb_refl|constructor].
  - inversion Hxs as [|? ? Hx Hxs']; subst.
    destruct (Math_max_spec acc x Ha Hx) as (Hn & L1 & L2).
    destruct (IH (Math_max acc x) Hn Hxs') as (Hn' & L & F).
    repeat split; [assumption|now apply leb_total_trans with (Math_max acc x)|].
    constructor; [now apply leb_total_trans with (Math_max acc x)|assumption].
Qed.

(** *** The traversal *)

Lemma json_induction (P : json -> Prop) :
  (forall x, P (JNumber x)) -> P JOther ->
  (forall items, Forall P items -> P (JArray items)) ->
  forall j, P j.
Proof.
  intros Hn Ho Ha. fix IH 1. intros [x|items|]; [apply Hn| |apply Ho].
  apply Ha. induction items as [|a items IHitems]; constructor; [apply IH|exact IHitems].
Qed.

Lemma fold_processCoordinates items : forall st,
  Forall (fun j => forall st, processCoordinates st j = fold_left extend (positions j) st)
         items ->
  fold_left processCoordinates items st
  = fold_left extend (flat_map positions items) st.
Proof.
  induction items as [|a items IH]; intros st H; [reflexivity|].
  inversion H as [|? ? Ha Hitems]; subst.
  cbn [fold_left flat_map]. rewrite fold_left_app, Ha. now apply IH.
Qed.

(** The traversal folds [extend] over the positions it reaches. *)
Lemma processCoordinates_positions coords :
  forall st, processCoordinates st coords = fold_left extend (positions coords) st.
Proof.
  induction coords as [x| |items IH] using json_induction; intros st; try reflexivity.
  destruct items as [|a items]; [reflexivity|].
  pose proof (fold_processCoordinates (a :: items) st IH) as E.
  destruct a as [c0|sub|]; try exact E.
  destruct items as [|b items]; [exact E|].
  destruct b as [c1|sub|]; try exact E. reflexivity.
Qed.

Lemma features_positions features : forall st,
  fold_left
    (fun st feature =>
       match feature with
       | Some (Some coordinates) => processCoordinates st coordinates
       | _ => st
       end) features st
  = fold_left extend (allPositions features) st.
Proof.
  induction features as [|f features IH]; intros st; [reflexivity|].
  cbn [fold_left]. unfold allPositions. cbn [flat_map]. rewrite fold_left_app.
  rewrite IH. destruct f as [[coords|]|]; try reflexivity.
  now rewrite processCoordinates_positions.
Qed.

Lemma fold_extend ps : forall st,
  fold_left extend ps st
  = mkBoxState (fold_left Math_min (map fst ps) (minX st))
               (fold_left Math_min (map snd ps) (minY st))
               (fold_left Math_max (map fst ps) (maxX st))
               (fold_left Math_max (map snd ps) (maxY st))
               (match ps with [] => hasCoordinates st | _ => true end).
Proof.
  induction ps as [|p ps IH]; intros st; [now destruct st|].
  cbn [fold_left map]. rewrite IH. cbn [extend minX minY maxX maxY hasCoordinates].
  now destruct ps.
Qed.

End BoxFacts.

Section BoxMore.
Import FloatFacts GeoUtils BoxFacts.

(** [calculateBbox] is undefined exactly when the collection holds no
    coordinate pair, and otherwise the box of the pairs it reaches: the
    running minima and maxima of their two coordinates, started from
    [Infinity] and [-Infinity]. *)
Theorem bbox_of_positions features :
  calculateBbox features
  = match allPositions features with
    | [] => None
    | ps =>
        Some (mkBBox (fold_left Math_min (map fst ps) infinity)
                     (fold_left Math_min (map snd ps) infinity)
                     (fold_left Math_max (map fst ps) neg_infinity)
                     (fold_left Math_max (map snd ps) neg_infinity))
    end.
Proof.
  unfold calculateBbox. cbv zeta. rewrite features_positions, fold_extend.
  cbn [hasCoordinates minX minY maxX maxY]. now destruct (allPositions features).
Qed.

(** The box contains every position of the collection, provided no
    coordinate is NaN. *)
Theorem bbox_contains_positions features box p :
  calculateBbox features = Some box ->
  Forall (fun q => is_nan (fst q) = false /\ is_nan (snd q) = false)
         (allPositions features) ->
  In p (allPositions features) ->
  (b0 box <=? fst p) = true /\ (fst p <=? b2 box) = true
  /\ (b1 box <=? snd p) = true /\ (snd p <=? b3 box) = true.
Proof.
  unfold calculateBbox. cbv zeta. rewrite features_positions, fold_extend.
  cbn [hasCoordinates minX minY maxX maxY]. intros H F Hp.
  set (ps := allPositions features) in *.
  assert (E : box = mkBBox (fold_left Math_min (map fst ps) infinity)
                           (fold_left Math_min (map snd ps) infinity)
                           (fold_left Math_max (map fst ps) neg_infinity)
                           (fold_left Math_max (map snd ps) neg_infinity)).
  { destruct ps; [discriminate|]. now inversion H. }
  subst box. cbn [b0 b1 b2 b3].
  assert (Fx : Forall (fun x => is_nan x = false) (map fst ps)).
  { apply Forall_map. revert F. apply Forall_impl. now intros q [? _]. }
  assert (Fy : Forall (fun x => is_nan x = false) (map snd ps)).
  { apply Forall_map. revert F. apply Forall_impl. now intros q [_ ?]. }
  destruct (fold_min_below _ infinity eq_refl Fx) as (_ & _ & Mx).
  destruct (fold_min_below _ infinity eq_refl Fy) as (_ & _ & My).
  destruct (fold_max_above _ neg_infinity eq_refl Fx) as (_ & _ & Nx).
  destruct (fold_max_above _ neg_infinity eq_refl Fy) as (_ & _ & Ny).
  rewrite Forall_forall in Mx, My, Nx, Ny.
  repeat split; [apply Mx|apply Nx|apply My|apply Ny]; now apply in_map.
Qed.

End BoxMore.

(** ** A NaN budget, and the lowest point *)

Section BudgetAndBase.
Import FloatFacts SamplerFacts BoxFacts.

Context {M : MathLib}.

(** *** A NaN sample budget *)

Lemma walkSegments_nan_budget dem total segs : forall acc profile,
  walkSegments dem nan total segs acc profile = Returns profile.
Proof.
  induction segs as [|[p q] segs IH]; intros acc profile; [reflexivity|].
  cbn [walkSegments]. cbv zeta. rewrite nan_mul_l.
  change (for_le (Math_max 2 (Math_ceil nan))) with (Some (@nil float)).
  cbn [fold_left]. apply IH.
Qed.

(** With a sample budget that is NaN no segment is sampled, and the
    extractor returns null. *)
Theorem nan_budget_no_profile line dem samples :
  is_nan samples = true -> getProfileFromDem line dem samples = Returns None.
Proof.
  intros H. apply is_nan_eq in H. subst. unfold getProfileFromDem. cbv zeta.
  destruct (_ =? 0); [reflexivity|]. unfold collectProfile.
  destruct (line_coordinates line) as [|first rest]; [reflexivity|]. cbv zeta.
  rewrite walkSegments_nan_budget. now destruct (not_null _).
Qed.

(** *** The lowest point *)

Lemma perimeter_elevations ring dem :
  map (fun p => ToNumber (pelevation p)) (snd (perimeterPoints ring dem))
  = map ToNumber
        (filter not_null (map (fun c => getElevationFromDem (fst c) (snd c) dem) ring)).
Proof.
  rewrite perimeterPoints_run. cbn [snd].
  induction ring as [|c ring IH]; [reflexivity|]. cbn [map filter pelevation].
  destruct (not_null _); cbn [map pelevation]; now rewrite IH.
Qed.

(** With the lowest-point method the base is at or below the elevation of
    every ring vertex that has one, provided those elevations are numbers
    other than NaN. *)
Theorem lowest_point_is_lowest polygon dem options r :
  method options = lowestPoint ->
  Forall (fun c => plainElevation (getElevationFromDem (fst c) (snd c) dem) = true)
         (outer_ring polygon) ->
  volumeResult polygon dem options = Returns (Some r) ->
  exists e,
    basePlane r = Flat e
    /\ forall c v, In c (outer_ring polygon) ->
                   getElevationFromDem (fst c) (snd c) dem = Num v ->
                   (e <=? v) = true.
Proof.
  intros Hm Hp. unfold volumeResult, getVolumeFromDem.
  pose proof (perimeter_elevations (outer_ring polygon) dem) as He.
  destruct (perimeterPoints _ _) as [log pts]. cbn [snd] in He.
  unfold bind at 1. cbv zeta.
  destruct (_ <? 3)%nat; [discriminate|].
  rewrite Hm. cbn [fitBasePlane]. cbv zeta.
  destruct (for_lt _) as [ks|]; [|discriminate].
  destruct (integrateGrid _ _ _ _ _) as [log' [c f]].
  unfold bind, ret. cbn [snd]. intros [= <-]. cbn [basePlane].
  eexists. split; [reflexivity|]. unfold Math_min_list. rewrite He.
  intros c0 v Hin Hv.
  set (elevs := map ToNumber _).
  assert (Fn : Forall (fun x => is_nan x = false) elevs).
  { unfold elevs. apply Forall_map. apply Forall_forall. intros e He'.
    apply filter_In in He'. destruct He' as [He' Hnn].
    apply in_map_iff in He'. destruct He' as (c1 & <- & Hc1).
    rewrite Forall_forall in Hp. specialize (Hp c1 Hc1).
    destruct (getElevationFromDem _ _ dem) as [| |x]; try discriminate.
    cbn [ToNumber plainElevation] in *. now apply negb_true_iff in Hp. }
  destruct (fold_min_below elevs infinity eq_refl Fn) as (_ & _ & Hmin).
  rewrite Forall_forall in Hmin. apply Hmin.
  unfold elevs. change v with (ToNumber (Num v)). apply in_map.
  apply filter_In. split; [|reflexivity]. rewrite <- Hv.
  now apply (in_map (fun c => getElevationFromDem (fst c) (snd c) dem)).
Qed.

End BudgetAndBase.

(** ** Whole sample budgets *)

Module BudgetFacts.
Import FloatFacts RoundingFacts OrderFacts SamplerFacts.

Lemma nan_mul_r y : y * nan = nan.
Proof.
  apply Prim2SF_inj. rewrite mul_spec.
  change (Prim2SF nan) with S754_nan. now destruct (Prim2SF y).
Qed.

Lemma SFadd_comm x y : SFadd prec emax x y = SFadd prec emax y x.
Proof.
  destruct x as [sx|sx| |sx mx ex], y as [sy|sy| |sy my ey]; try reflexivity;
    try (now destruct sx, sy).
  cbn [SFadd]. rewrite (Z.min_comm ey ex). f_equal. apply Z.add_comm.
Qed.

Lemma add_comm x y : x + y = y + x.
Proof. apply Prim2SF_inj. rewrite !add_spec. apply SFadd_comm. Qed.

(** A sum of ordinary numbers is at least each of the two. *)
Lemma leb_add_l a b : ordinary a -> ordinary b -> (a <=? a + b) = true.
Proof.
  intros Oa Ob. apply leb_trans with (a + 0); [assumption|now apply leb_add_zero|].
  now apply add_mono.
Qed.

Lemma leb_add_r a b : ordinary a -> ordinary b -> (b <=? a + b) = true.
Proof. intros Oa Ob. rewrite add_comm. now apply leb_add_l. Qed.

(** [Math.ceil] of a number with fractional bits is the whole number
    above it. *)
Lemma Math_ceil_fraction y m e :
  Prim2SF y = S754_finite false m e -> (e < 0)%Z ->
  whole (Math_ceil y) (- (Zneg m / 2 ^ (- e))).
Proof.
  intros E He. pose proof (Prim2SF_valid y) as V. rewrite E in V. cbn [valid_binary] in V.
  destruct (bounded_spec m e V) as (_ & D & _ & _).
  unfold Math_ceil, Math_floor. rewrite opp_spec, E. cbn [SFopp].
  destruct (Z.leb_spec 0 e) as [?|_]; [lia|].
  unfold floorZ. rewrite opp_spec, E. cbn [SFopp negb].
  destruct (Z.leb_spec 0 e) as [?|_]; [lia|]. cbv beta iota zeta.
  rewrite Z.shiftr_div_pow2 by lia.
  set (k := (Zneg m / 2 ^ (- e))%Z).
  assert (Hk : (- Zpos m <= k < 0)%Z).
  { unfold k. assert (P : (0 < 2 ^ (- e))%Z) by (apply Z.pow_pos_nonneg; lia).
    split.
    - apply Z.div_le_lower_bound; [assumption|].
      change (Zneg m) with (- Zpos m)%Z. nia.
    - apply Z.div_lt_upper_bound; [assumption|]. lia. }
  unfold of_Z. destruct (Z.ltb_spec k 0) as [_|?]; [|lia].
  rewrite opp_involutive. unfold whole.
  rewrite of_uint63_spec, Uint63.of_Z_spec.
  pose proof (digits_upper m) as U.
  assert (B : (Zpos m < 2 ^ 53)%Z).
  { apply Z.lt_le_trans with (2 ^ Zpos (digits2_pos m))%Z; [assumption|].
    apply Z.pow_le_mono_r; lia. }
  rewrite Z.mod_small by (change Uint63.wB with (2 ^ 63)%Z; lia).
  destruct (- k)%Z as [|p|p] eqn:Ek; try lia.
  cbn [binary_normalize]. apply binary_round_whole; [lia|].
  rewrite bpow_0. ring.
Qed.

(** [Math.ceil] does not step over a whole number. *)
Lemma Math_ceil_below y S N :
  ordinary y -> whole S N -> (y <=? S) = true -> (Math_ceil y <=? S) = true.
Proof.
  intros Oy HS H. pose proof Oy as Sy. rewrite ordinary_SF in Sy.
  destruct (Prim2SF y) as [s|[|]| |[|] m e] eqn:E; try discriminate.
  - (* zero *)
    replace (Math_ceil y) with y; [assumption|].
    unfold Math_ceil, Math_floor. rewrite opp_spec, E. cbn [SFopp].
    now rewrite opp_involutive.
  - replace (Math_ceil y) with y; [assumption|].
    unfold Math_ceil, Math_floor. rewrite opp_spec, E. cbn [SFopp].
    now rewrite opp_involutive.
  - destruct (Z.leb_spec 0 e) as [He|He].
    + replace (Math_ceil y) with y; [assumption|].
      unfold Math_ceil, Math_floor. rewrite opp_spec, E. cbn [SFopp].
      destruct (Z.leb_spec 0 e) as [_|?]; [|lia]. now rewrite opp_involutive.
    + pose proof (Math_ceil_fraction y m e E He) as W.
      rewrite (whole_leb _ _ _ _ W HS). apply Z.leb_le.
      (* the value of y is at most N *)
      cbn [sf_ord negb andb] in Sy.
      rewrite leb_spec, E in H.
      destruct HS as (mS & eS & ES & VS). rewrite ES in H.
      pose proof (Prim2SF_valid S) as BS. rewrite ES in BS. cbn [valid_binary] in BS.
      apply (leb_real (S754_finite false m e) (S754_finite false mS eS)) in H;
        [|exact Sy|exact BS]. cbn [SF2R] in H. rewrite VS in H.
      assert (L : (Zpos m <= N * 2 ^ (- e))%Z).
      { apply le_IZR. rewrite mult_IZR, <- bpow_IZR by lia.
        pose proof (bpow_pos e) as Pe. pose proof (bpow_pos (- e)) as Pn.
        assert (One : (bpow e * bpow (- e) = 1)%R).
        { rewrite <- bpow_add. replace (e + - e)%Z with 0%Z by lia. apply bpow_0. }
        apply Rmult_le_reg_r with (bpow e); [assumption|].
        rewrite Rmult_assoc, (Rmult_comm (bpow (- e))), One. lra. }
      assert (P : (0 < 2 ^ (- e))%Z) by (apply Z.pow_pos_nonneg; lia).
      assert (G : (- N <= Zneg m / 2 ^ (- e))%Z).
      { apply Z.div_le_lower_bound; [assumption|].
        change (Zneg m) with (- Zpos m)%Z. nia. }
      lia.
Qed.

Lemma zero_div_zero a b : (a =? 0) = true -> (b =? 0) = true -> a / b = nan.
Proof.
  rewrite !eqb_zero_SF. intros Ha Hb. apply Prim2SF_inj. rewrite div_spec.
  destruct (Prim2SF a) as [sa|sa| |sa ma ea]; try discriminate.
  destruct (Prim2SF b) as [sb|sb| |sb mb eb]; try discriminate. reflexivity.
Qed.

Lemma below_zero_is_zero a t :
  ordinary a -> (a <=? t) = true -> (t =? 0) = true -> (a =? 0) = true.
Proof.
  rewrite ordinary_SF, leb_spec, !eqb_zero_SF.
  destruct (Prim2SF t) as [st|st| |st mt et]; try discriminate.
  destruct (Prim2SF a) as [sa|[|]| |[|] ma ea]; try discriminate; reflexivity.
Qed.

(** A finite part of a total is at most the whole. *)
Lemma ratio_le_one a t :
  ordinary a -> is_finite a = true -> (a <=? t) = true -> (0 <? t) = true ->
  ordinary (a / t) /\ (a / t <=? 1) = true.
Proof.
  intros Oa Fa H Pt. split; [now apply div_ordinary|].
  destruct (is_finite t) eqn:Ft.
  - rewrite <- (div_self t (positive_usable t Pt Ft)). now apply div_mono.
  - (* the total has overflowed *)
    pose proof (ordinary_fin a Oa Fa) as Sa. clear H.
    rewrite ltb_zero_l in Pt. rewrite is_finite_SF in Ft.
    rewrite leb_spec, div_spec, SF_one.
    destruct (Prim2SF t) as [st|[|]| |[|] mt et]; try discriminate.
    destruct (Prim2SF a) as [sa|[|]| |[|] ma ea]; try discriminate; reflexivity.
Qed.

(** The number of samples of a segment stays below 2^53 when the budget is
    a whole number below 2^53 and the segment is part of the total. *)
Lemma segment_count_below S N seg total :
  whole S N -> (N < 2 ^ 53)%Z ->
  ordinary seg -> is_finite seg = true -> ordinary total -> (seg <=? total) = true ->
  (two53 <=? Math_max 2 (Math_ceil (S * (seg / total)))) = false.
Proof.
  intros HS HN Os Fs Ot H.
  assert (PS : (0 <? S) = true /\ is_finite S = true).
  { destruct HS as (m & e & E & _). rewrite ltb_zero_l, is_finite_SF, E. now split. }
  destruct PS as [PS FS].
  assert (BS : (two53 <=? S) = false).
  { rewrite (whole_leb _ _ _ _ whole_two53 HS). now apply Z.leb_gt. }
  destruct (total =? 0) eqn:Ht.
  - (* a total of zero: the ratio is NaN *)
    rewrite (zero_div_zero seg total), nan_mul_r; [reflexivity| |assumption].
    now apply below_zero_is_zero with total.
  - pose proof (ordinary_positive total Ot Ht) as Pt.
    destruct (ratio_le_one seg total Os Fs H Pt) as [Or Lr].
    assert (Oy : ordinary (S * (seg / total))) by now apply mul_pos_ordinary.
    assert (Ly : (S * (seg / total) <=? S) = true).
    { rewrite <- (mul_one_r S) at 2.
      apply mul_mono_r; try assumption; [now apply positive_ordinary|reflexivity]. }
    pose proof (Math_ceil_below _ S N Oy HS Ly) as Lc.
    assert (Nc : is_nan (Math_ceil (S * (seg / total))) = false).
    { destruct (is_nan _) eqn:En; [|reflexivity].
      apply is_nan_eq in En. rewrite En, leb_spec in Lc. discriminate. }
    destruct (Math_max_two _ Nc) as [-> | ->]; [|reflexivity].
    destruct (two53 <=? Math_ceil _) eqn:E; [|reflexivity].
    rewrite (leb_trans two53 _ S eq_refl E Lc) in BS. discriminate.
Qed.

Lemma whole_default : whole defaultSamples 100.
Proof. apply (whole_sf_scaled _ 46); [lia|reflexivity]. Qed.

End BudgetFacts.

Section Termination.
Import FloatFacts RoundingFacts OrderFacts SamplerFacts BudgetFacts.

Context {M : MathLib}.

Lemma total_above_acc segs : forall acc,
  Forall (fun seg => ordinary (haversineDistance (fst seg) (snd seg))) segs ->
  ordinary acc ->
  (acc <=? fold_left (fun t seg => t + haversineDistance (fst seg) (snd seg)) segs acc) = true.
Proof.
  induction segs as [|sg segs IH]; intros acc F Oa; [now apply ordinary_refl|].
  inversion F as [|? ? Os F']; subst. cbn [fold_left].
  apply leb_trans with (acc + haversineDistance (fst sg) (snd sg));
    [assumption|now apply leb_add_l|].
  apply IH; [assumption|now apply add_ordinary].
Qed.

Lemma segment_below_total segs : forall acc,
  Forall (fun seg => ordinary (haversineDistance (fst seg) (snd seg))) segs ->
  ordinary acc ->
  Forall (fun seg =>
            (haversineDistance (fst seg) (snd seg)
             <=? fold_left (fun t seg => t + haversineDistance (fst seg) (snd seg)) segs acc)
            = true) segs.
Proof.
  induction segs as [|sg segs IH]; intros acc F Oa; [constructor|].
  inversion F as [|? ? Os F']; subst. cbn [fold_left].
  assert (Oacc : ordinary (acc + haversineDistance (fst sg) (snd sg)))
    by now apply add_ordinary.
  constructor; [|now apply IH].
  apply leb_trans with (acc + haversineDistance (fst sg) (snd sg));
    [assumption|now apply leb_add_r|now apply total_above_acc].
Qed.

(** With a whole sample budget below 2^53, the default 100 among them,
    every segment of a line with finite segment lengths is allotted fewer
    than 2^53 samples, and the extractor returns. *)
Theorem profile_terminates line dem samples N :
  atan2_sign_law M ->
  Forall measurable (consecutive (line_coordinates line)) ->
  whole samples N -> (N < 2 ^ 53)%Z ->
  budgeted (line_coordinates line) samples
  /\ exists result, getProfileFromDem line dem samples = Returns result.
Proof.
  intros Law F HS HN.
  assert (O : Forall (fun seg => ordinary (haversineDistance (fst seg) (snd seg)))
                     (consecutive (line_coordinates line))).
  { revert F. apply Forall_impl. intros seg Fseg.
    apply nonneg_ordinary; [assumption|now apply haversine_nonneg]. }
  assert (B : budgeted (line_coordinates line) samples).
  { unfold budgeted, segmentSamples.
    pose proof (segment_below_total _ 0 O eq_refl) as L.
    pose proof (line_distance_ordinary _ 0 O eq_refl) as Ot.
    fold (calculateLineDistance (line_coordinates line)) in L, Ot.
    rewrite Forall_forall in *. intros seg Hseg.
    apply (segment_count_below samples N); try assumption; [now apply O|now apply F|now apply L]. }
  split; [exact B|].
  destruct (collectProfile_returns (line_coordinates line) dem samples B) as (collected & Hc & _).
  unfold getProfileFromDem. cbv zeta. rewrite Hc.
  destruct (_ =? 0); eexists; reflexivity.
Qed.

End Termination.

(** ** From the dialog to the engine *)

Section CallersMore.

Context {M : MathLib}.

Variable parseFloat : String.string -> float.

(** From the dialog the fixed-elevation method reaches the engine only
    with an elevation that is a number: the request is then answered with
    a flat base at that elevation as soon as three ring vertices resolve,
    and an input that does not parse never reaches the engine. *)
Theorem dialog_supplies_elevation feature dem input :
  (3 <= length (filter (resolvable dem) (outer_ring feature)))%nat ->
  (is_nan (parseFloat input) = true ->
   calculateFromDialog parseFloat (Some feature) (Some dem) fixedElevationMethod input = None)
  /\ (is_nan (parseFloat input) = false ->
      exists r,
        calculateFromDialog parseFloat (Some feature) (Some dem) fixedElevationMethod input
        = Some (Returns (VolumeAnnotation r))
        /\ basePlane r = Flat (parseFloat input)
        /\ result_method r = fixedElevationMethod).
Proof.
  intros Hn. unfold calculateFromDialog, handleCalculate. cbv zeta. split; intros ->.
  - reflexivity.
  - unfold handleCalculateVolume.
    destruct (flat_base_result feature dem
                (mkOptions fixedElevationMethod (Some (parseFloat input)) None)
                (parseFloat input) Hn eq_refl eq_refl)
      as (r & Hr & Hb & Hm).
    rewrite Hr. exists r. split; [reflexivity|]. split; [exact Hb|exact Hm].
Qed.

End CallersMore.

(** ** The further properties on concrete inputs *)

Lemma sampler_returns_raster_cell_witness :
  In 50 (values Scenario.flatDem)
  /\ strict_eq (Num 50) (noDataValue Scenario.flatDem) = false
  /\ (noDataValue Scenario.flatDem = Num 50 -> is_nan 50 = true).
Proof.
  apply (sampler_returns_raster_cell 0.5 0.5 Scenario.flatDem 50). reflexivity.
Defined.

Lemma nan_query_no_elevation_witness :
  getElevationFromDem nan 0.5 Scenario.flatDem <> Num 50.
Proof.
  apply (nan_query_no_elevation nan 0.5 Scenario.flatDem 50); [reflexivity|].
  left. reflexivity.
Defined.

Lemma nan_query_undefined_witness :
  getElevationFromDem nan nan Scenario.flatDem
  = if strict_eq Undefined (noDataValue Scenario.flatDem) then Null else Undefined.
Proof.
  apply (nan_query_undefined nan nan Scenario.flatDem); reflexivity.
Defined.

Lemma corner_reads_first_cell_witness :
  getElevationFromDem 0 1 Scenario.flatDem
  = if strict_eq (Num 50) (noDataValue Scenario.flatDem) then Null else Num 50.
Proof.
  apply (corner_reads_first_cell 0 1 Scenario.flatDem 50 (repeat 50 99)); reflexivity.
Defined.

Lemma nan_point_outside_witness :
  isPointInPolygon (nan, 0.5) Scenario.squareRing = false.
Proof.
  apply (nan_point_outside nan 0.5 Scenario.squareRing). left. reflexivity.
Defined.

Lemma one_sided_ring_outside_witness :
  isPointInPolygon (0.5, 0.9) Scenario.squareRing = false.
Proof.
  apply (one_sided_ring_outside 0.5 0.9 Scenario.squareRing false).
  repeat constructor.
Defined.

Lemma nan_determinant_not_rejected_witness :
  solve3x3 Cases.brokenMatrix (1, 2, 3) = Some (nan, nan, nan).
Proof.
  apply (nan_determinant_not_rejected Cases.brokenMatrix (1, 2, 3)). reflexivity.
Defined.

Lemma exact_solution_witness :
  exists x y z,
    ExactAlgebra.solve3x3 Cases.identity (1, 2, 3)%R = Some (x, y, z)
    /\ (1 * x + 0 * y + 0 * z = 1
        /\ 0 * x + 1 * y + 0 * z = 2
        /\ 0 * x + 0 * y + 1 * z = 3)%R.
Proof.
  assert (H : exists x y z,
             ExactAlgebra.solve3x3 Cases.identity (1, 2, 3)%R = Some (x, y, z)).
  { unfold ExactAlgebra.solve3x3, Cases.identity.
    destruct (Rlt_dec _ _) as [L|_]; [|eexists; eexists; eexists; reflexivity].
    exfalso. revert L.
    replace (1 * (1 * 1 - 0 * 0) - 0 * (0 * 1 - 0 * 0) + 0 * (0 * 0 - 1 * 0))%R
      with 1%R by ring.
    rewrite Rabs_R1. lra. }
  destruct H as (x & y & z & H). exists x, y, z. split; [exact H|].
  exact (exact_solution Cases.identity (1, 2, 3)%R x y z H).
Defined.

Lemma empty_grid_zero_volume_witness :
  volumeQueries (M := RefMath.lib) Scenario.square Scenario.flatDem
                (mkOptions lowestPoint None (Some 0))
  = outer_ring Scenario.square
  /\ (volumeResult (M := RefMath.lib) Scenario.square Scenario.flatDem
                   (mkOptions lowestPoint None (Some 0)) = Returns None
      \/ exists plane,
           volumeResult (M := RefMath.lib) Scenario.square Scenario.flatDem
                        (mkOptions lowestPoint None (Some 0))
           = Returns (Some (mkVolume 0 0 0 plane lowestPoint))).
Proof.
  apply (empty_grid_zero_volume (M := RefMath.lib) Scenario.square Scenario.flatDem
           (mkOptions lowestPoint None (Some 0)) 0); reflexivity.
Defined.

Lemma flat_methods_succeed_witness :
  exists r e,
    volumeResult (M := RefMath.lib) Scenario.square Scenario.flatDem
                 (Scenario.options averagePerimeter None) = Returns (Some r)
    /\ basePlane r = Flat e
    /\ result_method r = averagePerimeter.
Proof.
  apply (flat_methods_succeed (M := RefMath.lib) Scenario.square Scenario.flatDem
           (Scenario.options averagePerimeter None)).
  - vm_compute. lia.
  - reflexivity.
  - right. left. reflexivity.
Defined.

Lemma base_above_terrain_no_fill_witness :
  exists r,
    volumeResult (M := RefMath.lib) Scenario.square Scenario.moundDem
                 (Scenario.options fixedElevationMethod (Some 60)) = Returns (Some r)
    /\ fill r = 0.
Proof.
  assert (H : exists r,
             volumeResult (M := RefMath.lib) Scenario.square Scenario.moundDem
                          (Scenario.options fixedElevationMethod (Some 60))
             = Returns (Some r)
             /\ basePlane r = Flat 60).
  { eexists. split; [vm_compute; reflexivity|reflexivity]. }
  destruct H as (r & Hr & Hb). exists r. split; [exact Hr|].
  apply (base_above_terrain_no_fill (M := RefMath.lib) Scenario.square Scenario.moundDem
           (Scenario.options fixedElevationMethod (Some 60)) r 60); try assumption.
  apply Forall_forall. intros v Hv.
  assert (E : forallb (fun v => v <=? 60) (values Scenario.moundDem) = true)
    by (vm_compute; reflexivity).
  rewrite forallb_forall in E. now apply E.
Defined.

Lemma lowest_point_is_lowest_witness :
  exists r e,
    volumeResult (M := RefMath.lib) Scenario.square Scenario.moundDem
                 (Scenario.options lowestPoint None) = Returns (Some r)
    /\ basePlane r = Flat e
    /\ forall c v, In c (outer_ring Scenario.square) ->
                   getElevationFromDem (fst c) (snd c) Scenario.moundDem = Num v ->
                   (e <=? v) = true.
Proof.
  assert (H : exists r,
             volumeResult (M := RefMath.lib) Scenario.square Scenario.moundDem
                          (Scenario.options lowestPoint None) = Returns (Some r)).
  { eexists. vm_compute. reflexivity. }
  destruct H as (r & Hr).
  destruct (lowest_point_is_lowest (M := RefMath.lib) Scenario.square Scenario.moundDem
              (Scenario.options lowestPoint None) r eq_refl) as (e & He & Hle).
  - repeat constructor.
  - exact Hr.
  - exists r, e. split; [exact Hr|]. split; [exact He|exact Hle].
Defined.

Lemma lengths_never_negative_witness :
  (forall p q, nonneg (haversineDistance (M := RefMath.lib) p q))
  /\ (forall coords, nonneg (calculateLineDistance (M := RefMath.lib) coords)).
Proof.
  apply (lengths_never_negative (M := RefMath.lib)). exact RefMath_atan2_sign.
Defined.

Lemma short_line_no_profile_witness :
  getProfileFromDem (M := RefMath.lib) Cases.dot Scenario.flatDem defaultSamples
  = Returns None.
Proof.
  apply (short_line_no_profile (M := RefMath.lib) Cases.dot Scenario.flatDem defaultSamples).
  cbn. lia.
Defined.

Lemma profile_starts_at_zero_witness :
  hd_error Scenario.cornerProfile
  = Some (mkSample 0 (getElevationFromDem 0.3 0.5 Scenario.flatDem)).
Proof.
  apply (profile_starts_at_zero (M := RefMath.lib) Scenario.cornerLine Scenario.flatDem 3
           Scenario.cornerProfile (0.3, 0.5) [(0.5, 0.5); (0.5, 0.7)]);
    [vm_compute; reflexivity|reflexivity|reflexivity].
Defined.

Lemma profile_elevations_from_raster_witness :
  In 50 (values Scenario.flatDem)
  /\ strict_eq (Num 50) (noDataValue Scenario.flatDem) = false
  /\ (noDataValue Scenario.flatDem = Num 50 -> is_nan 50 = true).
Proof.
  apply (profile_elevations_from_raster (M := RefMath.lib) Scenario.cornerLine
           Scenario.flatDem 3 Scenario.cornerProfile (mkSample 0 (Num 50)) 50);
    [vm_compute; reflexivity|now left|reflexivity].
Defined.

Lemma nan_budget_no_profile_witness :
  getProfileFromDem (M := RefMath.lib) Scenario.cornerLine Scenario.flatDem nan
  = Returns None.
Proof.
  apply (nan_budget_no_profile (M := RefMath.lib) Scenario.cornerLine Scenario.flatDem nan).
  reflexivity.
Defined.

Lemma closed_ring_same_area_witness :
  calculatePolygonArea (M := RefMath.lib) (Cases.openSquare ++ [(0.2, 0.2)])
  = calculatePolygonArea (M := RefMath.lib) Cases.openSquare.
Proof.
  apply (closed_ring_same_area (M := RefMath.lib) (0.2, 0.2)
           [(0.8, 0.2); (0.8, 0.8); (0.2, 0.8)]).
  - cbn. lia.
  - vm_compute. reflexivity.
  - vm_compute. reflexivity.
Defined.

Lemma bbox_contains_positions_witness :
  (b0 (mkBBox 0.2 0.2 0.8 0.8) <=? 0.8) = true
  /\ (0.8 <=? b2 (mkBBox 0.2 0.2 0.8 0.8)) = true
  /\ (b1 (mkBBox 0.2 0.2 0.8 0.8) <=? 0.2) = true
  /\ (0.2 <=? b3 (mkBBox 0.2 0.2 0.8 0.8)) = true.
Proof.
  apply (bbox_contains_positions Cases.squareCollection (mkBBox 0.2 0.2 0.8 0.8) (0.8, 0.2)).
  - vm_compute. reflexivity.
  - repeat constructor.
  - cbn. right. left. reflexivity.
Defined.

Lemma dialog_supplies_elevation_witness :
  (is_nan (Cases.parseSixty Cases.typedSixty) = true ->
   calculateFromDialog (M := RefMath.lib) Cases.parseSixty
     (Some Scenario.square) (Some Scenario.flatDem) fixedElevationMethod Cases.typedSixty = None)
  /\ (is_nan (Cases.parseSixty Cases.typedSixty) = false ->
      exists r,
        calculateFromDialog (M := RefMath.lib) Cases.parseSixty
          (Some Scenario.square) (Some Scenario.flatDem) fixedElevationMethod Cases.typedSixty
        = Some (Returns (VolumeAnnotation r))
        /\ basePlane r = Flat (Cases.parseSixty Cases.typedSixty)
        /\ result_method r = fixedElevationMethod).
Proof.
  apply (dialog_supplies_elevation (M := RefMath.lib) Cases.parseSixty
           Scenario.square Scenario.flatDem Cases.typedSixty).
  vm_compute. lia.
Defined.

(** ** The default budget on the corner line *)

Lemma profile_terminates_witness :
  budgeted (M := RefMath.lib) (line_coordinates Scenario.cornerLine) defaultSamples
  /\ exists result,
       getProfileFromDem (M := RefMath.lib) Scenario.cornerLine Scenario.flatDem defaultSamples
       = Returns result.
Proof.
  apply (profile_terminates (M := RefMath.lib) Scenario.cornerLine Scenario.flatDem
                            defaultSamples 100).
  - exact RefMath_atan2_sign.
  - apply Forall_cons; [vm_compute; reflexivity|].
    apply Forall_cons; [vm_compute; reflexivity|]. apply Forall_nil.
  - exact BudgetFacts.whole_default.
  - lia.
Defined.

(** ** A line that grows, and the queries of the default lattice *)

Lemma line_distance_extends_witness :
  (calculateLineDistance (M := RefMath.lib) ([Scenario.pointA] ++ [Scenario.pointB])
   <=? calculateLineDistance (M := RefMath.lib)
         ([Scenario.pointA] ++ [Scenario.pointB; Scenario.pointC])) = true.
Proof.
  destruct (line_distance_extends (M := RefMath.lib) [Scenario.pointA]
              Scenario.pointB Scenario.pointC) as [_ H].
  apply H.
  - exact RefMath_atan2_sign.
  - apply Forall_cons; [vm_compute; reflexivity|].
    apply Forall_cons; [vm_compute; reflexivity|]. apply Forall_nil.
Defined.

